(** * Design-token transformation pipeline: a shallow embedding

    The development follows the three token scripts of the repository:

    - the legacy W3C parser ([flattenTokens], [resolveReferences],
      [classifyTokens] over objects keyed by dotted names);
    - the universal parser (format detection, the [W3CParser] resolver over an
      array of [StandardToken] objects, the pattern classifier, the CSS
      emitter);
    - the Figma transformer (name clean-up and reordering, RGB matching, HSL
      naming, palette synthesis, semantic colour emission).

    Conventions of the embedding.

    - A JavaScript string is a [string]: a sequence of 8-bit code units.  The
      character classes of the regular expressions ([[a-z]], [[A-Z]], [\d])
      and [toLowerCase] are the ASCII ones, which is exact for ASCII names.
    - A plain object whose entries are enumerated is an [obj]: the list of its
      own entries in enumeration order (array-index keys first, ascending,
      then the other keys in insertion order).  [JsObject.set] keeps that
      order.  Property names that collide with members of [Object.prototype]
      are not modelled.
    - An object that is only read by key is a [gmap].
    - [console.warn] is modelled by a list of emitted warnings.
    - [Math.sqrt] of a sum of integer squares is compared through the squares
      themselves (the square root is strictly monotone on integers of that
      size and [sqrt 900 = 30] is exact). *)

From Stdlib Require Import ZArith NArith QArith Lia List Ascii String.
From Stdlib Require Import DecimalString DecimalNat DecimalFacts Permutation Sorted.
From stdpp Require Import gmap strings list.

Open Scope string_scope.
Open Scope list_scope.

(** ** JavaScript strings *)

Module JsString.

Definition code (c : ascii) : N := N_of_ascii c.

Definition isUpper (c : ascii) : bool := ((65 <=? code c) && (code c <=? 90))%N.
Definition isLower (c : ascii) : bool := ((97 <=? code c) && (code c <=? 122))%N.
Definition isDigit (c : ascii) : bool := ((48 <=? code c) && (code c <=? 57))%N.

Definition lowerChar (c : ascii) : ascii :=
  if isUpper c then ascii_of_N (code c + 32) else c.

(** [s.toLowerCase()] *)
Fixpoint toLowerCase (s : string) : string :=
  match s with
  | EmptyString => EmptyString
  | String c s' => String (lowerChar c) (toLowerCase s')
  end.

(** [s.split(sep)] for a one-character separator: never the empty array. *)
Fixpoint split (sep : ascii) (s : string) : list string :=
  match s with
  | EmptyString => [EmptyString]
  | String c s' =>
      if Ascii.eqb c sep then EmptyString :: split sep s'
      else match split sep s' with
           | [] => [String c EmptyString]
           | p :: ps => String c p :: ps
           end
  end.

(** [parts.join(sep)] *)
Definition join (sep : string) (parts : list string) : string :=
  String.concat sep parts.

(** [p] is a prefix of [s]. *)
Fixpoint isPrefix (p s : string) : bool :=
  match p with
  | EmptyString => true
  | String a p' =>
      match s with
      | EmptyString => false
      | String b s' => Ascii.eqb a b && isPrefix p' s'
      end
  end.

(** [s.startsWith(p)] *)
Definition startsWith (s p : string) : bool := isPrefix p s.

(** [s.includes(needle)] *)
Fixpoint includes (s needle : string) : bool :=
  isPrefix needle s ||
  match s with
  | EmptyString => false
  | String _ s' => includes s' needle
  end.

(** [parts.indexOf(x)] with [None] for [-1]. *)
Fixpoint indexOf (x : string) (parts : list string) : option nat :=
  match parts with
  | [] => None
  | p :: ps => if String.eqb p x then Some 0
               else option_map S (indexOf x ps)
  end.

(** A string is truthy when it is not empty. *)
Definition truthy (s : string) : bool := negb (String.eqb s "").

(** [o] is a truthy optional string: neither [null]/[undefined] nor empty. *)
Definition truthyOpt (o : option string) : bool :=
  match o with
  | Some s => truthy s
  | None => false
  end.

End JsString.

(** ** Plain objects with enumerated entries *)

Module JsObject.
Import JsString.

(** The own entries of an object, in enumeration order. *)
Definition obj (A : Type) : Type := list (string * A).

Fixpoint digitsValue (s : string) (acc : N) : option N :=
  match s with
  | EmptyString => Some acc
  | String c s' =>
      if isDigit c then digitsValue s' (acc * 10 + (code c - 48))%N
      else None
  end.

(** A key is an array index when it is the canonical decimal form of an
    integer below [2^32 - 1]; such keys are enumerated first, ascending. *)
Definition arrayIndex (k : string) : option N :=
  match k with
  | EmptyString => None
  | String c rest =>
      if Ascii.eqb c "0" && negb (String.eqb rest "") then None
      else match digitsValue k 0 with
           | Some n => if (n <? 4294967295)%N then Some n else None
           | None => None
           end
  end.

Section WithA.
Context {A : Type}.

(** [o[k]] *)
Fixpoint get (k : string) (o : obj A) : option A :=
  match o with
  | [] => None
  | (k', v) :: o' => if String.eqb k' k then Some v else get k o'
  end.

(** [k in o] *)
Definition has (k : string) (o : obj A) : bool :=
  match get k o with Some _ => true | None => false end.

(** Assignment to an existing property keeps its place. *)
Fixpoint update (k : string) (v : A) (o : obj A) : obj A :=
  match o with
  | [] => []
  | (k', v') :: o' =>
      if String.eqb k' k then (k, v) :: o' else (k', v') :: update k v o'
  end.

(** The new array index [n] is enumerated before the key [k']. *)
Definition precedes (n : N) (k' : string) : bool :=
  match arrayIndex k' with
  | Some n' => (n <? n')%N
  | None => true
  end.

Fixpoint insertIndex (n : N) (k : string) (v : A) (o : obj A) : obj A :=
  match o with
  | [] => [(k, v)]
  | (k', v') :: o' =>
      if precedes n k' then (k, v) :: o
      else (k', v') :: insertIndex n k v o'
  end.

(** [o[k] = v] *)
Definition set (k : string) (v : A) (o : obj A) : obj A :=
  if has k o then update k v o
  else match arrayIndex k with
       | Some n => insertIndex n k v o
       | None => (o ++ [(k, v)])%list
       end.

(** [Object.assign(target, source)]; [{...a, ...b}] is
    [assign (assign [] a) b]. *)
Definition assign (target source : obj A) : obj A :=
  fold_left (fun t kv => set kv.1 kv.2 t) source target.

Definition keys (o : obj A) : list string := map fst o.
Definition values (o : obj A) : list A := map snd o.

End WithA.
End JsObject.

(** ** Configuration ([tokens.config.js])

    Only the settings read by the modelled functions are kept. *)

Record Transformations := {
  reorderSemanticTokens : bool;
  categoryKeywords : option (list string)
}.

Record Config := {
  cssPrefixPrimitive : string;   (* config.cssPrefix.primitive *)
  cssPrefixSemantic : string;    (* config.cssPrefix.semantic *)
  transformations : option Transformations
}.

(** ** Name normaliser (Figma transformer) *)

Module Names.
Import JsString.

(** [.replace(/&/g, '-')] *)
Fixpoint replaceAmp (s : string) : string :=
  match s with
  | EmptyString => EmptyString
  | String c s' =>
      String (if Ascii.eqb c "&" then "-"%char else c) (replaceAmp s')
  end.

(** [.replace(/([a-z])([A-Z])/g, '$1-$2')]: matches are found left to right
    and do not overlap, the scan resumes after the second character. *)
Fixpoint hyphenateCamel (s : string) : string :=
  match s with
  | String c1 ((String c2 rest) as tl) =>
      if isLower c1 && isUpper c2
      then String c1 (String "-" (String c2 (hyphenateCamel rest)))
      else String c1 (hyphenateCamel tl)
  | _ => s
  end.

(** [.replace(/([a-z])(\d)/g, '$1-$2')] *)
Fixpoint hyphenateDigit (s : string) : string :=
  match s with
  | String c1 ((String c2 rest) as tl) =>
      if isLower c1 && isDigit c2
      then String c1 (String "-" (String c2 (hyphenateDigit rest)))
      else String c1 (hyphenateDigit tl)
  | _ => s
  end.

(** The inner helper of [cleanTokenName]: the [while] loop counts the
    positions at which both strings agree, from the start. *)
Fixpoint longestCommonPrefix (a b : string) : nat :=
  match a, b with
  | String x a', String y b' =>
      if Ascii.eqb x y then S (longestCommonPrefix a' b') else 0
  | _, _ => 0
  end.

(** First [if]: drop a leading "Secondary" when there are three parts or more. *)
Definition dropSecondary (parts : list string) : list string :=
  match parts with
  | p0 :: rest =>
      if String.eqb (toLowerCase p0) "secondary" && (3 <=? length parts)%nat
      then rest else parts
  | [] => parts
  end.

(** Second [if]: drop the first part when it is redundant with the second. *)
Definition dropRedundant (parts : list string) : list string :=
  match parts with
  | p0 :: ((p1 :: _) as rest) =>
      let firstPart := toLowerCase p0 in
      let secondPart := toLowerCase p1 in
      let commonLength := longestCommonPrefix firstPart secondPart in
      if (4 <=? commonLength)%nat || startsWith secondPart firstPart
         || startsWith firstPart secondPart
      then rest else parts
  | _ => parts
  end.

Definition kebab (s : string) : string :=
  toLowerCase (hyphenateDigit (hyphenateCamel (replaceAmp s))).

Definition cleanTokenName (name : string) : string :=
  let parts := split "-" name in
  let parts := dropSecondary parts in
  let parts := dropRedundant parts in
  kebab (join "-" parts).

(** The [for] loop of [reorderSemanticToken] over the configured keywords. *)
Fixpoint reorderLoop (keywords parts : list string) (tokenName : string)
  : string :=
  match keywords with
  | [] => tokenName
  | keyword :: keywords' =>
      match indexOf keyword parts with
      | Some (S i) =>
          let keywordIndex := S i in
          (* removed = parts.splice(keywordIndex, 1); parts.unshift(removed[0]) *)
          match parts !! keywordIndex with
          | Some removed => join "-" (removed :: delete keywordIndex parts)
          | None => tokenName
          end
      | _ => reorderLoop keywords' parts tokenName
      end
  end.

Definition reorderEnabled (config : Config) : bool :=
  match transformations config with
  | Some t => reorderSemanticTokens t
  | None => false
  end.

Definition keywordsOf (config : Config) : list string :=
  match transformations config with
  | Some t => default [] (categoryKeywords t)
  | None => []
  end.

Definition reorderSemanticToken (config : Config) (tokenName : string)
  : string :=
  if negb (reorderEnabled config) then tokenName
  else reorderLoop (keywordsOf config) (split "-" tokenName) tokenName.

(** A keyword needs no move when it is absent or already leads. *)
Definition settled (parts : list string) (k : string) : Prop :=
  indexOf k parts = None \/ indexOf k parts = Some 0.

(** *** The clean-up rules in the words of the specification *)

(** [a] and [b] share a common prefix of at least [n] characters. *)
Definition sharesPrefix (n : nat) (a b : string) : Prop :=
  exists p, n <= String.length p /\ isPrefix p a = true /\ isPrefix p b = true.

(** The first segment restates the second: a common prefix of four
    characters or more, or one of the two is a prefix of the other. *)
Definition restates (a b : string) : Prop :=
  sharesPrefix 4 a b \/ isPrefix a b = true \/ isPrefix b a = true.

Definition isWrapped (parts : list string) : Prop :=
  exists w rest, parts = w :: rest /\ toLowerCase w = "secondary"
                 /\ 3 <= length parts.

Definition isRestated (parts : list string) : Prop :=
  exists a b rest, parts = a :: b :: rest
                   /\ restates (toLowerCase a) (toLowerCase b).

(** [s] holds a character of class [left] directly followed by one of class
    [right]. *)
Fixpoint hasBoundary (left right : ascii -> bool) (s : string) : bool :=
  match s with
  | String c1 ((String c2 _) as tl) =>
      (left c1 && right c2) || hasBoundary left right tl
  | _ => false
  end.

(** [s] without its hyphens. *)
Fixpoint withoutHyphens (s : string) : string :=
  match s with
  | EmptyString => EmptyString
  | String c s' =>
      if Ascii.eqb c "-" then withoutHyphens s'
      else String c (withoutHyphens s')
  end.

(** Rule 1: a leading organisational wrapper label is dropped from a path of
    three segments or more. *)
Inductive dropsWrapper : list string -> list string -> Prop :=
| wrapper_dropped w rest :
    isWrapped (w :: rest) -> dropsWrapper (w :: rest) rest
| wrapper_kept parts :
    ~ isWrapped parts -> dropsWrapper parts parts.

(** Rule 2: a first segment that restates the second is dropped. *)
Inductive dropsRestated : list string -> list string -> Prop :=
| restated_dropped a rest :
    isRestated (a :: rest) -> dropsRestated (a :: rest) rest
| restated_kept parts :
    ~ isRestated parts -> dropsRestated parts parts.

(** The claim's second clause, as stated: a name whose first segment already
    is a configured keyword is returned unchanged. *)
Definition leadingKeywordUnchanged : Prop :=
  forall config name first rest,
    reorderEnabled config = true ->
    split "-" name = first :: rest ->
    In first (keywordsOf config) ->
    reorderSemanticToken config name = name.

End Names.

(** ** The internal token ([StandardToken]) *)

Module Token.

Record Metadata := {
  description : option string;
  originalPath : string;
  designerNotes : option (list string);
  isLegacy : bool               (* [undefined] reads as [false] *)
}.

(** [V] is the type of JavaScript values a token carries; the resolver
    only copies them. *)
Record StandardToken (V : Type) := mkToken {
  name : string;
  value : V;
  type : string;
  rawValue : V;
  references : option string;   (* [null] or the normalised target name *)
  metadata : Metadata;
  category : option string;
  group : option string
}.

Arguments mkToken {V}.
Arguments name {V}.
Arguments value {V}.
Arguments type {V}.
Arguments rawValue {V}.
Arguments references {V}.
Arguments metadata {V}.
Arguments category {V}.
Arguments group {V}.

(** [token.value = v] *)
Definition setValue {V} (v : V) (token : StandardToken V) : StandardToken V :=
  mkToken (name token) v (type token) (rawValue token) (references token)
          (metadata token) (category token) (group token).

(** [if (token.references)]: the field is set and not the empty string. *)
Definition hasReference {V} (token : StandardToken V) : bool :=
  JsString.truthyOpt (references token).

End Token.

(** ** Reference resolver ([W3CParser.resolveReferences]) *)

Module Resolver.
Import JsString Token.

Definition maxDepth : nat := 10.

Inductive warning :=
| UnresolvedReference (currentRef tokenName : string)
| CircularReference (tokenName : string).

Section WithValue.
Context {V : Type}.

Abbreviation Tok := (StandardToken V).

(** [new Map(tokens.map(t => [t.name, t]))]: the map holds the token objects
    themselves, so it is kept as name ↦ position in the array; a later token
    of the same name replaces the earlier one. *)
Fixpoint tokenMapFrom (i : nat) (tokens : list Tok) (m : gmap string nat)
  : gmap string nat :=
  match tokens with
  | [] => m
  | t :: ts => tokenMapFrom (S i) ts (<[name t := i]> m)
  end.

Definition tokenMap (tokens : list Tok) : gmap string nat :=
  tokenMapFrom 0 tokens ∅.

(** [tokenMap.get(ref)], read in the current state [store] of the objects. *)
Definition mapGet (tm : gmap string nat) (store : list Tok) (ref : string)
  : option Tok :=
  match tm !! ref with
  | Some i => store !! i
  | None => None
  end.

(** How the [while] loop ends. *)
Inductive outcome :=
| Resolved (v : V)            (* [token.value = refToken.value; break] *)
| Unresolved (ref : string)   (* target missing: warning, [break] *)
| DepthExceeded               (* [depth >= maxDepth] *)
| Stopped.                    (* [currentRef] falsy *)

(** The [while (currentRef && depth < maxDepth)] loop; [fuel] is
    [maxDepth - depth]. *)
Fixpoint follow (tm : gmap string nat) (store : list Tok)
         (currentRef : string) (fuel : nat) : outcome :=
  match fuel with
  | 0 => DepthExceeded
  | S fuel' =>
      if negb (truthy currentRef) then Stopped
      else match mapGet tm store currentRef with
           | None => Unresolved currentRef
           | Some refToken =>
               match references refToken with
               | Some r =>
                   if truthy r then follow tm store r fuel'
                   else Resolved (value refToken)
               | None => Resolved (value refToken)
               end
           end
  end.

(** The body of the [for] loop for the token at position [i]. *)
Definition resolveToken (tm : gmap string nat) (store : list Tok) (i : nat)
  : list Tok * list warning :=
  match store !! i with
  | None => (store, [])
  | Some token =>
      match references token with
      | Some r =>
          if truthy r then
            match follow tm store r maxDepth with
            | Resolved v => (<[i := setValue v token]> store, [])
            | Unresolved ref =>
                (store, [UnresolvedReference ref (name token)])
            | DepthExceeded => (store, [CircularReference (name token)])
            | Stopped => (store, [])
            end
          else (store, [])
      | None => (store, [])
      end
  end.

Definition resolveStep (tm : gmap string nat)
           (st : list Tok * list warning) (i : nat)
  : list Tok * list warning :=
  let '(store', ws) := resolveToken tm st.1 i in (store', (st.2 ++ ws)%list).

(** [resolveReferences(tokens)]: the tokens after the pass and the warnings
    printed, in order. *)
Definition resolveReferences (tokens : list Tok)
  : list Tok * list warning :=
  fold_left (resolveStep (tokenMap tokens)) (seq 0 (length tokens))
            (tokens, []).

(** *** Reference chains, in the words of the specification *)

Definition lookupToken (tokens : list Tok) (ref : string) : option Tok :=
  mapGet (tokenMap tokens) tokens ref.

(** [longerThan tokens r n]: starting at the target name [r], the chain runs
    through [n] tokens that each hold a reference themselves. *)
Inductive longerThan (tokens : list Tok) : string -> nat -> Prop :=
| longer_O r : longerThan tokens r 0
| longer_S r t r' n :
    truthy r = true ->
    lookupToken tokens r = Some t ->
    references t = Some r' -> truthy r' = true ->
    longerThan tokens r' n ->
    longerThan tokens r (S n).

(** [reaches tokens r n v]: starting at the target name [r], the chain ends
    within [n] look-ups at a token that holds no reference and whose value
    is [v]. *)
Inductive reaches (tokens : list Tok) : string -> nat -> V -> Prop :=
| reaches_here r t n :
    truthy r = true ->
    lookupToken tokens r = Some t ->
    hasReference t = false ->
    reaches tokens r (S n) (value t)
| reaches_next r t r' n v :
    truthy r = true ->
    lookupToken tokens r = Some t ->
    references t = Some r' -> truthy r' = true ->
    reaches tokens r' n v ->
    reaches tokens r (S n) v.

(** *** One pass, token by token *)

(** The token a pass leaves at the place of [token], computed against the
    tokens as they were before the pass. *)
Definition resolved (tokens : list Tok) (token : Tok) : Tok :=
  match references token with
  | Some r =>
      if truthy r then
        match follow (tokenMap tokens) tokens r maxDepth with
        | Resolved v => setValue v token
        | _ => token
        end
      else token
  | None => token
  end.

(** The warnings the pass prints for [token]. *)
Definition warned (tokens : list Tok) (token : Tok) : list warning :=
  match references token with
  | Some r =>
      if truthy r then
        match follow (tokenMap tokens) tokens r maxDepth with
        | Unresolved ref => [UnresolvedReference ref (name token)]
        | DepthExceeded => [CircularReference (name token)]
        | _ => []
        end
      else []
  | None => []
  end.

(** Two states of the token objects agree when names and references are the
    same and the tokens without a reference are untouched. *)
Definition agree (a b : Tok) : Prop :=
  name a = name b /\ references a = references b
  /\ (hasReference b = false -> a = b).

(** The state after the first [k] tokens have been visited. *)
Definition visited (tokens : list Tok) (k : nat) : list Tok :=
  (map (resolved tokens) (take k tokens) ++ drop k tokens)%list.

End WithValue.
End Resolver.

(** ** Classifiers *)

(** The classifier of the legacy W3C parser, over the object of tokens keyed
    by dotted name. *)
Module LegacyClassifier.
Import JsString JsObject.

Record LegacyToken (V : Type) := mkLegacyToken {
  type : string;
  value : V;
  path : list string;
  description : string;
  references : option string     (* set by the legacy resolver *)
}.

Arguments mkLegacyToken {V}.
Arguments type {V}.
Arguments value {V}.
Arguments path {V}.
Arguments description {V}.
Arguments references {V}.

Section WithValue.
Context {V : Type}.

(** [tokens[token.references]?.type === 'dimension'] *)
Definition referencesDimension (tokens : obj (LegacyToken V))
           (token : LegacyToken V) : bool :=
  match references token with
  | Some r =>
      match get r tokens with
      | Some target => String.eqb (type target) "dimension"
      | None => false
      end
  | None => false
  end.

Definition classifyStep (tokens : obj (LegacyToken V))
           (acc : obj (LegacyToken V) * obj (LegacyToken V))
           (entry : string * LegacyToken V)
  : obj (LegacyToken V) * obj (LegacyToken V) :=
  let '(primitives, semantics) := acc in
  let '(tokenName, token) := entry in
  if truthyOpt (references token) then
    let isDimensionReferencingDimension :=
      String.eqb (type token) "dimension" && referencesDimension tokens token
    in
    if isDimensionReferencingDimension
    then (set tokenName token primitives, semantics)
    else (primitives, set tokenName token semantics)
  else (set tokenName token primitives, semantics).

(** [classifyTokens(tokens)] returns [{ primitives, semantics }]. *)
Definition classifyTokens (tokens : obj (LegacyToken V))
  : obj (LegacyToken V) * obj (LegacyToken V) :=
  fold_left (classifyStep tokens) tokens ([], []).

(** The side on which the legacy classifier files a token. *)
Definition legacyPrimitive (tokens : obj (LegacyToken V))
           (token : LegacyToken V) : bool :=
  negb (truthyOpt (references token))
  || (String.eqb (type token) "dimension" && referencesDimension tokens token).

End WithValue.
End LegacyClassifier.

(** The classifier of the universal parser, over the array of tokens. *)
Module Classifier.
Import JsString Token.

Definition primitivePrefixes : list string :=
  ["base-"; "primitive-"; "scale-"; "color-"; "grey-"; "gray-";
   "red-"; "blue-"; "green-"; "yellow-"; "orange-"; "purple-"; "pink-";
   "spacing-"; "radius-"; "font-size-"].

Definition semanticPrefixes : list string :=
  ["semantic-"; "system-"; "component-";
   "primary-"; "secondary-"; "accent-"; "surface-"; "background-";
   "text-"; "content-"; "border-"; "stroke-"].

Definition isPrimitivePattern (name : string) : bool :=
  existsb (fun prefix => includes (toLowerCase name) prefix) primitivePrefixes.

Definition isSemanticPattern (name : string) : bool :=
  existsb (fun prefix => includes (toLowerCase name) prefix) semanticPrefixes.

Section WithValue.
Context {V : Type}.

Definition classifyStep
           (acc : list (StandardToken V) * list (StandardToken V))
           (token : StandardToken V)
  : list (StandardToken V) * list (StandardToken V) :=
  let '(primitives, semantics) := acc in
  if hasReference token then (primitives, semantics ++ [token])
  else if isPrimitivePattern (name token) then (primitives ++ [token], semantics)
  else if isSemanticPattern (name token) then (primitives, semantics ++ [token])
  else (primitives ++ [token], semantics).

(** [classifyTokens(tokens)] returns [{ primitives, semantics }]. *)
Definition classifyTokens (tokens : list (StandardToken V))
  : list (StandardToken V) * list (StandardToken V) :=
  fold_left classifyStep tokens ([], []).

End WithValue.

(** The claim as stated, for this classifier: a dimension token whose
    reference target is a dimension token is classified primitive. *)
Definition dimensionReferenceIsPrimitive : Prop :=
  forall (tokens : list (StandardToken string)) t target,
    In t tokens -> In target tokens ->
    hasReference t = true -> references t = Some (name target) ->
    type t = "dimension" -> type target = "dimension" ->
    In t (classifyTokens tokens).1.

End Classifier.

(** ** Parsed JSON documents *)

Module Json.
Import JsString.

(** A parsed JSON document.  Numbers are the integral ones; the members of an
    object are its entries in enumeration order. *)
#[local] Unset Elimination Schemes.
Inductive json :=
| JNull
| JBool (b : bool)
| JNum (z : Z)
| JStr (s : string)
| JArr (items : list json)
| JObj (members : list (string * json)).
#[local] Set Elimination Schemes.

Definition dquote : string := String (ascii_of_N 34) EmptyString.
Definition backslash : string := String (ascii_of_N 92) EmptyString.

Definition hexDigit (n : N) : string :=
  String (ascii_of_N (if (n <? 10)%N then 48 + n else 87 + n)) EmptyString.

(** The escapes of [JSON.stringify] inside a string. *)
Definition escapeChar (c : ascii) : string :=
  let n := code c in
  if (n =? 34)%N then backslash +:+ dquote
  else if (n =? 92)%N then backslash +:+ backslash
  else if (n =? 8)%N then backslash +:+ "b"
  else if (n =? 9)%N then backslash +:+ "t"
  else if (n =? 10)%N then backslash +:+ "n"
  else if (n =? 12)%N then backslash +:+ "f"
  else if (n =? 13)%N then backslash +:+ "r"
  else if (n <? 32)%N
       then backslash +:+ "u00" +:+ hexDigit (n / 16) +:+ hexDigit (n mod 16)
  else String c EmptyString.

Fixpoint escape (s : string) : string :=
  match s with
  | EmptyString => EmptyString
  | String c s' => escapeChar c +:+ escape s'
  end.

Definition quote (s : string) : string := dquote +:+ escape s +:+ dquote.

Definition decimal (z : Z) : string := NilEmpty.string_of_int (Z.to_int z).

(** [JSON.stringify(data)] *)
Fixpoint stringify (j : json) : string :=
  match j with
  | JNull => "null"
  | JBool true => "true"
  | JBool false => "false"
  | JNum z => decimal z
  | JStr s => quote s
  | JArr items => "[" +:+ join "," (map stringify items) +:+ "]"
  | JObj members =>
      "{" +:+ join "," (map (fun kv => quote kv.1 +:+ ":" +:+ stringify kv.2)
                            members) +:+ "}"
  end.

End Json.

(** ** Format detector (universal parser) *)

Module Detect.
Import JsString Json.

(** [str.replace(/\{[^{}]*\}/g, '')].  A match starts at an opening brace
    and is complete when the next brace met is a closing one; [pending]
    holds, in reverse, the text read since an opening brace that may still
    turn out to start a match. *)
Fixpoint removeInnerFrom (pending : option string) (s : string) : string :=
  match s with
  | EmptyString =>
      match pending with
      | Some held => String.rev held
      | None => EmptyString
      end
  | String c s' =>
      match pending with
      | None =>
          if Ascii.eqb c "{" then removeInnerFrom (Some "{") s'
          else String c (removeInnerFrom None s')
      | Some held =>
          if Ascii.eqb c "}" then removeInnerFrom None s'
          else if Ascii.eqb c "{"
               then String.rev held +:+ removeInnerFrom (Some "{") s'
               else removeInnerFrom (Some (String c held)) s'
      end
  end.

Definition removeInnerBraces (s : string) : string := removeInnerFrom None s.

Fixpoint hasClosingBrace (s : string) : bool :=
  match s with
  | EmptyString => false
  | String c s' => Ascii.eqb c "}" || hasClosingBrace s'
  end.

(** [/\{[^}]+\}/.test(s)]: an opening brace, one character or more other
    than a closing brace, a closing brace. *)
Fixpoint testBraced (s : string) : bool :=
  match s with
  | EmptyString => false
  | String c s' =>
      (Ascii.eqb c "{" &&
       match s' with
       | String d s'' => negb (Ascii.eqb d "}") && hasClosingBrace s''
       | EmptyString => false
       end)
      || testBraced s'
  end.

Definition hasW3CFormat (data : json) : bool :=
  let str := stringify data in
  includes str (dquote +:+ "$type" +:+ dquote)
  || includes str (dquote +:+ "$value" +:+ dquote)
  || testBraced (removeInnerBraces str).

Definition jsTruthy (j : json) : bool :=
  match j with
  | JNull => false
  | JBool b => b
  | JNum z => negb (z =? 0)%Z
  | JStr s => truthy s
  | JArr _ | JObj _ => true
  end.

Fixpoint member (k : string) (members : list (string * json)) : option json :=
  match members with
  | [] => None
  | (k', v) :: rest => if String.eqb k' k then Some v else member k rest
  end.

Definition detectW3CVersion (data : json) : string :=
  match data with
  | JObj members =>
      match member "$schema" members with
      | Some v => if jsTruthy v then "draft-spec" else "1.0"
      | None => "1.0"
      end
  | _ => "1.0"
  end.

Definition hasTokensStudioFormat (data : json) : bool :=
  let str := stringify data in
  includes str (dquote +:+ "type" +:+ dquote +:+ ":" +:+ dquote)
  && (includes str (dquote +:+ "value" +:+ dquote +:+ ":")
      || includes str (dquote +:+ "$value" +:+ dquote +:+ ":")).

Fixpoint characters (s : string) : list json :=
  match s with
  | EmptyString => []
  | String c s' => JStr (String c EmptyString) :: characters s'
  end.

(** [Object.values(data)]; [None] when the call throws ([data] is [null]). *)
Definition objectValues (data : json) : option (list json) :=
  match data with
  | JNull => None
  | JObj members => Some (map snd members)
  | JArr items => Some items
  | JStr s => Some (characters s)
  | JBool _ | JNum _ => Some []
  end.

(** [Object.keys(data)[0]] *)
Definition firstKey (data : json) : option string :=
  match data with
  | JObj ((k, _) :: _) => Some k
  | JArr (_ :: _) => Some "0"
  | JStr (String _ _) => Some "0"
  | _ => None
  end.

(** [k in v] for a value that is an object. *)
Definition hasKey (k : string) (v : json) : bool :=
  match v with
  | JObj members =>
      match member k members with Some _ => true | None => false end
  | _ => false
  end.

Definition isObject (v : json) : bool :=   (* typeof v === 'object' && v !== null *)
  match v with
  | JArr _ | JObj _ => true
  | _ => false
  end.

Definition hasStyleDictionaryFormat (data : json) : option bool :=
  match objectValues data with
  | None => None
  | Some values =>
      Some match values with
           | firstValue :: _ =>
               isObject firstValue
               && (hasKey "value" firstValue && hasKey "type" firstValue)
           | [] => false
           end
  end.

Definition hasSimpleFormat (data : json) : option bool :=
  match objectValues data with
  | None => None
  | Some values =>
      Some (forallb (fun v =>
              match v with
              | JStr _ | JNum _ => true
              | _ => isObject v && negb (hasKey "$type" v)
                     && negb (hasKey "type" v)
              end) values)
  end.

Fixpoint allDigits (s : string) : bool :=
  match s with
  | EmptyString => true
  | String c s' => isDigit c && allDigits s'
  end.

Definition isHexDigit (c : ascii) : bool :=
  isDigit c || ((65 <=? code c) && (code c <=? 70))%N
  || ((97 <=? code c) && (code c <=? 102))%N.

Fixpoint allHex (s : string) : bool :=
  match s with
  | EmptyString => true
  | String c s' => isHexDigit c && allHex s'
  end.

(** [/^#[0-9A-Fa-f]{6}$/.test(s)] *)
Definition isHexColor (s : string) : bool :=
  match s with
  | String c body =>
      Ascii.eqb c "#" && (String.length body =? 6)%nat && allHex body
  | EmptyString => false
  end.

(** [/^\d+px$/.test(s)] *)
Fixpoint isPixels (s : string) : bool :=
  match s with
  | String c s' =>
      isDigit c && (String.eqb s' "px" || isPixels s')
  | EmptyString => false
  end.

(** [/^rgba?\(/.test(s)] *)
Definition isRgbCall (s : string) : bool :=
  isPrefix "rgb(" s || isPrefix "rgba(" s.

Definition detectSimpleCategory (data : json) (filename : string) : string :=
  let name := toLowerCase filename in
  let firstKey := match firstKey data with
                  | Some k => toLowerCase k
                  | None => EmptyString
                  end in
  let firstValue := match objectValues data with
                    | Some (v :: _) => Some v
                    | _ => None
                    end in
  if includes name "color" then "color"
  else if includes name "spacing" || includes name "space" then "spacing"
  else if includes name "typography" || includes name "font" then "typography"
  else if includes name "radius" || includes name "border" then "radius"
  else if includes name "shadow" || includes name "elevation" then "shadow"
  else if includes firstKey "color" || includes firstKey "bg"
          || includes firstKey "text" then "color"
  else if includes firstKey "spacing" || includes firstKey "gap"
          || includes firstKey "margin" then "spacing"
  else match firstValue with
       | Some (JStr s) =>
           if isHexColor s then "color"
           else if isPixels s then "spacing"
           else if isRgbCall s then "color"
           else "unknown"
       | _ => "unknown"
       end.

Record Detection := {
  format : string;
  version : option string;
  category : option string;
  confidence : string
}.

(** [detectTokenFormat(tokenData, filename)]; [None] when it throws. *)
Definition detectTokenFormat (tokenData : json) (filename : string)
  : option Detection :=
  if hasW3CFormat tokenData then
    Some {| format := "w3c"; version := Some (detectW3CVersion tokenData);
            category := None; confidence := "high" |}
  else if hasTokensStudioFormat tokenData then
    Some {| format := "tokens-studio"; version := Some "1.0";
            category := None; confidence := "high" |}
  else
    match hasStyleDictionaryFormat tokenData with
    | None => None
    | Some true =>
        Some {| format := "style-dictionary"; version := Some "3.0";
                category := None; confidence := "high" |}
    | Some false =>
        match hasSimpleFormat tokenData with
        | None => None
        | Some true =>
            Some {| format := "simple"; version := None;
                    category := Some (detectSimpleCategory tokenData filename);
                    confidence := "medium" |}
        | Some false =>
            Some {| format := "unknown"; version := None; category := None;
                    confidence := "low" |}
        end
    end.

(** *** The W3C test in the words of the specification *)

(** [/^\{[^}]+\}$/]: the brace-wrapped reference syntax. *)
Fixpoint closesAtEnd (s : string) : bool :=
  match s with
  | EmptyString => false
  | String c s' =>
      if Ascii.eqb c "}" then String.eqb s' EmptyString else closesAtEnd s'
  end.

Definition isReference (s : string) : bool :=
  match s with
  | String c ((String d _) as body) =>
      Ascii.eqb c "{" && negb (Ascii.eqb d "}") && closesAtEnd body
  | _ => false
  end.

(** The document holds a key starting with [$type] or [$value], or a string
    value in the reference syntax. *)
Fixpoint w3cShape (j : json) : bool :=
  match j with
  | JStr s => isReference s
  | JArr items => existsb w3cShape items
  | JObj members =>
      existsb (fun kv => isPrefix "$type" kv.1 || isPrefix "$value" kv.1
                         || w3cShape kv.2) members
  | _ => false
  end.

End Detect.

(** ** Colour family synthesiser (Figma transformer) *)

Module Color.
Import JsString JsObject.

Record rgb := mkRgb { r : Z; g : Z; b : Z }.

Definition hexValue (c : ascii) : option Z :=
  let n := Z.of_N (code c) in
  if isDigit c then Some (n - 48)%Z
  else if ((97 <=? n) && (n <=? 102))%Z then Some (n - 87)%Z
  else if ((65 <=? n) && (n <=? 70))%Z then Some (n - 55)%Z
  else None.

(** [parseInt(pair, 16)] for a pair of hexadecimal digits. *)
Definition parsePair (c1 c2 : ascii) : option Z :=
  match hexValue c1, hexValue c2 with
  | Some hi, Some lo => Some (16 * hi + lo)%Z
  | _, _ => None
  end.

(** [hexToRgb(hex)]: the pattern is [^#?] followed by three pairs of
    hexadecimal digits, in either case, up to the end of the string. *)
Definition hexToRgb (hex : string) : option rgb :=
  let digits := match hex with
                | String c rest => if Ascii.eqb c "#" then rest else hex
                | EmptyString => hex
                end in
  match digits with
  | String r1 (String r2 (String g1 (String g2 (String b1 (String b2
      EmptyString))))) =>
      match parsePair r1 r2, parsePair g1 g2, parsePair b1 b2 with
      | Some r, Some g, Some b => Some (mkRgb r g b)
      | _, _, _ => None
      end
  | _ => None
  end.

(** The square of [colorDistance(hex1, hex2)]; [None] stands for
    [Infinity]. *)
Definition colorDistanceSq (hex1 hex2 : string) : option Z :=
  match hexToRgb hex1, hexToRgb hex2 with
  | Some rgb1, Some rgb2 =>
      Some ((r rgb1 - r rgb2) ^ 2 + (g rgb1 - g rgb2) ^ 2
            + (b rgb1 - b rgb2) ^ 2)%Z
  | _, _ => None
  end.

(** [distance < closestDistance] on (squared) distances. *)
Definition closer (distance closestDistance : option Z) : bool :=
  match distance, closestDistance with
  | Some d, Some c => (d <? c)%Z
  | Some _, None => true
  | None, _ => false
  end.

Definition closestStep (hexValue : string)
           (acc : option string * option Z) (entry : string * string)
  : option string * option Z :=
  let '(name, value) := entry in
  let distance := colorDistanceSq hexValue value in
  if closer distance acc.2 then (Some name, distance) else acc.

(** [closestDistance <= maxDistance], the distance being finite. *)
Definition within (distanceSq maxDistance : Z) : bool :=
  ((0 <=? maxDistance) && (distanceSq <=? maxDistance * maxDistance))%Z.

(** [findClosestPrimitive(hexValue, primitiveTokens, maxDistance)] returns
    [{ name, distance }], here with the squared distance, or [null]. *)
Definition findClosestPrimitive (hexValue : string)
           (primitiveTokens : obj string) (maxDistance : Z)
  : option (string * Z) :=
  match fold_left (closestStep hexValue) primitiveTokens (None, None) with
  | (Some closestName, Some closestDistance) =>
      if within closestDistance maxDistance
      then Some (closestName, closestDistance) else None
  | _ => None
  end.

(** [acc] is the running minimum over the entries [seen]. *)
Definition closestOver (hexValue : string) (seen : obj string)
           (acc : option string * option Z) : Prop :=
  match acc.2 with
  | None =>
      acc.1 = None
      /\ forall n v, In (n, v) seen -> colorDistanceSq hexValue v = None
  | Some d =>
      (exists n v, acc.1 = Some n /\ In (n, v) seen
                   /\ colorDistanceSq hexValue v = Some d)
      /\ forall n v d', In (n, v) seen ->
                        colorDistanceSq hexValue v = Some d' -> (d <= d')%Z
  end.

(** *** HSL analysis, in exact rational arithmetic *)

Record hsl := mkHsl { h : Q; s : Q; l : Q }.

Definition Qltb (x y : Q) : bool := negb (Qle_bool y x).
Definition Qmax2 (x y : Q) : Q := if Qle_bool x y then y else x.
Definition Qmin2 (x y : Q) : Q := if Qle_bool x y then x else y.

Definition rgbToHsl (r g b : Z) : hsl :=
  let r := (inject_Z r / 255)%Q in
  let g := (inject_Z g / 255)%Q in
  let b := (inject_Z b / 255)%Q in
  let max := Qmax2 (Qmax2 r g) b in
  let min := Qmin2 (Qmin2 r g) b in
  let l := ((max + min) / 2)%Q in
  if Qeq_bool max min then mkHsl (0 * 360) (0 * 100) (l * 100)
  else
    let d := (max - min)%Q in
    let s := if Qltb (1 # 2) l then (d / (2 - max - min))%Q
             else (d / (max + min))%Q in
    let h := if Qeq_bool max r
             then (((g - b) / d + (if Qltb g b then 6 else 0)) / 6)%Q
             else if Qeq_bool max g then (((b - r) / d + 2) / 6)%Q
             else (((r - g) / d + 4) / 6)%Q in
    mkHsl (h * 360) (s * 100) (l * 100).

(** The family names already taken: the first segment of every existing
    primitive name, first occurrences only. *)
Fixpoint firstOccurrences (seen names : list string) : list string :=
  match names with
  | [] => []
  | n :: rest =>
      if existsb (String.eqb n) seen then firstOccurrences seen rest
      else n :: firstOccurrences (seen ++ [n]) rest
  end.

Definition usedNames (existingPrimitives : obj string) : list string :=
  firstOccurrences []
    (map (fun name => hd EmptyString (split "-" name))
         (keys existingPrimitives)).

(** [findAvailable(names)]: the first candidate that is not taken, the first
    candidate when all are. *)
Definition findAvailable (used names : list string) : string :=
  match find (fun name => negb (existsb (String.eqb name) used)) names with
  | Some name => name
  | None => hd "undefined" names
  end.

(** The hue buckets of [getPureColorName]. *)
Definition nameByHue (used : list string) (h s l : Q) : string :=
  if Qltb h 15 || Qle_bool 345 h then
    if Qltb s 30 then findAvailable used ["rose"; "pink"; "blush"]
    else if Qltb 70 l then findAvailable used ["coral"; "salmon"; "rose"]
    else if Qltb 50 l then findAvailable used ["crimson"; "ruby"; "cherry"]
    else findAvailable used ["ruby"; "crimson"; "garnet"]
  else if Qle_bool 15 h && Qltb h 45 then
    if Qltb 65 l then findAvailable used ["peach"; "apricot"; "cream"]
    else if Qltb 70 s
         then findAvailable used ["tangerine"; "persimmon"; "tiger"]
    else findAvailable used ["amber"; "bronze"; "copper"]
  else if Qle_bool 45 h && Qltb h 70 then
    if Qltb 70 l then findAvailable used ["lemon"; "butter"; "vanilla"]
    else if Qltb 60 s then findAvailable used ["gold"; "honey"; "mustard"]
    else findAvailable used ["olive"; "khaki"; "sand"]
  else if Qle_bool 70 h && Qltb h 150 then
    if Qltb 70 l then findAvailable used ["mint"; "sage"; "seafoam"]
    else if Qltb h 100
         then findAvailable used ["lime"; "chartreuse"; "spring"]
    else if Qltb s 30 then findAvailable used ["sage"; "moss"; "olive"]
    else if Qltb 50 l then findAvailable used ["emerald"; "jade"; "forest"]
    else findAvailable used ["forest"; "hunter"; "pine"]
  else if Qle_bool 150 h && Qltb h 200 then
    if Qltb 70 l then findAvailable used ["aqua"; "ice"; "frost"]
    else if Qltb 50 l then findAvailable used ["teal"; "turquoise"; "cyan"]
    else findAvailable used ["ocean"; "deep"; "marine"]
  else if Qle_bool 200 h && Qltb h 260 then
    if Qltb 70 l then findAvailable used ["sky"; "powder"; "baby"]
    else if Qltb s 30 then findAvailable used ["slate"; "steel"; "pewter"]
    else if Qltb 60 l
         then findAvailable used ["azure"; "cerulean"; "periwinkle"]
    else if Qltb 40 l then findAvailable used ["royal"; "sapphire"; "cobalt"]
    else findAvailable used ["navy"; "midnight"; "indigo"]
  else if Qle_bool 260 h && Qltb h 300 then
    if Qltb 70 l then findAvailable used ["lavender"; "lilac"; "mauve"]
    else if Qltb s 30 then findAvailable used ["plum"; "eggplant"; "wine"]
    else if Qltb 50 l then findAvailable used ["violet"; "amethyst"; "orchid"]
    else findAvailable used ["purple"; "grape"; "mulberry"]
  else if Qle_bool 300 h && Qltb h 345 then
    if Qltb 70 l then findAvailable used ["pink"; "rose"; "blush"]
    else if Qltb 60 s then findAvailable used ["magenta"; "fuchsia"; "hot"]
    else findAvailable used ["berry"; "wine"; "maroon"]
  else "unknown".

(** [getPureColorName(hexValues, existingPrimitives)]; an empty array makes
    [mainHex] undefined, which does not parse. *)
Definition getPureColorName (hexValues : list string)
           (existingPrimitives : obj string) : string :=
  match hexValues !! (length hexValues / 2)%nat with
  | None => "unknown"
  | Some mainHex =>
      match hexToRgb mainHex with
      | None => "unknown"
      | Some rgb =>
          let hsl := rgbToHsl (r rgb) (g rgb) (b rgb) in
          nameByHue (usedNames existingPrimitives) (h hsl) (s hsl) (l hsl)
      end
  end.

(** Every family name the hue buckets can return. *)
Definition familyNames : list string :=
  ["rose"; "pink"; "blush"; "coral"; "salmon"; "crimson"; "ruby"; "cherry";
   "garnet"; "peach"; "apricot"; "cream"; "tangerine"; "persimmon"; "tiger";
   "amber"; "bronze"; "copper"; "lemon"; "butter"; "vanilla"; "gold";
   "honey"; "mustard"; "olive"; "khaki"; "sand"; "mint"; "sage"; "seafoam";
   "lime"; "chartreuse"; "spring"; "moss"; "emerald"; "jade"; "forest";
   "hunter"; "pine"; "aqua"; "ice"; "frost"; "teal"; "turquoise"; "cyan";
   "ocean"; "deep"; "marine"; "sky"; "powder"; "baby"; "slate"; "steel";
   "pewter"; "azure"; "cerulean"; "periwinkle"; "royal"; "sapphire";
   "cobalt"; "navy"; "midnight"; "indigo"; "lavender"; "lilac"; "mauve";
   "plum"; "eggplant"; "wine"; "violet"; "amethyst"; "orchid"; "purple";
   "grape"; "mulberry"; "magenta"; "fuchsia"; "hot"; "berry"; "maroon"].

(** *** Semantic colour groups *)

(** A hardcoded semantic colour: [{ name, value, fullPath }]. *)
Record color := mkColor { name : string; value : string; fullPath : string }.

(** The Figma colours document.  A node is an object: [dollarValue] is its
    [$value] field when it has one (a string), [children] are its other
    entries in enumeration order.  [Scalar] stands for a string, a number or
    a boolean. *)
#[local] Unset Elimination Schemes.
Inductive tree :=
| Scalar
| Node (dollarValue : option string) (children : list (string * tree)).
#[local] Set Elimination Schemes.

Definition notLineTerminator (c : ascii) : bool :=
  negb (Ascii.eqb c (ascii_of_N 10) || Ascii.eqb c (ascii_of_N 13)).

(** [s] is some characters of one line followed by a final closing brace. *)
Fixpoint lineThenClose (s : string) : bool :=
  match s with
  | EmptyString => false
  | String c EmptyString => Ascii.eqb c "}"
  | String c s' => notLineTerminator c && lineThenClose s'
  end.

(** [tokenValue.match(/^\{(.+)\}$/)] succeeds. *)
Definition isFigmaReference (tokenValue : string) : bool :=
  match tokenValue with
  | String c (String d ((String _ _) as rest)) =>
      Ascii.eqb c "{" && notLineTerminator d && lineThenClose rest
  | _ => false
  end.

(** [groupPath[groupPath.length - 1] || 'Other'] *)
Definition parentGroupOf (groupPath : list string) : string :=
  match last groupPath with
  | Some p => if truthy p then p else "Other"
  | None => "Other"
  end.

(** [if (!groups[parentGroup]) groups[parentGroup] = [];
     groups[parentGroup].push(c)] *)
Definition pushColor (parentGroup : string) (c : color)
           (groups : obj (list color)) : obj (list color) :=
  match get parentGroup groups with
  | Some colors => set parentGroup (colors ++ [c]) groups
  | None => set parentGroup [c] groups
  end.

(** The inner function [processGroup] of [extractSemanticColorGroups]. *)
Fixpoint processGroup (groupData : tree) (groupPath : list string)
         (groups : obj (list color)) {struct groupData} : obj (list color) :=
  match groupData with
  | Scalar => groups
  | Node _ children =>
      (fix entries (cs : list (string * tree)) (groups : obj (list color))
         : obj (list color) :=
         match cs with
         | [] => groups
         | (key, value) :: cs' =>
             entries cs'
               match value with
               | Node (Some tokenValue) _ =>
                   if isFigmaReference tokenValue then groups
                   else pushColor (parentGroupOf groupPath)
                          (mkColor key tokenValue
                                   (join "-" (groupPath ++ [key])))
                          groups
               | Node None _ => processGroup value (groupPath ++ [key]) groups
               | Scalar => groups
               end
         end) children groups
  end.

Fixpoint childOf (k : string) (children : list (string * tree))
  : option tree :=
  match children with
  | [] => None
  | (k', v) :: rest => if String.eqb k' k then Some v else childOf k rest
  end.

(** [colorsData[group]] *)
Definition field (colorsData : tree) (group : string) : option tree :=
  match colorsData with
  | Node _ children => childOf group children
  | Scalar => None
  end.

Definition extractSemanticColorGroups (colorsData : tree)
  : obj (list color) :=
  fold_left (fun groups group =>
               match field colorsData group with
               | Some groupData => processGroup groupData [group] groups
               | None => groups
               end)
            ["Text"; "System"] [].

(** *** Sorting by lightness *)

(** Twice the lightness [(max + min) / 2] of the comparator. *)
Definition lightnessTwice (c : rgb) : Z :=
  (Z.max (Z.max (r c) (g c)) (b c) + Z.min (Z.min (r c) (g c)) (b c))%Z.

(** Twice the value of the comparator of [sortByLightness], so of the same
    sign. *)
Definition compareLightness (a b : color) : Z :=
  match hexToRgb (value a), hexToRgb (value b) with
  | Some rgbA, Some rgbB => (lightnessTwice rgbB - lightnessTwice rgbA)%Z
  | _, _ => 0%Z
  end.

Fixpoint insertSorted (x : color) (sorted : list color) : list color :=
  match sorted with
  | [] => [x]
  | y :: ys =>
      if (0 <? compareLightness y x)%Z then x :: y :: ys
      else y :: insertSorted x ys
  end.

(** [colorGroup.sort(comparator)]: the sort is stable; it is modelled by a
    stable insertion sort, which returns what any stable sort returns when
    the comparator is consistent (all values parse). *)
Definition sortByLightness (colorGroup : list color) : list color :=
  fold_left (fun sorted x => insertSorted x sorted) colorGroup [].

(** *** Palette synthesis *)

(** What [console.log] prints. *)
Inductive event :=
| Mapping (fullPath value primitiveName : string)
| CreatingPalette (pureColorName groupName : string) (count : nat)
| PaletteEntry (primitiveName value colorName : string).

Record Extraction := mkExtraction {
  hardcodedPrimitives : obj string;
  mappings : gmap string string;     (* hex value -> primitive name *)
  printed : list event
}.

(** The threshold passed to [findClosestPrimitive]. *)
Definition threshold : Z := 30.

(** [colors.every(color => ...)]: stops at the first colour without a close
    primitive; the mappings written before that stay. *)
Fixpoint matchAll (primitiveTokens : obj string) (colors : list color)
         (mappings : gmap string string) (printed : list event)
  : bool * gmap string string * list event :=
  match colors with
  | [] => (true, mappings, printed)
  | color :: rest =>
      match findClosestPrimitive (value color) primitiveTokens threshold with
      | Some closest =>
          matchAll primitiveTokens rest
                   (<[value color := closest.1]> mappings)
                   (printed ++ [Mapping (fullPath color) (value color)
                                        closest.1])
      | None => (false, mappings, printed)
      end
  end.

(** [index.toString()] *)
Definition decimal (n : nat) : string :=
  NilEmpty.string_of_uint (Nat.to_uint n).

(** [s.padStart(2, '0')] *)
Definition padStart2 (s : string) : string :=
  match String.length s with
  | 0 => "00"
  | 1 => "0" +:+ s
  | _ => s
  end.

Definition scaleIndex (index : nat) : string := padStart2 (decimal index).

(** [sortedColors.forEach((color, index) => ...)] from [index] on. *)
Fixpoint writePalette (pureColorName : string) (index : nat)
         (sortedColors : list color) (st : Extraction) : Extraction :=
  match sortedColors with
  | [] => st
  | color :: rest =>
      let primitiveName := pureColorName +:+ "-" +:+ scaleIndex index in
      writePalette pureColorName (S index) rest
        (mkExtraction
           (set primitiveName (value color) (hardcodedPrimitives st))
           (<[value color := primitiveName]> (mappings st))
           (printed st ++ [PaletteEntry primitiveName (value color)
                                        (name color)]))
  end.

(** The body of the loop over the semantic groups. *)
Definition processColors (primitiveTokens : obj string) (st : Extraction)
           (entry : string * list color) : Extraction :=
  let '(groupName, colors) := entry in
  if (length colors =? 0)%nat then st
  else
    let '(allMatched, mappings', printed') :=
      matchAll primitiveTokens colors (mappings st) (printed st) in
    if allMatched
    then mkExtraction (hardcodedPrimitives st) mappings' printed'
    else
      let hexValues := map value colors in
      let pureColorName :=
        getPureColorName hexValues
          (assign (assign [] primitiveTokens) (hardcodedPrimitives st)) in
      let sortedColors := sortByLightness colors in
      writePalette pureColorName 0 sortedColors
        (mkExtraction (hardcodedPrimitives st) mappings'
           (printed' ++ [CreatingPalette pureColorName groupName
                                         (length colors)])).

Definition processGroups (primitiveTokens : obj string)
           (semanticGroups : obj (list color)) (st : Extraction)
  : Extraction :=
  fold_left (processColors primitiveTokens) semanticGroups st.

(** [extractHardcodedSemanticValues(colorsData, primitiveTokens)] returns
    [{ hardcodedPrimitives, mappings }]. *)
Definition extractHardcodedSemanticValues (colorsData : tree)
           (primitiveTokens : obj string) : Extraction :=
  processGroups primitiveTokens (extractSemanticColorGroups colorsData)
                (mkExtraction [] ∅ []).

(** The names of the primitives written by palette synthesis, in order. *)
Fixpoint synthesized (printed : list event) : list string :=
  match printed with
  | [] => []
  | PaletteEntry primitiveName _ _ :: rest => primitiveName :: synthesized rest
  | _ :: rest => synthesized rest
  end.

(** [transformColors]: [flatTokens = { ...flatTokens, ...hardcodedPrimitives }],
    the primitive colours that are emitted. *)
Definition mergedPrimitives (flatTokens : obj string) (e : Extraction)
  : obj string :=
  assign (assign [] flatTokens) (hardcodedPrimitives e).

(** *** States of the extraction *)

(** [n] is the name of the nearest primitive of [v], within the threshold. *)
Definition closestName (primitiveTokens : obj string) (v n : string)
  : Prop :=
  exists d, findClosestPrimitive v primitiveTokens threshold = Some (n, d).

(** Every mapping names the nearest primitive or a written palette entry. *)
Definition targeted (primitiveTokens : obj string) (st : Extraction)
  : Prop :=
  forall v n, mappings st !! v = Some n ->
              closestName primitiveTokens v n \/ is_Some (get n (hardcodedPrimitives st)).

(** Every written palette entry was printed. *)
Definition keysLogged (st : Extraction) : Prop :=
  forall k, is_Some (get k (hardcodedPrimitives st)) ->
            In k (synthesized (printed st)).

(** Every mapping names the nearest primitive or a palette entry that holds
    the very value mapped. *)
Definition faithful (primitiveTokens : obj string) (st : Extraction)
  : Prop :=
  forall v n, mappings st !! v = Some n ->
              closestName primitiveTokens v n \/ get n (hardcodedPrimitives st) = Some v.

(** *** The claims as stated *)

(** The claim as stated: a colour with a primitive within the threshold is
    mapped onto it and gets no palette entry, whatever the rest of its
    group. *)
Definition closeColourAlwaysKept : Prop :=
  forall colorsData primitiveTokens g colors c n d,
    In (g, colors) (extractSemanticColorGroups colorsData) ->
    In c colors ->
    findClosestPrimitive (value c) primitiveTokens threshold = Some (n, d) ->
    let e := extractHardcodedSemanticValues colorsData primitiveTokens in
    mappings e !! value c = Some n
    /\ forall k x, In (k, x) (hardcodedPrimitives e) -> x <> value c.

(** The claim as stated: every hardcoded colour maps to a primitive entry,
    existing or synthesised, whose stored value equals the colour's. *)
Definition mappedToEqualValue : Prop :=
  forall colorsData primitiveTokens g colors c,
    In (g, colors) (extractSemanticColorGroups colorsData) ->
    In c colors ->
    let e := extractHardcodedSemanticValues colorsData primitiveTokens in
    exists primitiveName,
      mappings e !! value c = Some primitiveName
      /\ get primitiveName (mergedPrimitives primitiveTokens e)
         = Some (value c).

End Color.

(** ** Emitter of the universal parser *)

Module Emitter.
Import JsString Json Token.

(** The value of a token: a parsed JSON value, or [None] for [undefined]. *)
Abbreviation Value := (option json).

Definition newline : string := String (ascii_of_N 10) EmptyString.

(** The text a value takes in a template literal of the style sheet:
    strings and numbers as they are, objects through [JSON.stringify]. *)
Definition cssValueOf (v : Value) : string :=
  match v with
  | Some (JStr s) => s
  | Some (JNum z) => decimal z
  | Some (JBool true) => "true"
  | Some (JBool false) => "false"
  | Some j => stringify j
  | None => "undefined"
  end.

Definition cssVarName (prefix : string) (tokenName : string) : string :=
  if truthy prefix then "--" +:+ prefix +:+ "-" +:+ tokenName
  else "--" +:+ tokenName.

(** One entry of the style sheet. *)
Definition cssLine (prefix : string) (token : StandardToken Value) : string :=
  "  " +:+ cssVarName prefix (name token) +:+ ": "
       +:+ cssValueOf (value token) +:+ ";" +:+ newline.

Definition cssHeader : string :=
  "/**" +:+ newline +:+ " * Auto-generated CSS Variables" +:+ newline
  +:+ " * DO NOT EDIT MANUALLY" +:+ newline +:+ " */" +:+ newline +:+ newline
  +:+ ":root {" +:+ newline.

(** [generateCSSVariables(tokens, prefix)] *)
Definition generateCSSVariables (tokens : list (StandardToken Value))
           (prefix : string) : string :=
  cssHeader +:+ String.concat EmptyString (map (cssLine prefix) tokens)
            +:+ "}" +:+ newline.

Definition tsValueOf (v : Value) : string :=
  match v with
  | Some (JStr s) => "'" +:+ s +:+ "'"
  | _ => cssValueOf v
  end.

Definition tsLine (token : StandardToken Value) : string :=
  "  '" +:+ name token +:+ "': " +:+ tsValueOf (value token) +:+ ","
        +:+ newline.

Definition tsHeader : string :=
  "/**" +:+ newline +:+ " * Auto-generated TypeScript tokens" +:+ newline
  +:+ " * DO NOT EDIT MANUALLY" +:+ newline +:+ " */" +:+ newline +:+ newline.

(** [generateTypeScript(tokens, exportName)] *)
Definition generateTypeScript (tokens : list (StandardToken Value))
           (exportName : string) : string :=
  tsHeader +:+ "export const " +:+ exportName +:+ " = {" +:+ newline
  +:+ String.concat EmptyString (map tsLine tokens)
  +:+ "} as const;" +:+ newline.

(** The group a token is emitted under. *)
Definition groupOf (token : StandardToken Value) : string :=
  if String.eqb (type token) "color" then "colors"
  else if String.eqb (type token) "dimension" then
    let name := toLowerCase (name token) in
    if includes name "spacing" || includes name "gap" || includes name "scale"
    then "spacing"
    else if includes name "radius" then "radius"
    else if includes name "font" then "typography"
    else "spacing"
  else if String.eqb (type token) "shadow" then "shadows"
  else "other".

(** [groupTokensByType(tokens)]: the six groups, in the order of the object
    literal. *)
Definition groupTokensByType (tokens : list (StandardToken Value))
  : list (string * list (StandardToken Value)) :=
  map (fun g => (g, filter (fun t => String.eqb (groupOf t) g) tokens))
      ["colors"; "spacing"; "typography"; "radius"; "shadows"; "other"].

Definition upperChar (c : ascii) : ascii :=
  if isLower c then ascii_of_N (code c - 32) else c.

(** [capitalize(str)] *)
Definition capitalize (str : string) : string :=
  match str with
  | String c rest => String (upperChar c) rest
  | EmptyString => EmptyString
  end.

(** [path.join(...)] on plain segments. *)
Definition pathJoin (segments : list string) : string := join "/" segments.

(** The two files written for one group of one tier; nothing for an empty
    group. *)
Definition writeGroup (outputDir tierDir tierName cssPrefix suffix tsSuffix
                       : string)
           (entry : string * list (StandardToken Value))
  : list (string * string) :=
  let '(type, tokens) := entry in
  match tokens with
  | [] => []
  | _ =>
      let dir := pathJoin [outputDir; tierDir; type] in
      [(pathJoin [dir; type +:+ suffix +:+ ".css"],
        generateCSSVariables tokens cssPrefix);
       (pathJoin [dir; type +:+ suffix +:+ ".ts"],
        generateTypeScript tokens (tierName +:+ capitalize type +:+ tsSuffix))]
  end.

Definition isLegacyToken (t : StandardToken Value) : bool :=
  isLegacy (metadata t).

(** [transformAndOutput(tokens, outputDir)]: the files written, as pairs of a
    path and a content, in order. *)
Definition transformAndOutput (config : Config)
           (tokens : list (StandardToken Value)) (outputDir : string)
  : list (string * string) :=
  let activeTokens := filter (fun t => negb (isLegacyToken t)) tokens in
  let legacyTokens := filter isLegacyToken tokens in
  let '(primitives, semantics) := Classifier.classifyTokens activeTokens in
  let '(legacyPrimitives, legacySemantics) :=
    Classifier.classifyTokens legacyTokens in
  flat_map (writeGroup outputDir "primitive-tokens" "primitive"
                       (cssPrefixPrimitive config) "" "")
           (groupTokensByType primitives)
  ++ flat_map (writeGroup outputDir "semantic-tokens" "semantic"
                          (cssPrefixSemantic config) "" "")
              (groupTokensByType semantics)
  ++ match legacyTokens with
     | [] => []
     | _ =>
         flat_map (writeGroup outputDir "primitive-tokens" "primitive"
                              (cssPrefixPrimitive config) ".legacy" "Legacy")
                  (groupTokensByType legacyPrimitives)
         ++ flat_map (writeGroup outputDir "semantic-tokens" "semantic"
                                 (cssPrefixSemantic config) ".legacy" "Legacy")
                     (groupTokensByType legacySemantics)
     end.

(** The claim as stated, for this emitter: the entry written for a semantic
    token has the form [var(--<primitive-prefix>-...)]. *)
Definition semanticEntriesAreReferences : Prop :=
  forall config (tokens : list (StandardToken Value)) t,
    In t (Classifier.classifyTokens
            (filter (fun t => negb (isLegacyToken t)) tokens)).2 ->
    exists ref,
      cssLine (cssPrefixSemantic config) t
      = "  " +:+ cssVarName (cssPrefixSemantic config) (name t) +:+ ": "
             +:+ ("var(" +:+ cssVarName (cssPrefixPrimitive config) ref
                         +:+ ")")
             +:+ ";" +:+ newline.

End Emitter.

(** ** Semantic colour emission (Figma transformer) *)

Module SemanticColors.
Import JsString JsObject Names Color.

(** A computation that may end in a [TypeError]. *)
Inductive outcome (A : Type) :=
| Returns (a : A)
| Throws.

Arguments Returns {A}.
Arguments Throws {A}.

(** [buildCSSVar(tier, tokenName)] for the two tiers used. *)
Definition buildCSSVar (prefix tokenName : string) : string :=
  if truthy prefix then "--" +:+ prefix +:+ "-" +:+ tokenName
  else "--" +:+ tokenName.

(** [.replace(/([A-Z])/g, '-$1')] *)
Fixpoint dashBeforeUpper (s : string) : string :=
  match s with
  | EmptyString => EmptyString
  | String c s' =>
      if isUpper c then String "-" (String c (dashBeforeUpper s'))
      else String c (dashBeforeUpper s')
  end.

(** [.replace(/(\d+)/g, '-$1')]: a hyphen before every run of digits. *)
Fixpoint dashBeforeDigits (afterDigit : bool) (s : string) : string :=
  match s with
  | EmptyString => EmptyString
  | String c s' =>
      if isDigit c then
        if afterDigit then String c (dashBeforeDigits true s')
        else String "-" (String c (dashBeforeDigits true s'))
      else String c (dashBeforeDigits false s')
  end.

(** [.replace(/--+/g, '-')] *)
Fixpoint collapseHyphens (s : string) : string :=
  match s with
  | String c1 ((String c2 _) as tl) =>
      if Ascii.eqb c1 "-" && Ascii.eqb c2 "-" then collapseHyphens tl
      else String c1 (collapseHyphens tl)
  | _ => s
  end.

Fixpoint dropChars (n : nat) (s : string) : string :=
  match n, s with
  | S n', String _ s' => dropChars n' s'
  | _, _ => s
  end.

Fixpoint takeChars (n : nat) (s : string) : string :=
  match n, s with
  | S n', String c s' => String c (takeChars n' s')
  | _, _ => EmptyString
  end.

(** [.replace(/grey/i, 'grey')]: the first occurrence, in any case. *)
Fixpoint replaceGrey (s : string) : string :=
  match s with
  | EmptyString => EmptyString
  | String c s' =>
      if String.eqb (toLowerCase (takeChars 4 s)) "grey"
      then "grey" +:+ dropChars 4 s
      else String c (replaceGrey s')
  end.

Fixpoint dropLast (s : string) : string :=
  match s with
  | EmptyString => EmptyString
  | String _ EmptyString => EmptyString
  | String c s' => String c (dropLast s')
  end.

(** The text between the braces of a reference. *)
Definition insideBraces (ref : string) : string := dropLast (dropChars 1 ref).

(** [primitiveTokens[candidate]] is truthy. *)
Definition definedIn (primitiveTokens : obj string) (candidate : string)
  : bool :=
  truthyOpt (get candidate primitiveTokens).

(** [figmaRefToPrimitiveName(ref, primitiveTokens)]: the name found, [null],
    or a [TypeError] when the reference has no dot. *)
Definition figmaRefToPrimitiveName (ref : string)
           (primitiveTokens : obj string) : outcome (option string) :=
  if negb (isFigmaReference ref) then Returns None
  else
    match split "." (insideBraces ref) with
    | group :: token :: _ =>
        let candidates :=
          [collapseHyphens
             (toLowerCase group +:+ "-"
              +:+ toLowerCase (dashBeforeDigits false (dashBeforeUpper token)));
           toLowerCase (hyphenateDigit token);
           toLowerCase (hyphenateDigit (replaceGrey token))] in
        Returns (find (definedIn primitiveTokens) candidates)
    | _ => Throws
    end.

(** The reverse look-up of [transformSemanticColors]: the mappings first,
    then the existing primitives for the values not mapped yet. *)
Definition valueToPrimitive (primitiveTokens : obj string)
           (mappings : gmap string string) : gmap string string :=
  fold_left (fun m entry =>
               if truthyOpt (m !! entry.2) then m
               else <[entry.2 := entry.1]> m)
            primitiveTokens mappings.

Section WithConfig.
Variable config : Config.
Variable primitiveTokens : obj string.
Variable lookup : gmap string string.     (* [valueToPrimitive] *)

(** The body of the loop of [processSemanticGroup] for one entry of the
    group; [recur] is [processSemanticGroup] itself.  The warnings printed
    are not kept. *)
Definition processEntry (recur : tree -> string -> outcome (obj string))
           (prefix : string) (result : obj string) (entry : string * tree)
  : outcome (obj string) :=
  let '(key, value) := entry in
  let currentPath := if truthy prefix then prefix +:+ "-" +:+ key else key in
  let cleanedKey := reorderSemanticToken config (cleanTokenName key) in
  match value with
  | Node (Some tokenValue) _ =>
      if isFigmaReference tokenValue then
        match figmaRefToPrimitiveName tokenValue primitiveTokens with
        | Returns (Some primitiveName) =>
            if truthy primitiveName
            then Returns (set cleanedKey primitiveName result)
            else Returns result
        | Returns None => Returns result
        | Throws => Throws
        end
      else
        match lookup !! tokenValue with
        | Some primitiveName =>
            if truthy primitiveName
            then Returns (set cleanedKey primitiveName result)
            else Returns result
        | None => Returns result
        end
  | Node None _ =>
      match recur value currentPath with
      | Returns nested => Returns (assign result nested)
      | Throws => Throws
      end
  | Scalar => Returns result
  end.

Fixpoint processEntries (recur : tree -> string -> outcome (obj string))
         (prefix : string) (entries : list (string * tree))
         (result : obj string) : outcome (obj string) :=
  match entries with
  | [] => Returns result
  | entry :: rest =>
      match processEntry recur prefix result entry with
      | Returns result' => processEntries recur prefix rest result'
      | Throws => Throws
      end
  end.

(** The inner function [processSemanticGroup]. *)
Fixpoint processSemanticGroup (groupData : tree) (prefix : string)
         {struct groupData} : outcome (obj string) :=
  match groupData with
  | Scalar => Returns []
  | Node _ children =>
      processEntries processSemanticGroup prefix children []
  end.

(** The loop over [SEMANTIC_GROUPS]. *)
Fixpoint processSemanticGroups (colorsData : tree) (groups : list string)
         (semanticGroups : obj (obj string)) : outcome (obj (obj string)) :=
  match groups with
  | [] => Returns semanticGroups
  | group :: rest =>
      match field colorsData group with
      | Some groupData =>
          match processSemanticGroup groupData EmptyString with
          | Returns tokens =>
              processSemanticGroups colorsData rest
                                    (set group tokens semanticGroups)
          | Throws => Throws
          end
      | None => processSemanticGroups colorsData rest semanticGroups
      end
  end.

Definition newline : string := String (ascii_of_N 10) EmptyString.

(** One entry of the semantic style sheet. *)
Definition semanticLine (entry : string * string) : string :=
  "  " +:+ buildCSSVar (cssPrefixSemantic config) entry.1 +:+ ": var("
       +:+ buildCSSVar (cssPrefixPrimitive config) entry.2 +:+ ");"
       +:+ newline.

Definition semanticBlock (group : string * obj string) : string :=
  "  /* " +:+ group.1 +:+ " Colors */" +:+ newline
  +:+ String.concat EmptyString (map semanticLine group.2) +:+ newline.

Definition semanticCssHeader : string :=
  "/**" +:+ newline
  +:+ " * Semantic Color Tokens - Auto-generated from Figma" +:+ newline
  +:+ " * Source: imported-from-figma/Colors.json" +:+ newline
  +:+ " * DO NOT EDIT MANUALLY - Run 'npm run tokens:transform' to regenerate"
  +:+ newline +:+ " */" +:+ newline +:+ newline +:+ ":root {" +:+ newline.

Definition semanticCss (semanticGroups : obj (obj string)) : string :=
  semanticCssHeader
  +:+ String.concat EmptyString (map semanticBlock semanticGroups)
  +:+ "}" +:+ newline.

End WithConfig.

(** [transformSemanticColors(colorsData, primitiveTokens, mappings)]: the
    semantic groups returned and the style sheet written (the TypeScript
    file is not modelled). *)
Definition transformSemanticColors (config : Config) (colorsData : tree)
           (primitiveTokens : obj string) (mappings : gmap string string)
  : outcome (obj (obj string) * string) :=
  match processSemanticGroups config primitiveTokens
          (valueToPrimitive primitiveTokens mappings) colorsData
          ["Primary"; "Text"; "Brand"; "System"] [] with
  | Returns semanticGroups =>
      Returns (semanticGroups, semanticCss config semanticGroups)
  | Throws => Throws
  end.

(** The text [var(<primitive custom property of ref>)]. *)
Definition referenceTo (config : Config) (ref : string) : string :=
  "var(" +:+ buildCSSVar (cssPrefixPrimitive config) ref +:+ ")".

(** [ref] is a name found for a semantic token: it is not empty, and it is
    either the name of a primitive with a value (a Figma reference was
    resolved) or what the reverse look-up holds for some value (a hardcoded
    value was found). *)
Definition namesPrimitive (primitiveTokens : obj string)
           (lookup : gmap string string) (ref : string) : Prop :=
  truthy ref = true
  /\ (definedIn primitiveTokens ref = true
      \/ exists v, lookup !! v = Some ref).

(** Every name held by [result] names a primitive. *)
Definition allNamed (primitiveTokens : obj string)
           (lookup : gmap string string) (result : obj string) : Prop :=
  forall k ref, In (k, ref) result -> namesPrimitive primitiveTokens lookup ref.

End SemanticColors.

(** ** Invariants of the colour functions *)

Module ColorInvariants.
Import JsString JsObject Color.

(** The text of [hex] after the optional leading [#]. *)
Definition hexDigits (hex : string) : string :=
  match hex with
  | String c rest => if Ascii.eqb c "#" then rest else hex
  | EmptyString => hex
  end.

(** [acc] is the state of the loop of [findClosestPrimitive] after the
    entries [seen]: nothing yet when no value parsed, otherwise the first
    entry at the least distance. *)
Definition firstNearest (hexValue : string) (seen : obj string)
           (acc : option string * option Z) : Prop :=
  match acc with
  | (None, None) =>
      forall n v, In (n, v) seen -> colorDistanceSq hexValue v = None
  | (Some n, Some d) =>
      exists pre v post,
        seen = pre ++ (n, v) :: post
        /\ colorDistanceSq hexValue v = Some d
        /\ (forall n' v' d', In (n', v') pre ->
                             colorDistanceSq hexValue v' = Some d' -> (d < d')%Z)
        /\ (forall n' v' d', In (n', v') post ->
                             colorDistanceSq hexValue v' = Some d' -> (d <= d')%Z)
  | _ => False
  end.

(** [a] may stay before [b]: the comparator of [sortByLightness] is not
    positive on the pair. *)
Definition notDarker (a b : color) : Prop := (compareLightness a b <= 0)%Z.

(** The value of a colour parses. *)
Definition parses (c : color) : Prop := is_Some (hexToRgb (value c)).

End ColorInvariants.

(** ** Invariants of the universal parser *)

Module ParserInvariants.
Import JsString Token Resolver Classifier.

(** [s] holds the character [c]. *)
Fixpoint hasChar (c : ascii) (s : string) : bool :=
  match s with
  | EmptyString => false
  | String c' s' => Ascii.eqb c' c || hasChar c s'
  end.

(** The side on which the universal [classifyTokens] files a token: a
    token without a reference whose name has a primitive pattern, or no
    semantic pattern either. *)
Definition filedPrimitive {V} (t : StandardToken V) : bool :=
  negb (hasReference t)
  && (isPrimitivePattern (name t) || negb (isSemanticPattern (name t))).

(** [dangles tokens r n missing]: starting at the target name [r], the chain
    arrives within [n] look-ups at the name [missing], which no token has. *)
Inductive dangles {V} (tokens : list (StandardToken V))
  : string -> nat -> string -> Prop :=
| dangles_here r n :
    truthy r = true ->
    lookupToken tokens r = None ->
    dangles tokens r (S n) r
| dangles_next r t r' n missing :
    truthy r = true ->
    lookupToken tokens r = Some t ->
    references t = Some r' -> truthy r' = true ->
    dangles tokens r' n missing ->
    dangles tokens r (S n) missing.

(** The names of the groups of [groupTokensByType], in the order of the
    object literal. *)
Definition groupNames : list string :=
  ["colors"; "spacing"; "typography"; "radius"; "shadows"; "other"].

End ParserInvariants.

(** ** Invariants of the Figma transformer *)

Module FigmaInvariants.
Import JsString JsObject Color SemanticColors.

(** The name of the entry of rank [index] of the palette [pureColorName]. *)
Definition paletteName (pureColorName : string) (index : nat) : string :=
  pureColorName +:+ "-" +:+ scaleIndex index.

(** [hasToken tokenValue groupData]: the group holds, at some depth, a token
    whose [$value] is [tokenValue]; groups are entered, tokens are not. *)
Inductive hasToken (tokenValue : string) : tree -> Prop :=
| hasToken_here d children key below :
    In (key, Node (Some tokenValue) below) children ->
    hasToken tokenValue (Node d children)
| hasToken_nested d children key nested :
    In (key, Node None nested) children ->
    hasToken tokenValue (Node None nested) ->
    hasToken tokenValue (Node d children).

(** No colour collected is a reference, and no group is empty. *)
Definition hardcodedOnly (groups : obj (list color)) : Prop :=
  forall g colors,
    In (g, colors) groups ->
    colors <> []
    /\ forall c, In c colors -> isFigmaReference (value c) = false.

(** The groups read by [transformSemanticColors]. *)
Definition semanticGroupNames : list string :=
  ["Primary"; "Text"; "Brand"; "System"].

End FigmaInvariants.

(** ** The W3C flattener of the universal parser ([W3CParser.flattenTokens]) *)

Module W3CFlatten.
Import JsString Json Token.

(** A W3C document, as far as the flattener reads it.  [Leaf] is a value
    that is not an object.  [Group] is an object: its [$type] and
    [$description], strings when present, its [$value], and [children], its
    other entries in enumeration order (an array has its indices as keys and
    none of the three fields). *)
#[local] Unset Elimination Schemes.
Inductive doc :=
| Leaf
| Group (dollarType : option string) (dollarValue : option json)
        (dollarDescription : option string)
        (children : list (string * doc)).
#[local] Set Elimination Schemes.

(** [\s], on ASCII. *)
Definition isSpace (c : ascii) : bool :=
  ((9 <=? code c) && (code c <=? 13))%N || (code c =? 32)%N.

(** [.replace(/\([^)]*\)/g, '')].  A match starts at an opening parenthesis
    and ends at the next closing one; [pending] holds, in reverse, the text
    read since an opening parenthesis that has not been closed yet, which is
    kept when the string ends first. *)
Fixpoint removeParensFrom (pending : option string) (s : string) : string :=
  match s with
  | EmptyString =>
      match pending with
      | Some held => String.rev held
      | None => EmptyString
      end
  | String c s' =>
      match pending with
      | None =>
          if Ascii.eqb c "(" then removeParensFrom (Some "(") s'
          else String c (removeParensFrom None s')
      | Some held =>
          if Ascii.eqb c ")" then removeParensFrom None s'
          else removeParensFrom (Some (String c held)) s'
      end
  end.

Definition removeParens (s : string) : string := removeParensFrom None s.

(** [.match(/\(([^)]+)\)/g)] followed by [match.slice(1, -1).toLowerCase()]
    on every match: the texts between parentheses that are not empty. *)
Fixpoint notesFrom (pending : option string) (s : string) : list string :=
  match s with
  | EmptyString => []
  | String c s' =>
      match pending with
      | None =>
          if Ascii.eqb c "(" then notesFrom (Some EmptyString) s'
          else notesFrom None s'
      | Some held =>
          if Ascii.eqb c ")" then
            match held with
            | EmptyString => notesFrom None s'
            | _ => toLowerCase (String.rev held) :: notesFrom None s'
            end
          else notesFrom (Some (String c held)) s'
      end
  end.

Definition parenthesesContent (s : string) : list string := notesFrom None s.

(** [.replace(/_/g, '-')] *)
Fixpoint underscoresToDashes (s : string) : string :=
  match s with
  | EmptyString => EmptyString
  | String c s' =>
      String (if Ascii.eqb c "_" then "-"%char else c) (underscoresToDashes s')
  end.

(** [.replace(/\./g, '-')] *)
Fixpoint dotsToDashes (s : string) : string :=
  match s with
  | EmptyString => EmptyString
  | String c s' =>
      String (if Ascii.eqb c "." then "-"%char else c) (dotsToDashes s')
  end.

(** [.replace(/\s+/g, '-')]: one hyphen for every run of white space. *)
Fixpoint spacesToDash (afterSpace : bool) (s : string) : string :=
  match s with
  | EmptyString => EmptyString
  | String c s' =>
      if isSpace c then
        if afterSpace then spacesToDash true s'
        else String "-" (spacesToDash true s')
      else String c (spacesToDash false s')
  end.

(** A character kept by [.replace(/[^a-z0-9-]/gi, '')]. *)
Definition isIdentifierChar (c : ascii) : bool :=
  isLower c || isUpper c || isDigit c || Ascii.eqb c "-".

Fixpoint removeInvalid (s : string) : string :=
  match s with
  | EmptyString => EmptyString
  | String c s' =>
      if isIdentifierChar c then String c (removeInvalid s')
      else removeInvalid s'
  end.

(** [.replace(/-+/g, '-')] *)
Fixpoint collapseDashes (afterDash : bool) (s : string) : string :=
  match s with
  | EmptyString => EmptyString
  | String c s' =>
      if Ascii.eqb c "-" then
        if afterDash then collapseDashes true s'
        else String "-" (collapseDashes true s')
      else String c (collapseDashes false s')
  end.

Definition dropLeadingDash (s : string) : string :=
  match s with
  | String c s' => if Ascii.eqb c "-" then s' else s
  | EmptyString => s
  end.

Fixpoint dropTrailingDash (s : string) : string :=
  match s with
  | EmptyString => EmptyString
  | String c EmptyString => if Ascii.eqb c "-" then EmptyString else s
  | String c s' => String c (dropTrailingDash s')
  end.

(** [.replace(/^-|-$/g, '')]: one hyphen at the start and one at the end. *)
Definition trimDashes (s : string) : string :=
  dropTrailingDash (dropLeadingDash s).

(** The last four steps shared by names and references. *)
Definition finish (s : string) : string :=
  toLowerCase (trimDashes (collapseDashes false (removeInvalid s))).

(** The token name made from [currentPath]. *)
Definition tokenNameOf (currentPath : list string) : string :=
  finish (spacesToDash false
            (underscoresToDashes (removeParens (join "-" currentPath)))).

(** [value.slice(1, -1)] *)
Fixpoint dropLast (s : string) : string :=
  match s with
  | EmptyString => EmptyString
  | String _ EmptyString => EmptyString
  | String c s' => String c (dropLast s')
  end.

Definition slice1 (s : string) : string :=
  match s with
  | String _ s' => dropLast s'
  | EmptyString => EmptyString
  end.

(** The name a reference text is turned into. *)
Definition referenceOf (dollarValue : string) : string :=
  finish (spacesToDash false
            (removeParens
               (underscoresToDashes (dotsToDashes (slice1 dollarValue))))).

(** [/^\{[^}]+\}$/.test(s)] *)
Definition isReference (s : string) : bool := Detect.isReference s.

Definition isLegacyNote (content : string) : bool :=
  includes content "legacy" || includes content "deprecated"
  || includes content "old".

Abbreviation Value := (option json).

(** The token pushed for the object found at [currentPath]. *)
Definition makeToken (currentPath : list string) (dollarType : option string)
           (dollarValue : Value) (dollarDescription : option string)
  : StandardToken Value :=
  let notes := parenthesesContent (join "-" currentPath) in
  {| name := tokenNameOf currentPath;
     value := dollarValue;
     type := match dollarType with
             | Some t => if truthy t then t else "unknown"
             | None => "unknown"
             end;
     rawValue := dollarValue;
     references := match dollarValue with
                   | Some (JStr s) =>
                       if isReference s then Some (referenceOf s) else None
                   | _ => None
                   end;
     metadata := {| description := dollarDescription;
                    originalPath := join "." currentPath;
                    designerNotes := match notes with
                                     | [] => None
                                     | _ => Some notes
                                     end;
                    isLegacy := existsb isLegacyNote notes |};
     category := None;
     group := None |}.

(** The body of the loop of [flattenTokens] for one entry; [recur] is
    [flattenTokens] itself, and the result is what the entry pushes. *)
Definition flattenEntry (recur : doc -> list string -> list (StandardToken Value))
           (path : list string) (entry : string * doc)
  : list (StandardToken Value) :=
  let '(key, value) := entry in
  if startsWith key "$" then []
  else
    let currentPath := path ++ [key] in
    match value with
    | Leaf => []
    | Group dollarType dollarValue dollarDescription _ =>
        match dollarValue, dollarType with
        | None, None => recur value currentPath
        | _, _ =>
            [makeToken currentPath dollarType dollarValue dollarDescription]
        end
    end.

(** [flattenTokens(obj, path, result)]: the tokens pushed onto [result], in
    order. *)
Fixpoint flattenTokens (obj : doc) (path : list string)
         {struct obj} : list (StandardToken Value) :=
  match obj with
  | Leaf => []
  | Group _ _ _ children => flat_map (flattenEntry flattenTokens path) children
  end.

(** [W3CParser.parse(data)]: the tokens after one resolution pass, and the
    warnings printed. *)
Definition parse (data : doc)
  : list (StandardToken Value) * list Resolver.warning :=
  Resolver.resolveReferences (flattenTokens data []).

(** *** Well-formed names *)

Fixpoint allChars (p : ascii -> bool) (s : string) : bool :=
  match s with
  | EmptyString => true
  | String c s' => p c && allChars p s'
  end.

(** A character of a finished name: a lower-case letter, a digit or a
    hyphen. *)
Definition isNameChar (c : ascii) : bool :=
  isLower c || isDigit c || Ascii.eqb c "-".

Fixpoint noDoubleDash (s : string) : bool :=
  match s with
  | String c1 ((String c2 _) as tl) =>
      negb (Ascii.eqb c1 "-" && Ascii.eqb c2 "-") && noDoubleDash tl
  | _ => true
  end.

Definition startsWithDash (s : string) : bool :=
  match s with
  | String c _ => Ascii.eqb c "-"
  | EmptyString => false
  end.

Fixpoint endsWithDash (s : string) : bool :=
  match s with
  | EmptyString => false
  | String c EmptyString => Ascii.eqb c "-"
  | String _ s' => endsWithDash s'
  end.

(** Lower-case letters, digits and single hyphens, with no hyphen at either
    end; the empty string is one. *)
Definition kebabName (s : string) : bool :=
  allChars isNameChar s && noDoubleDash s
  && negb (startsWithDash s) && negb (endsWithDash s).

End W3CFlatten.

(** ** Deduplication ([parseTokenFiles], third pass) *)

Module Dedupe.
Import JsString JsObject Token.

Section WithValue.
Context {V : Type}.

(** A [Map] keyed by token name: its entries in insertion order. *)
Abbreviation TokenMap := (list (string * StandardToken V)).

(** [tokenMap.set(k, v)]: a key already there keeps its place. *)
Definition mapSet (k : string) (v : StandardToken V) (m : TokenMap)
  : TokenMap :=
  if has k m then update k v m else m ++ [(k, v)].

(** The body of the loop over [allTokens]. *)
Definition dedupeStep (st : TokenMap * nat) (token : StandardToken V)
  : TokenMap * nat :=
  let '(tokenMap, duplicatesRemoved) := st in
  (mapSet (name token) token tokenMap,
   if has (name token) tokenMap then S duplicatesRemoved
   else duplicatesRemoved).

(** The deduplicated tokens, [Array.from(tokenMap.values())], and
    [duplicatesRemoved]. *)
Definition deduplicate (allTokens : list (StandardToken V))
  : list (StandardToken V) * nat :=
  let '(tokenMap, duplicatesRemoved) :=
    fold_left dedupeStep allTokens ([], 0) in
  (values tokenMap, duplicatesRemoved).

(** The last token of the array that bears the name [k]. *)
Fixpoint lastNamed (k : string) (tokens : list (StandardToken V))
  : option (StandardToken V) :=
  match tokens with
  | [] => None
  | t :: rest =>
      match lastNamed k rest with
      | Some t' => Some t'
      | None => if String.eqb (name t) k then Some t else None
      end
  end.

(** [m] is the map built from the tokens [seen], [n] the duplicates counted. *)
Definition built (seen : list (StandardToken V)) (m : TokenMap) (n : nat)
  : Prop :=
  NoDup (keys m)
  /\ (forall k, get k m = lastNamed k seen)
  /\ length m + n = length seen.

End WithValue.
End Dedupe.

(** ** The legacy W3C parser *)

Module LegacyParser.
Import JsString JsObject Json LegacyClassifier.

Abbreviation doc := W3CFlatten.doc.
Abbreviation LTok := (LegacyToken json).

(** The token stored for the object found at [currentPath]:
    [{ type: value.$type || 'unknown', value: value.$value,
       path: currentPath, description: value.$description || '' }]. *)
Definition makeToken (currentPath : list string) (dollarType : option string)
           (dollarValue : json) (dollarDescription : option string) : LTok :=
  {| type := match dollarType with
             | Some t => if truthy t then t else "unknown"
             | None => "unknown"
             end;
     value := dollarValue;
     path := currentPath;
     description := default EmptyString dollarDescription;
     references := None |}.

(** The body of the loop of [flattenTokens] for one entry; [recur] is
    [flattenTokens] itself. *)
Definition flattenEntry (recur : doc -> list string -> obj LTok -> obj LTok)
           (path : list string) (result : obj LTok) (entry : string * doc)
  : obj LTok :=
  let '(key, value) := entry in
  if startsWith key "$" then result
  else
    let currentPath := path ++ [key] in
    match value with
    | W3CFlatten.Leaf => result
    | W3CFlatten.Group dollarType (Some dollarValue) dollarDescription _ =>
        set (join "." currentPath)
            (makeToken currentPath dollarType dollarValue dollarDescription)
            result
    | W3CFlatten.Group _ None _ _ => recur value currentPath result
    end.

(** [flattenTokens(obj, path, result)] *)
Fixpoint flattenTokens (data : doc) (path : list string) (result : obj LTok)
         {struct data} : obj LTok :=
  match data with
  | W3CFlatten.Leaf => result
  | W3CFlatten.Group _ _ _ children =>
      fold_left (flattenEntry flattenTokens path) children result
  end.

Inductive warning :=
| ReferenceNotFound (referenceName tokenName : string).

(** [token.value = v; token.references = referenceName] *)
Definition setResolved (v : json) (referenceName : string) (token : LTok)
  : LTok :=
  {| type := type token; value := v; path := path token;
     description := description token; references := Some referenceName |}.

(** The state of a pass: the token objects, [hasUnresolved], and the
    warnings printed so far. *)
Abbreviation PassState := (obj LTok * bool * list warning)%type.

(** The body of the inner loop for the entry [tokenName]; the token object
    is read in its current state. *)
Definition resolveEntry (st : PassState) (tokenName : string) : PassState :=
  let '(resolved, hasUnresolved, warnings) := st in
  match get tokenName resolved with
  | None => st
  | Some token =>
      match value token with
      | JStr s =>
          if Detect.isReference s then
            let referenceName := W3CFlatten.slice1 s in
            match get referenceName resolved with
            | Some target =>
                (update tokenName
                        (setResolved (value target) referenceName token)
                        resolved,
                 true, warnings)
            | None =>
                (resolved, hasUnresolved,
                 warnings ++ [ReferenceNotFound referenceName tokenName])
            end
          else st
      | _ => st
      end
  end.

(** One round of the outer loop. *)
Definition pass (resolved : obj LTok) (warnings : list warning) : PassState :=
  fold_left resolveEntry (keys resolved) (resolved, false, warnings).

(** The outer loop; [fuel] is [maxDepth - depth]. *)
Fixpoint passes (fuel : nat) (resolved : obj LTok) (warnings : list warning)
  : obj LTok * list warning :=
  match fuel with
  | 0 => (resolved, warnings)
  | S fuel' =>
      let '(resolved', hasUnresolved, warnings') := pass resolved warnings in
      if hasUnresolved then passes fuel' resolved' warnings'
      else (resolved', warnings')
  end.

(** [resolveReferences(tokens)] with the default [maxDepth]: the object
    returned and the warnings printed. *)
Definition resolveReferences (tokens : obj LTok) : obj LTok * list warning :=
  passes 10 tokens [].

(** [groupByCategory(tokens)] *)
Record Groups := mkGroups {
  colors : obj LTok;
  dimensions : obj LTok;
  fontFamilies : obj LTok;
  fontWeights : obj LTok;
  durations : obj LTok;
  other : obj LTok
}.

Definition groupStep (groups : Groups) (entry : string * LTok) : Groups :=
  let '(tokenName, token) := entry in
  let '(mkGroups c d ff fw du o) := groups in
  if String.eqb (type token) "color" then
    mkGroups (set tokenName token c) d ff fw du o
  else if String.eqb (type token) "dimension" then
    mkGroups c (set tokenName token d) ff fw du o
  else if String.eqb (type token) "fontFamily" then
    mkGroups c d (set tokenName token ff) fw du o
  else if String.eqb (type token) "fontWeight" then
    mkGroups c d ff (set tokenName token fw) du o
  else if String.eqb (type token) "duration" then
    mkGroups c d ff fw (set tokenName token du) o
  else mkGroups c d ff fw du (set tokenName token o).

Definition groupByCategory (tokens : obj LTok) : Groups :=
  fold_left groupStep tokens (mkGroups [] [] [] [] [] []).

(** [generateStats(tokens)] *)
Record ByType := mkByType {
  colorCount : nat;
  dimensionCount : nat;
  fontFamilyCount : nat;
  fontWeightCount : nat;
  durationCount : nat;
  otherCount : nat
}.

Record Stats := mkStats {
  total : nat;
  primitives : nat;
  semantics : nat;
  byType : ByType
}.

Definition generateStats (tokens : obj LTok) : Stats :=
  let '(primitives, semantics) := classifyTokens tokens in
  let grouped := groupByCategory tokens in
  {| total := length (keys tokens);
     primitives := length (keys primitives);
     semantics := length (keys semantics);
     byType := {| colorCount := length (keys (colors grouped));
                  dimensionCount := length (keys (dimensions grouped));
                  fontFamilyCount := length (keys (fontFamilies grouped));
                  fontWeightCount := length (keys (fontWeights grouped));
                  durationCount := length (keys (durations grouped));
                  otherCount := length (keys (other grouped)) |} |}.

(** [toCSSVariableName(tokenName, prefix)] *)
Definition toCSSVariableName (tokenName prefix : string) : string :=
  let kebab :=
    W3CFlatten.underscoresToDashes
      (toLowerCase
         (Names.hyphenateCamel (W3CFlatten.dotsToDashes tokenName))) in
  if truthy prefix then prefix +:+ "-" +:+ kebab else kebab.

(** [part.charAt(0).toLowerCase() + part.slice(1)] *)
Definition lowerFirst (part : string) : string :=
  match part with
  | String c rest => String (lowerChar c) rest
  | EmptyString => EmptyString
  end.

(** [.replace(/_/g, '')] *)
Fixpoint removeUnderscores (s : string) : string :=
  match s with
  | EmptyString => EmptyString
  | String c s' =>
      if Ascii.eqb c "_" then removeUnderscores s'
      else String c (removeUnderscores s')
  end.

(** [toTypeScriptName(tokenName)] *)
Definition toTypeScriptName (tokenName : string) : string :=
  match split "." tokenName with
  | [] => EmptyString
  | first :: others =>
      removeUnderscores
        (join EmptyString (lowerFirst first :: map Emitter.capitalize others))
  end.

(** *** Invariants *)

(** The value of a token is not a reference text. *)
Definition isLiteral (token : LTok) : bool :=
  match value token with
  | JStr s => negb (Detect.isReference s)
  | _ => true
  end.

(** A key of the flattened object spells the path of its token, and no
    segment of the path is a metadata key. *)
Definition keyedByPath (result : obj LTok) : Prop :=
  forall k t,
    In (k, t) result ->
    k = join "." (path t)
    /\ path t <> []
    /\ Forall (fun segment => startsWith segment "$" = false) (path t)
    /\ references t = None.

(** Two states of the token objects differ by values and references only. *)
Definition sameShape (a b : obj LTok) : Prop :=
  keys a = keys b
  /\ forall k t, get k b = Some t ->
       exists t', get k a = Some t'
                  /\ type t' = type t /\ path t' = path t
                  /\ description t' = description t
                  /\ (isLiteral t = true -> t' = t).

(** The number of keys of the six groups together. *)
Definition groupsSize (g : Groups) : nat :=
  length (keys (colors g)) + length (keys (dimensions g))
  + length (keys (fontFamilies g)) + length (keys (fontWeights g))
  + length (keys (durations g)) + length (keys (other g)).

(** [k] is a key of one of the six groups. *)
Definition groupsOwn (g : Groups) (k : string) : Prop :=
  In k (keys (colors g)) \/ In k (keys (dimensions g))
  \/ In k (keys (fontFamilies g)) \/ In k (keys (fontWeights g))
  \/ In k (keys (durations g)) \/ In k (keys (other g)).

(** No dot, no underscore and no upper-case letter. *)
Definition isCssNameChar (c : ascii) : bool :=
  negb (Ascii.eqb c "." || Ascii.eqb c "_" || isUpper c).

(** Neither a dot nor an underscore. *)
Definition isTsNameChar (c : ascii) : bool :=
  negb (Ascii.eqb c "." || Ascii.eqb c "_").

End LegacyParser.

(** ** Semantic suggestions (Figma transformer) *)

Module Suggestions.
Import JsString Color.

(** [config.classificationRules].  A pattern is a regular expression used
    through [pattern.test(name)] only: it is kept as the test it stands for
    (the patterns carry no [g] or [y] flag, so a test has no state). *)
Record ClassificationRules := {
  semanticKeywords : list string;
  primitivePatterns : list (string -> bool)
}.

(** [config.semanticSuggestions] *)
Record Settings := {
  enabled : bool;
  confidenceThreshold : string
}.

Inductive tier := Primitive | Semantic.

(** [/[-]?\d+$/.test(name)]: the name ends with a digit. *)
Fixpoint endsWithDigit (name : string) : bool :=
  match name with
  | EmptyString => false
  | String c EmptyString => isDigit c
  | String _ rest => endsWithDigit rest
  end.

Definition hasSemanticKeyword (rules : ClassificationRules)
           (tokenName : string) : bool :=
  existsb (fun keyword => includes (toLowerCase tokenName) keyword)
          (semanticKeywords rules).

(** [classifyToken(tokenName)] *)
Definition classifyToken (rules : ClassificationRules) (tokenName : string)
  : tier :=
  if existsb (fun pattern => pattern tokenName) (primitivePatterns rules)
  then Primitive
  else if hasSemanticKeyword rules tokenName then Semantic
  else if endsWithDigit tokenName then Primitive else Semantic.

(** [analyzeSemanticCandidate(tokenName, tokenValue, allTokens)] for a
    string value: the confidence, or [null]. *)
Definition analyzeSemanticCandidate (rules : ClassificationRules)
           (tokenName tokenValue : string) : option string :=
  match classifyToken rules tokenName with
  | Primitive => None
  | Semantic =>
      if isFigmaReference tokenValue then Some "high"
      else if hasSemanticKeyword rules tokenName then Some "medium"
      else Some "low"
  end.

(** [a < b] on strings: the order of the code units, a proper prefix first. *)
Fixpoint ltString (a b : string) : bool :=
  match a, b with
  | _, EmptyString => false
  | EmptyString, String _ _ => true
  | String x a', String y b' =>
      if (code x <? code y)%N then true
      else if (code y <? code x)%N then false
      else ltString a' b'
  end.

(** [a >= b] on strings *)
Definition geString (a b : string) : bool := negb (ltString a b).

(** An entry of the report. *)
Record suggestion := mkSuggestion {
  name : string;
  value : string;
  path : string;
  isReference : bool
}.

(** [suggestions = { high: [], medium: [], low: [] }] *)
Record Report := mkReport {
  high : list suggestion;
  medium : list suggestion;
  low : list suggestion
}.

(** [suggestions[confidence].push(entry)] *)
Definition push (confidence : string) (entry : suggestion) (report : Report)
  : Report :=
  if String.eqb confidence "high"
  then mkReport (high report ++ [entry]) (medium report) (low report)
  else if String.eqb confidence "medium"
  then mkReport (high report) (medium report ++ [entry]) (low report)
  else mkReport (high report) (medium report) (low report ++ [entry]).

Section WithConfig.
Variable rules : ClassificationRules.
Variable settings : Settings.

(** The body of the loop of [analyzeGroup] for one entry; [recur] is
    [analyzeGroup] itself. *)
Definition analyzeEntry (recur : tree -> list string -> Report -> Report)
           (groupPath : list string) (report : Report)
           (entry : string * tree) : Report :=
  let '(key, value) := entry in
  let currentPath := groupPath ++ [key] in
  let tokenName := toLowerCase (join "-" currentPath) in
  match value with
  | Node (Some tokenValue) _ =>
      match analyzeSemanticCandidate rules tokenName tokenValue with
      | Some confidence =>
          if geString confidence (confidenceThreshold settings)
          then push confidence
                    (mkSuggestion tokenName tokenValue (join "." currentPath)
                                  (isFigmaReference tokenValue))
                    report
          else report
      | None => report
      end
  | Node None _ => recur value currentPath report
  | Scalar => report
  end.

(** The inner function [analyzeGroup]. *)
Fixpoint analyzeGroup (groupData : tree) (groupPath : list string)
         (report : Report) {struct groupData} : Report :=
  match groupData with
  | Scalar => report
  | Node _ children =>
      fold_left (analyzeEntry analyzeGroup groupPath) children report
  end.

(** [generateSemanticSuggestions(colorsData, primitiveTokens)]: the three
    lists the report is written from, or nothing when the feature is off. *)
Definition generateSemanticSuggestions (colorsData : tree) : option Report :=
  if negb (enabled settings) then None
  else Some (analyzeGroup colorsData [] (mkReport [] [] [])).

(** A list of the report has entries only when its confidence passes the
    comparison with the threshold. *)
Definition filtered (report : Report) : Prop :=
  (high report <> [] -> geString "high" (confidenceThreshold settings) = true)
  /\ (medium report <> [] ->
      geString "medium" (confidenceThreshold settings) = true)
  /\ (low report <> [] -> geString "low" (confidenceThreshold settings) = true).

End WithConfig.
End Suggestions.

(** ** Reference chains of the legacy resolver *)

Module LegacyChains.
Import JsString JsObject Json LegacyClassifier LegacyParser.

(** [chain tokens x n v]: starting at the token [x], [n] references lead to
    a token whose value [v] is not a reference text. *)
Inductive chain (tokens : obj LTok) : string -> nat -> json -> Prop :=
| chain_end x t :
    get x tokens = Some t -> isLiteral t = true ->
    chain tokens x 0 (value t)
| chain_step x t s n v :
    get x tokens = Some t -> value t = JStr s ->
    Detect.isReference s = true ->
    chain tokens (W3CFlatten.slice1 s) n v ->
    chain tokens x (S n) v.

(** The value [v] is not a reference text. *)
Definition isLiteralValue (v : json) : bool :=
  match v with
  | JStr s => negb (Detect.isReference s)
  | _ => true
  end.

(** A token that ends a chain in [tokens] holds, in [resolved], the value at
    the end of its chain or a reference to a token nearer to that end. *)
Definition onTheWay (tokens resolved : obj LTok) : Prop :=
  forall x n v,
    chain tokens x n v ->
    exists t',
      get x resolved = Some t'
      /\ (value t' = v
          \/ exists s m,
              value t' = JStr s /\ Detect.isReference s = true
              /\ m < n /\ chain tokens (W3CFlatten.slice1 s) m v).

(** The token [x], if it ends a chain of [limit] references at most, holds
    the value at the end of its chain. *)
Definition settledAt (tokens resolved : obj LTok) (limit : option nat)
           (x : string) : Prop :=
  forall n v,
    chain tokens x n v ->
    match limit with Some k => n <= k | None => True end ->
    exists t', get x resolved = Some t' /\ value t' = v.

End LegacyChains.

(** ** Sample inputs *)

Module Samples.

(** The reordering set-up of the README, restricted to one keyword. *)
Definition configText : Config := {|
  cssPrefixPrimitive := "primitive";
  cssPrefixSemantic := "";
  transformations := Some {| reorderSemanticTokens := true;
                             categoryKeywords := Some ["text"] |}
|}.

(** Two configured category keywords. *)
Definition configTextBorder : Config := {|
  cssPrefixPrimitive := "primitive";
  cssPrefixSemantic := "";
  transformations := Some {| reorderSemanticTokens := true;
                             categoryKeywords := Some ["text"; "border"] |}
|}.

Definition noMetadata : Token.Metadata := {|
  Token.description := None;
  Token.originalPath := "";
  Token.designerNotes := None;
  Token.isLegacy := false
|}.

(** A token of the universal parser whose values are strings. *)
Definition token (name value type : string) (references : option string)
  : Token.StandardToken string :=
  Token.mkToken name value type value references noMetadata None None.

(** Two tokens that reference each other, a literal and a reference to it. *)
Definition tokenA := token "a" "{b}" "color" (Some "b").
Definition tokenB := token "b" "{a}" "color" (Some "a").
Definition tokenC := token "c" "#ffffff" "color" None.
Definition tokenD := token "d" "{c}" "color" (Some "c").
Definition cyclicTokens : list (Token.StandardToken string) :=
  [tokenA; tokenB; tokenC; tokenD].

(** A named gap that points at a raw scale step, as left by the resolver. *)
Definition scale200 := token "scale-200" "16px" "dimension" None.
Definition gapM := token "gap-m" "16px" "dimension" (Some "scale-200").
Definition dimensionTokens : list (Token.StandardToken string) :=
  [scale200; gapM].

(** The same two tokens in the shape of the legacy parser. *)
Definition legacyScale200 : LegacyClassifier.LegacyToken string :=
  LegacyClassifier.mkLegacyToken "dimension" "16px" ["scale"; "200"] "" None.
Definition legacyGapM : LegacyClassifier.LegacyToken string :=
  LegacyClassifier.mkLegacyToken "dimension" "16px" ["Gap"; "M"] ""
                                 (Some "scale.200").
Definition legacyDimensionTokens
  : JsObject.obj (LegacyClassifier.LegacyToken string) :=
  [("scale.200", legacyScale200); ("Gap.M", legacyGapM)].

(** A Tokens Studio document with one nested group:
    [{ colors: { red: { type: 'color', value: '#ff0000' } } }]. *)
Definition tokensStudioDocument : Json.json :=
  Json.JObj
    [("colors",
      Json.JObj
        [("red",
          Json.JObj [("type", Json.JStr "color");
                       ("value", Json.JStr "#ff0000")])])].

(** Two existing primitive colours. *)
Definition primitiveColors : JsObject.obj string :=
  [("green-05", "#a9e079"); ("base-black", "#1a1a1a")].

(** A Text group with one colour next to "base-black" and one far from every
    primitive. *)
Definition mixedTextGroup : Color.tree :=
  Color.Node None
    [("Text",
      Color.Node None
        [("primaryBlackText", Color.Node (Some "#1a1a1b") []);
         ("accentText", Color.Node (Some "#ff0000") [])])].

(** A Text group whose only colour is next to "base-black". *)
Definition closeTextGroup : Color.tree :=
  Color.Node None
    [("Text",
      Color.Node None
        [("primaryBlackText", Color.Node (Some "#1a1a1b") [])])].

(** A primitive grey and a semantic text colour that references it, as the
    W3C parser leaves them before resolution. *)
Definition jsonToken (name : string) (value : string) (type : string)
           (references : option string)
  : Token.StandardToken (option Json.json) :=
  Token.mkToken name (Some (Json.JStr value)) type (Some (Json.JStr value))
                references noMetadata None None.

Definition baseGrey200 := jsonToken "base-grey-200" "#eaeaea" "color" None.
Definition textPrimary :=
  jsonToken "text-primary" "{base.grey.200}" "color" (Some "base-grey-200").
Definition referencingTokens : list (Token.StandardToken (option Json.json)) :=
  [baseGrey200; textPrimary].

(** The three hardcoded colours of an Info group, not in order of
    lightness. *)
Definition infoColors : list Color.color :=
  [Color.mkColor "infoMain" "#437dcf" "System-Info-infoMain";
   Color.mkColor "infoLight" "#e3f0ff" "System-Info-infoLight";
   Color.mkColor "infoDark" "#1d3f73" "System-Info-infoDark"].

(** A token whose reference names no token, after a literal and a reference
    to it. *)
Definition tokenE := token "e" "{missing}" "color" (Some "missing").
Definition danglingTokens : list (Token.StandardToken string) :=
  [tokenC; tokenD; tokenE].

(** A Text group with one reference that has no dot between its braces. *)
Definition dotlessTextGroup : Color.tree :=
  Color.Node None
    [("Text",
      Color.Node None
        [("primaryText", Color.Node (Some "{black}") [])])].

(** The colours collected from [mixedTextGroup]. *)
Definition accentText : Color.color :=
  Color.mkColor "accentText" "#ff0000" "Text-accentText".
Definition mixedColors : list Color.color :=
  [Color.mkColor "primaryBlackText" "#1a1a1b" "Text-primaryBlackText";
   accentText].

(** A W3C document with a raw scale step and a named gap that points at it:
    [{ scale: { "200_(16px)": { $type: "dimension", $value: "16px" } },
       Gap: { M: { $type: "dimension", $value: "{scale.200_(16px)}" } } }]. *)
Definition w3cDocument : W3CFlatten.doc :=
  W3CFlatten.Group None None None
    [("scale",
      W3CFlatten.Group None None None
        [("200_(16px)",
          W3CFlatten.Group (Some "dimension") (Some (Json.JStr "16px")) None
                           [])]);
     ("Gap",
      W3CFlatten.Group None None None
        [("M",
          W3CFlatten.Group (Some "dimension")
                           (Some (Json.JStr "{scale.200_(16px)}")) None
                           [])])].

(** The two tokens the flattener makes of it. *)
Definition scaleStepToken : Token.StandardToken (option Json.json) :=
  W3CFlatten.makeToken ["scale"; "200_(16px)"] (Some "dimension")
                       (Some (Json.JStr "16px")) None.
Definition gapToken : Token.StandardToken (option Json.json) :=
  W3CFlatten.makeToken ["Gap"; "M"] (Some "dimension")
                       (Some (Json.JStr "{scale.200_(16px)}")) None.

(** A W3C document in which a text colour refers to a grey that comes after
    it: [{ Text: { Primary: { $type: "color", $value: "{Base.Grey.200}" } },
          Base: { Grey: { 200: { $type: "color", $value: "#eaeaea" } } } }]. *)
Definition legacyDocument : W3CFlatten.doc :=
  W3CFlatten.Group None None None
    [("Text",
      W3CFlatten.Group None None None
        [("Primary",
          W3CFlatten.Group (Some "color")
                           (Some (Json.JStr "{Base.Grey.200}")) None [])]);
     ("Base",
      W3CFlatten.Group None None None
        [("Grey",
          W3CFlatten.Group None None None
            [("200",
              W3CFlatten.Group (Some "color") (Some (Json.JStr "#eaeaea"))
                               None [])])])].

Definition legacyTextPrimary : LegacyClassifier.LegacyToken Json.json :=
  LegacyParser.makeToken ["Text"; "Primary"] (Some "color")
                         (Json.JStr "{Base.Grey.200}") None.
Definition legacyBaseGrey200 : LegacyClassifier.LegacyToken Json.json :=
  LegacyParser.makeToken ["Base"; "Grey"; "200"] (Some "color")
                         (Json.JStr "#eaeaea") None.

(** Classification rules with two semantic keywords and one primitive
    pattern, and the suggestion settings of the shipped configuration. *)
Definition suggestionRules : Suggestions.ClassificationRules := {|
  Suggestions.semanticKeywords := ["primary"; "text"];
  Suggestions.primitivePatterns := [fun name => String.eqb name "white"]
|}.
Definition suggestionSettings : Suggestions.Settings := {|
  Suggestions.enabled := true;
  Suggestions.confidenceThreshold := "medium"
|}.

(** A Text group with a reference and a hardcoded colour. *)
Definition referencedTextGroup : Color.tree :=
  Color.Node None
    [("Text",
      Color.Node None
        [("primaryText", Color.Node (Some "{Base.black}") []);
         ("accentText", Color.Node (Some "#ff0000") [])])].

(** A W3C document with a chain of two references whose tokens come before
    the tokens they refer to:
    [{ A: { $type: "color", $value: "{B}" },
       B: { $type: "color", $value: "{C}" },
       C: { $type: "color", $value: "#ffffff" } }]. *)
Definition legacyChainDocument : W3CFlatten.doc :=
  W3CFlatten.Group None None None
    [("A", W3CFlatten.Group (Some "color") (Some (Json.JStr "{B}")) None []);
     ("B", W3CFlatten.Group (Some "color") (Some (Json.JStr "{C}")) None []);
     ("C", W3CFlatten.Group (Some "color") (Some (Json.JStr "#ffffff")) None
                            [])].

End Samples.

(** * Properties *)

Module JsStringFacts.
Import JsString.

Lemma split_nonempty sep s : split sep s <> [].
Proof.
  destruct s as [|c s]; simpl; [discriminate|].
  destruct (Ascii.eqb c sep); [discriminate|].
  destruct (split sep s); discriminate.
Qed.

Lemma append_cons c s t : String c s +:+ t = String c (s +:+ t).
Proof. reflexivity. Qed.

Lemma append_assoc s t u : (s +:+ t) +:+ u = s +:+ (t +:+ u).
Proof.
  induction s as [|c s IH]; [reflexivity|].
  now rewrite !append_cons, IH.
Qed.

Lemma isPrefix_spec p s :
  isPrefix p s = true <-> exists t, s = p +:+ t.
Proof.
  revert s. induction p as [|c p IH]; intros s.
  - split; [intros _; exists s; reflexivity | intros _; reflexivity].
  - destruct s as [|d s].
    + split; [discriminate | intros [t Ht]; discriminate].
    + cbn [isPrefix]. destruct (Ascii.eqb_spec c d) as [->|Hne]; cbn [andb].
      * rewrite IH. split; intros [t Ht]; exists t.
        -- rewrite Ht. reflexivity.
        -- rewrite append_cons in Ht. congruence.
      * split; [discriminate | intros [t Ht]].
        rewrite append_cons in Ht. congruence.
Qed.

Lemma indexOf_None x parts : indexOf x parts = None <-> ~ In x parts.
Proof.
  induction parts as [|p ps IH]; simpl.
  - tauto.
  - destruct (String.eqb_spec p x) as [->|Hne].
    + split; [discriminate | tauto].
    + destruct (indexOf x ps); simpl.
      * split; [discriminate|]. intros H. exfalso. apply H. right.
        destruct (in_dec string_dec x ps) as [Hin|Hn]; [exact Hin|].
        destruct IH as [_ IH]. specialize (IH Hn). discriminate.
      * split; [|reflexivity]. intros _ [H|H]; [congruence|].
        destruct IH as [IH _]. now apply IH.
Qed.

End JsStringFacts.

Module JsObjectFacts.
Import JsString JsObject.

Section WithA.
Context {A : Type}.
Implicit Types (o : obj A) (k : string) (v : A).

Lemma get_update_eq k v o : has k o = true -> get k (update k v o) = Some v.
Proof.
  unfold has. induction o as [|[k' v'] o IH]; cbn; [discriminate|].
  destruct (String.eqb_spec k' k) as [->|Hne]; cbn.
  - now rewrite String.eqb_refl.
  - intros H. destruct (String.eqb_spec k' k); [done|]. now apply IH.
Qed.

Lemma get_update_ne k k' v o : k <> k' -> get k' (update k v o) = get k' o.
Proof.
  intros Hne. induction o as [|[k0 v0] o IH]; cbn; [reflexivity|].
  destruct (String.eqb_spec k0 k) as [->|H0]; cbn.
  - destruct (String.eqb_spec k k'); [done|reflexivity].
  - destruct (String.eqb_spec k0 k'); [reflexivity|exact IH].
Qed.

Lemma get_insertIndex_eq n k v o :
  get k o = None -> get k (insertIndex n k v o) = Some v.
Proof.
  induction o as [|[k' v'] o IH]; cbn.
  - now rewrite String.eqb_refl.
  - destruct (String.eqb_spec k' k) as [->|Hne]; [discriminate|]. intros H.
    destruct (precedes n k'); cbn.
    + now rewrite String.eqb_refl.
    + destruct (String.eqb_spec k' k); [done|]. now apply IH.
Qed.

Lemma get_insertIndex_ne n k k' v o :
  k <> k' -> get k' (insertIndex n k v o) = get k' o.
Proof.
  intros Hne. induction o as [|[k0 v0] o IH]; cbn.
  - destruct (String.eqb_spec k k'); [done|reflexivity].
  - destruct (precedes n k0); cbn.
    + destruct (String.eqb_spec k k'); [done|reflexivity].
    + destruct (String.eqb_spec k0 k'); [reflexivity|exact IH].
Qed.

Lemma get_app k o o' :
  get k (o ++ o') = match get k o with Some v => Some v | None => get k o' end.
Proof.
  induction o as [|[k0 v0] o IH]; cbn; [reflexivity|].
  destruct (String.eqb k0 k); [reflexivity|exact IH].
Qed.

Lemma get_set_eq k v o : get k (set k v o) = Some v.
Proof.
  unfold set. destruct (has k o) eqn:Hh.
  - now apply get_update_eq.
  - unfold has in Hh. destruct (get k o) eqn:Hg; [discriminate|].
    destruct (arrayIndex k).
    + now apply get_insertIndex_eq.
    + rewrite get_app, Hg. cbn. now rewrite String.eqb_refl.
Qed.

Lemma get_set_ne k k' v o : k <> k' -> get k' (set k v o) = get k' o.
Proof.
  intros Hne. unfold set. destruct (has k o).
  - now apply get_update_ne.
  - destruct (arrayIndex k).
    + now apply get_insertIndex_ne.
    + rewrite get_app. destruct (get k' o); [reflexivity|]. cbn.
      destruct (String.eqb_spec k k'); [done|reflexivity].
Qed.

Lemma in_update k v o k' v' :
  In (k', v') (update k v o) -> (k' = k /\ v' = v) \/ In (k', v') o.
Proof.
  induction o as [|[k0 v0] o IH]; cbn; [tauto|].
  destruct (String.eqb k0 k); cbn.
  - intros [[= <- <-]|H]; [left|right; right]; done.
  - intros [H|H]; [right; left; done|]. destruct (IH H); [left|right; right];
      done.
Qed.

Lemma in_insertIndex n k v o k' v' :
  In (k', v') (insertIndex n k v o) -> (k' = k /\ v' = v) \/ In (k', v') o.
Proof.
  induction o as [|[k0 v0] o IH]; cbn.
  - intros [[= <- <-]|[]]. now left.
  - destruct (precedes n k0); cbn.
    + intros [[= <- <-]|H]; [left|right]; done.
    + intros [H|H]; [right; left; done|].
      destruct (IH H); [left|right; right]; done.
Qed.

(** An entry of the object after [o[k] = v] is the new entry or was there. *)
Lemma in_set k v o k' v' :
  In (k', v') (set k v o) -> (k' = k /\ v' = v) \/ In (k', v') o.
Proof.
  unfold set. destruct (has k o); [apply in_update|].
  destruct (arrayIndex k); [apply in_insertIndex|].
  rewrite in_app_iff. cbn. intros [H|[[= <- <-]|[]]]; [right|left]; done.
Qed.

Lemma get_in k v o : get k o = Some v -> In (k, v) o.
Proof.
  induction o as [|[k0 v0] o IH]; cbn; [discriminate|].
  destruct (String.eqb_spec k0 k) as [->|Hne].
  - intros [= ->]. now left.
  - intros H. right. now apply IH.
Qed.

Lemma in_get k v o : In (k, v) o -> exists v', get k o = Some v'.
Proof.
  induction o as [|[k0 v0] o IH]; cbn; [tauto|].
  destruct (String.eqb_spec k0 k) as [->|Hne]; [eauto|].
  intros [[= -> ->]|H]; [done|]. now apply IH.
Qed.

End WithA.
End JsObjectFacts.

Module NamesFacts.
Import JsString JsStringFacts Names.

(** *** Name clean-up *)

Lemma longestCommonPrefix_shares n a b :
  n <= longestCommonPrefix a b <-> sharesPrefix n a b.
Proof.
  split.
  - revert n b. induction a as [|x a IH]; intros n b Hn.
    + exists EmptyString. cbn in *. repeat split; lia.
    + destruct b as [|y b].
      { exists EmptyString. cbn in *. repeat split; lia. }
      cbn [longestCommonPrefix] in Hn.
      destruct (Ascii.eqb_spec x y) as [->|Hne].
      * destruct n as [|n].
        { exists EmptyString. cbn. repeat split; lia. }
        destruct (IH n b) as (p & Hp & Ha & Hb); [lia|].
        exists (String y p). cbn. rewrite Ascii.eqb_refl, Ha, Hb.
        repeat split; lia.
      * exists EmptyString. cbn. repeat split; lia.
  - intros (p & Hp & Ha & Hb). revert n a b Hp Ha Hb.
    induction p as [|c p IH]; intros n a b Hp Ha Hb.
    + cbn in Hp. lia.
    + destruct a as [|x a]; [discriminate|].
      destruct b as [|y b]; [discriminate|].
      cbn [isPrefix] in Ha, Hb.
      apply andb_prop in Ha as [Hx Ha]. apply andb_prop in Hb as [Hy Hb].
      apply Ascii.eqb_eq in Hx, Hy. subst x y.
      cbn [longestCommonPrefix]. rewrite Ascii.eqb_refl.
      destruct n as [|n]; [lia|].
      cbn in Hp. specialize (IH n a b). apply le_n_S, IH; [lia|done..].
Qed.

Lemma dropSecondary_spec parts : dropsWrapper parts (dropSecondary parts).
Proof.
  destruct parts as [|p0 rest]; cbn [dropSecondary].
  - apply wrapper_kept. intros (w & r & H & _). discriminate.
  - destruct (String.eqb_spec (toLowerCase p0) "secondary") as [He|Hne];
      cbn [andb].
    + destruct (Nat.leb_spec 3 (length (p0 :: rest))) as [Hl|Hl].
      * apply wrapper_dropped. exists p0, rest. done.
      * apply wrapper_kept. intros (w & r & H & _ & Hlen). lia.
    + apply wrapper_kept. intros (w & r & H & Hw & _).
      injection H as -> ->. done.
Qed.

Lemma redundant_test a b :
  (4 <=? longestCommonPrefix a b)%nat || startsWith b a || startsWith a b
  = true <-> restates a b.
Proof.
  unfold restates, startsWith.
  rewrite !orb_true_iff, Nat.leb_le, longestCommonPrefix_shares. tauto.
Qed.

Lemma dropRedundant_spec parts : dropsRestated parts (dropRedundant parts).
Proof.
  destruct parts as [|p0 [|p1 rest]]; cbn [dropRedundant].
  - apply restated_kept. intros (a & b & r & H & _). discriminate.
  - apply restated_kept. intros (a & b & r & H & _). discriminate.
  - cbv zeta.
    destruct ((4 <=? longestCommonPrefix (toLowerCase p0) (toLowerCase p1))%nat
              || startsWith (toLowerCase p1) (toLowerCase p0)
              || startsWith (toLowerCase p0) (toLowerCase p1)) eqn:Ht.
    + apply restated_dropped. exists p0, p1, rest.
      split; [done|]. now apply redundant_test.
    + apply restated_kept. intros (a & b & r & H & Hr).
      injection H as -> -> ->. apply redundant_test in Hr. congruence.
Qed.

Lemma toLowerCase_no_upper s c :
  In c (list_ascii_of_string (toLowerCase s)) -> isUpper c = false.
Proof.
  induction s as [|d s IH]; cbn; [tauto|].
  intros [<-|H]; [|now apply IH].
  clear. unfold lowerChar. destruct (isUpper d) eqn:Hd; [|exact Hd].
  destruct d as [[] [] [] [] [] [] [] []]; vm_compute in Hd; try discriminate;
    vm_compute; reflexivity.
Qed.

Lemma string_ind2 (P : string -> Prop) :
  P EmptyString ->
  (forall c, P (String c EmptyString)) ->
  (forall c1 c2 s, P s -> P (String c2 s) -> P (String c1 (String c2 s))) ->
  forall s, P s.
Proof.
  intros H0 H1 H2 s.
  assert (H : P s /\ forall c, P (String c s)); [|tauto].
  induction s as [|a s [IH1 IH2]]; split; auto.
Qed.

Lemma digit_not_lower c : isDigit c = true -> isLower c = false.
Proof.
  unfold isDigit, isLower. intros H.
  apply andb_prop in H as [_ H]. apply N.leb_le in H.
  apply andb_false_iff. left. apply N.leb_gt. lia.
Qed.

Lemma digit_not_upper c : isDigit c = true -> isUpper c = false.
Proof.
  unfold isDigit, isUpper. intros H.
  apply andb_prop in H as [_ H]. apply N.leb_le in H.
  apply andb_false_iff. left. apply N.leb_gt. lia.
Qed.

Lemma upper_not_lower c : isUpper c = true -> isLower c = false.
Proof.
  unfold isUpper, isLower. intros H.
  apply andb_prop in H as [_ H]. apply N.leb_le in H.
  apply andb_false_iff. left. apply N.leb_gt. lia.
Qed.

Lemma hyphen_classes :
  isLower "-" = false /\ isUpper "-" = false /\ isDigit "-" = false.
Proof. repeat split. Qed.

Lemma hyphenateDigit_two c1 c2 s :
  hyphenateDigit (String c1 (String c2 s))
  = if isLower c1 && isDigit c2
    then String c1 (String "-" (String c2 (hyphenateDigit s)))
    else String c1 (hyphenateDigit (String c2 s)).
Proof. reflexivity. Qed.

Lemma hyphenateCamel_two c1 c2 s :
  hyphenateCamel (String c1 (String c2 s))
  = if isLower c1 && isUpper c2
    then String c1 (String "-" (String c2 (hyphenateCamel s)))
    else String c1 (hyphenateCamel (String c2 s)).
Proof. reflexivity. Qed.

Lemma hyphenateDigit_head c s :
  exists r, hyphenateDigit (String c s) = String c r.
Proof.
  destruct s as [|d s]; cbn [hyphenateDigit]; [eauto|].
  destruct (isLower c && isDigit d); eauto.
Qed.

Lemma hyphenateCamel_head c s :
  exists r, hyphenateCamel (String c s) = String c r.
Proof.
  destruct s as [|d s]; cbn [hyphenateCamel]; [eauto|].
  destruct (isLower c && isUpper d); eauto.
Qed.

Lemma hasBoundary_two left right c1 c2 s :
  hasBoundary left right (String c1 (String c2 s))
  = (left c1 && right c2) || hasBoundary left right (String c2 s).
Proof. reflexivity. Qed.

Lemma hyphenateDigit_separates s :
  hasBoundary isLower isDigit (hyphenateDigit s) = false.
Proof.
  destruct hyphen_classes as (HL & HU & HD).
  induction s as [|c|c1 c2 s IH1 IH2] using string_ind2; try reflexivity.
  rewrite hyphenateDigit_two. destruct (isLower c1 && isDigit c2) eqn:Hm.
  - apply andb_prop in Hm as [_ Hd]. rewrite !hasBoundary_two.
    rewrite HL, HD, andb_false_r. cbn [andb orb].
    destruct s as [|c3 s]; [reflexivity|].
    destruct (hyphenateDigit_head c3 s) as [r Hr]. rewrite Hr in *.
    rewrite hasBoundary_two. now rewrite (digit_not_lower _ Hd), IH1.
  - destruct (hyphenateDigit_head c2 s) as [r Hr]. rewrite Hr in *.
    rewrite hasBoundary_two. now rewrite Hm, IH2.
Qed.

Lemma hyphenateCamel_separates s :
  hasBoundary isLower isUpper (hyphenateCamel s) = false.
Proof.
  destruct hyphen_classes as (HL & HU & HD).
  induction s as [|c|c1 c2 s IH1 IH2] using string_ind2; try reflexivity.
  rewrite hyphenateCamel_two. destruct (isLower c1 && isUpper c2) eqn:Hm.
  - apply andb_prop in Hm as [_ Hu]. rewrite !hasBoundary_two.
    rewrite HL, HU, andb_false_r. cbn [andb orb].
    destruct s as [|c3 s]; [reflexivity|].
    destruct (hyphenateCamel_head c3 s) as [r Hr]. rewrite Hr in *.
    rewrite hasBoundary_two. now rewrite (upper_not_lower _ Hu), IH1.
  - destruct (hyphenateCamel_head c2 s) as [r Hr]. rewrite Hr in *.
    rewrite hasBoundary_two. now rewrite Hm, IH2.
Qed.

(** Putting hyphens before digits creates no camel-case boundary. *)
Lemma hyphenateDigit_keeps_camel s :
  hasBoundary isLower isUpper (hyphenateDigit s)
  = hasBoundary isLower isUpper s.
Proof.
  destruct hyphen_classes as (HL & HU & HD).
  induction s as [|c|c1 c2 s IH1 IH2] using string_ind2; try reflexivity.
  rewrite hyphenateDigit_two. destruct (isLower c1 && isDigit c2) eqn:Hm.
  - apply andb_prop in Hm as [_ Hd]. rewrite !hasBoundary_two.
    rewrite HL, HU, (digit_not_upper _ Hd), !andb_false_r. cbn [andb orb].
    destruct s as [|c3 s]; [reflexivity|].
    destruct (hyphenateDigit_head c3 s) as [r Hr]. rewrite Hr in *.
    rewrite !hasBoundary_two. now rewrite IH1.
  - destruct (hyphenateDigit_head c2 s) as [r Hr]. rewrite Hr in *.
    rewrite !hasBoundary_two. now rewrite IH2.
Qed.

Lemma hyphenateDigit_only_hyphens s :
  withoutHyphens (hyphenateDigit s) = withoutHyphens s.
Proof.
  induction s as [|c|c1 c2 s IH1 IH2] using string_ind2; try reflexivity.
  rewrite hyphenateDigit_two. destruct (isLower c1 && isDigit c2).
  - cbn [withoutHyphens]. rewrite Ascii.eqb_refl, IH1. reflexivity.
  - cbn [withoutHyphens] in *. now rewrite IH2.
Qed.

Lemma hyphenateCamel_only_hyphens s :
  withoutHyphens (hyphenateCamel s) = withoutHyphens s.
Proof.
  induction s as [|c|c1 c2 s IH1 IH2] using string_ind2; try reflexivity.
  rewrite hyphenateCamel_two. destruct (isLower c1 && isUpper c2).
  - cbn [withoutHyphens]. rewrite Ascii.eqb_refl, IH1. reflexivity.
  - cbn [withoutHyphens] in *. now rewrite IH2.
Qed.


(** *** Semantic name reordering *)

Lemma indexOf_lookup k parts i :
  indexOf k parts = Some i -> parts !! i = Some k.
Proof.
  revert i. induction parts as [|p ps IH]; intros i; cbn; [discriminate|].
  destruct (String.eqb_spec p k) as [->|Hne].
  - intros [= <-]. reflexivity.
  - destruct (indexOf k ps) as [j|]; cbn; [|discriminate].
    intros [= <-]. cbn. now apply IH.
Qed.

Lemma reorderLoop_settled keywords parts name :
  Forall (settled parts) keywords -> reorderLoop keywords parts name = name.
Proof.
  induction 1 as [|k ks Hk _ IH]; cbn; [reflexivity|].
  destruct Hk as [-> | ->]; exact IH.
Qed.

Lemma reorderLoop_moves pre k post parts name i :
  Forall (settled parts) pre ->
  indexOf k parts = Some (S i) ->
  reorderLoop (pre ++ k :: post) parts name
  = join "-" (k :: delete (S i) parts).
Proof.
  intros Hpre Hk. induction Hpre as [|k' ks Hk' _ IH]; cbn.
  - rewrite Hk. apply indexOf_lookup in Hk. cbn in Hk. now rewrite Hk.
  - destruct Hk' as [-> | ->]; exact IH.
Qed.

(** C7 (as the code has it).  With reordering enabled: a name in which every
    configured keyword is absent or already leads is returned unchanged, in
    particular a name that holds no configured keyword; otherwise the first
    keyword, in configuration order, whose first occurrence is in a segment
    other than the first has that occurrence moved to the front. *)
Theorem reorderSemanticToken_spec config name
  (Henabled : reorderEnabled config = true) :
  let parts := split "-" name in
  (Forall (settled parts) (keywordsOf config)
   -> reorderSemanticToken config name = name)
  /\ ((forall k, In k (keywordsOf config) -> ~ In k parts)
      -> reorderSemanticToken config name = name)
  /\ (forall (pre : list string) k post i,
         keywordsOf config = (pre ++ k :: post)%list ->
         Forall (settled parts) pre ->
         indexOf k parts = Some (S i) ->
         reorderSemanticToken config name
         = join "-" (k :: delete (S i) parts)).
Proof.
  intros parts. unfold reorderSemanticToken. rewrite Henabled. cbn [negb].
  split; [|split].
  - apply reorderLoop_settled.
  - intros Habsent. apply reorderLoop_settled, Forall_forall.
    intros k Hk. left. apply indexOf_None. apply Habsent.
    now apply list_elem_of_In.
  - intros pre k post i -> Hpre Hk. now apply reorderLoop_moves.
Qed.

Lemma reorderSemanticToken_spec_witness :
  reorderSemanticToken Samples.configText "primary-black-text"
  = "text-primary-black"
  /\ reorderSemanticToken Samples.configText "primary-main" = "primary-main".
Proof.
  pose proof (reorderSemanticToken_spec Samples.configText
                "primary-black-text" eq_refl) as (_ & _ & Hmove).
  pose proof (reorderSemanticToken_spec Samples.configText
                "primary-main" eq_refl) as (_ & Hkeep & _).
  split.
  - apply (Hmove [] "text" [] 1); [reflexivity | constructor | reflexivity].
  - apply Hkeep. intros k [<-|[]]. cbn. intros [H|[H|[]]]; discriminate.
Defined.

Lemma reorder_leading_keyword_counterexample :
  reorderSemanticToken Samples.configTextBorder "text-primary-border"
  = "border-text-primary"
  /\ ~ leadingKeywordUnchanged.
Proof.
  split; [reflexivity|].
  intros H.
  specialize (H Samples.configTextBorder "text-primary-border"
                "text" ["primary"; "border"] eq_refl eq_refl).
  cbn in H. discriminate H. now left.
Qed.

End NamesFacts.

Module ResolverFacts.
Import JsString Token Resolver.

Section WithValue.
Context {V : Type}.

Abbreviation Tok := (StandardToken V).

Lemma agree_refl (t : Tok) : agree t t.
Proof. repeat split. Qed.

Lemma agree_resolved (tokens : list Tok) t : agree (resolved tokens t) t.
Proof.
  unfold resolved, agree, hasReference, truthyOpt.
  destruct (references t) as [r|] eqn:Hr; [|rewrite Hr; done].
  destruct (truthy r) eqn:Ht; [|rewrite Hr; cbn; done].
  destruct (follow _ _ _ _); cbn; rewrite ?Hr, ?Ht; done.
Qed.

Lemma follow_agree tm (store tokens : list Tok) r fuel :
  Forall2 agree store tokens ->
  follow tm store r fuel = follow tm tokens r fuel.
Proof.
  intros Hag. revert r. induction fuel as [|fuel IH]; intros r; cbn;
    [reflexivity|].
  destruct (truthy r); cbn; [|reflexivity].
  unfold mapGet. destruct (tm !! r) as [i|]; [|reflexivity].
  destruct (tokens !! i) as [b|] eqn:Hb.
  - destruct (Forall2_lookup_r _ _ _ _ _ Hag Hb) as (a & Ha & Hn & Hr & Hv).
    rewrite Ha, Hr. unfold hasReference, truthyOpt in Hv.
    destruct (references b) as [r'|].
    + destruct (truthy r'); [apply IH|]. now rewrite Hv.
    + now rewrite Hv.
  - assert (store !! i = None) as ->; [|reflexivity].
    apply lookup_ge_None. apply lookup_ge_None in Hb.
    apply Forall2_length in Hag. lia.
Qed.

Lemma tokenMapFrom_names i (a b : list Tok) m :
  map name a = map name b -> tokenMapFrom i a m = tokenMapFrom i b m.
Proof.
  revert i b m. induction a as [|x a IH]; intros i [|y b] m H;
    try discriminate; [reflexivity|].
  cbn in *. injection H as Hx Hrest. rewrite Hx. now apply IH.
Qed.

Lemma agree_names (a b : list Tok) :
  Forall2 agree a b -> map name a = map name b.
Proof.
  induction 1 as [|x y a b (Hn & _) _ IH]; cbn; [reflexivity|].
  now rewrite Hn, IH.
Qed.

Lemma agree_map_resolved (tokens l : list Tok) :
  Forall2 agree (map (resolved tokens) l) l.
Proof.
  induction l; cbn; constructor; [apply agree_resolved | assumption].
Qed.

Lemma Forall2_agree_refl (l : list Tok) : Forall2 agree l l.
Proof. induction l; constructor; [apply agree_refl | assumption]. Qed.

Lemma visited_agree (tokens : list Tok) k : Forall2 agree (visited tokens k) tokens.
Proof.
  unfold visited.
  pose proof (Forall2_app
                (agree_map_resolved tokens (take k tokens))
                (Forall2_agree_refl (drop k tokens))) as H.
  now rewrite take_drop in H.
Qed.

Lemma visited_lookup (tokens : list Tok) k t :
  tokens !! k = Some t -> visited tokens k !! k = Some t.
Proof.
  intros Hk. unfold visited.
  assert (k < length tokens) by (eapply lookup_lt_Some; eauto).
  rewrite lookup_app_r; rewrite length_map, length_take; [|lia].
  rewrite lookup_drop. replace (k + (k - k `min` length tokens)) with k by lia.
  exact Hk.
Qed.

Lemma visited_S (tokens : list Tok) k t :
  tokens !! k = Some t ->
  <[k := resolved tokens t]> (visited tokens k) = visited tokens (S k).
Proof.
  intros Hk. unfold visited.
  assert (k < length tokens) by (eapply lookup_lt_Some; eauto).
  rewrite (take_S_r _ _ _ Hk), map_app, <- app_assoc. cbn.
  rewrite (drop_S _ _ _ Hk).
  rewrite insert_app_r_alt; rewrite length_map, length_take; [|lia].
  replace (k - k `min` length tokens) with 0 by lia. reflexivity.
Qed.

Lemma resolveToken_visited (tokens : list Tok) k t :
  tokens !! k = Some t ->
  resolveToken (tokenMap tokens) (visited tokens k) k
  = (visited tokens (S k), warned tokens t).
Proof.
  intros Hk. unfold resolveToken.
  rewrite (visited_lookup _ _ _ Hk).
  rewrite <- (visited_S _ _ _ Hk).
  unfold resolved, warned.
  assert (Hid : <[k := t]> (visited tokens k) = visited tokens k)
    by (apply list_insert_id, visited_lookup, Hk).
  destruct (references t) as [r|]; [|now rewrite Hid].
  destruct (truthy r); [|now rewrite Hid].
  rewrite (follow_agree _ _ tokens) by apply visited_agree.
  destruct (follow _ _ _ _); now rewrite ?Hid.
Qed.

Lemma resolve_prefix (tokens : list Tok) k :
  k <= length tokens ->
  fold_left (resolveStep (tokenMap tokens)) (seq 0 k) (tokens, [])
  = (visited tokens k, concat (map (warned tokens) (take k tokens))).
Proof.
  induction k as [|k IH]; intros Hk.
  - cbn. unfold visited. now rewrite take_0, drop_0.
  - rewrite seq_S, fold_left_app, IH by lia. cbn.
    destruct (lookup_lt_is_Some_2 tokens k) as [t Ht]; [lia|].
    unfold resolveStep. cbn [fst snd].
    rewrite (resolveToken_visited _ _ _ Ht).
    rewrite (take_S_r _ _ _ Ht), map_app, concat_app. cbn.
    now rewrite app_nil_r.
Qed.

(** One pass treats every token on its own, against the tokens as they were
    before the pass. *)
Lemma resolveReferences_pointwise (tokens : list Tok) :
  resolveReferences tokens
  = (map (resolved tokens) tokens, concat (map (warned tokens) tokens)).
Proof.
  unfold resolveReferences. rewrite resolve_prefix by lia.
  unfold visited. now rewrite take_ge, drop_ge, app_nil_r by lia.
Qed.

Lemma setValue_twice (v : V) (t : Tok) :
  setValue v (setValue v t) = setValue v t.
Proof. reflexivity. Qed.

Lemma follow_after_pass (tokens : list Tok) r fuel :
  follow (tokenMap (map (resolved tokens) tokens))
         (map (resolved tokens) tokens) r fuel
  = follow (tokenMap tokens) tokens r fuel.
Proof.
  unfold tokenMap.
  rewrite (tokenMapFrom_names _ _ tokens)
    by apply agree_names, agree_map_resolved.
  apply follow_agree, agree_map_resolved.
Qed.

Lemma resolved_twice (tokens : list Tok) t :
  resolved (map (resolved tokens) tokens) (resolved tokens t)
  = resolved tokens t.
Proof.
  destruct (agree_resolved tokens t) as (_ & Hr & _).
  unfold resolved at 1. rewrite Hr.
  destruct (references t) as [r|] eqn:Href; [|reflexivity].
  destruct (truthy r) eqn:Ht; [|reflexivity].
  rewrite follow_after_pass.
  destruct (follow (tokenMap tokens) tokens r maxDepth) eqn:Hf;
    try reflexivity.
  unfold resolved. rewrite Href, Ht, Hf. apply setValue_twice.
Qed.

Lemma warned_twice (tokens : list Tok) t :
  warned (map (resolved tokens) tokens) (resolved tokens t)
  = warned tokens t.
Proof.
  unfold warned.
  destruct (agree_resolved tokens t) as (Hn & Hr & _).
  rewrite Hr, Hn. destruct (references t) as [r|]; [|reflexivity].
  destruct (truthy r); [|reflexivity]. now rewrite follow_after_pass.
Qed.

(** C4.  Reference resolution is idempotent: a second pass over the tokens
    left by a first pass returns exactly the same tokens (every field of
    every token), and prints the same warnings. *)
Theorem resolveReferences_idempotent (tokens : list Tok) :
  resolveReferences (resolveReferences tokens).1 = resolveReferences tokens.
Proof.
  rewrite !resolveReferences_pointwise. cbn [fst].
  f_equal.
  - rewrite map_map. apply map_ext. intros t. apply resolved_twice.
  - f_equal. rewrite map_map. apply map_ext. intros t. apply warned_twice.
Qed.

Lemma follow_longer (tokens : list Tok) r n :
  longerThan tokens r n ->
  follow (tokenMap tokens) tokens r n = DepthExceeded.
Proof.
  induction 1 as [|r t r' n Hr Ht Href Hr' _ IH]; cbn; [reflexivity|].
  rewrite Hr. cbn. unfold lookupToken in Ht. now rewrite Ht, Href, Hr'.
Qed.

Lemma follow_reaches (tokens : list Tok) r n v :
  reaches tokens r n v ->
  follow (tokenMap tokens) tokens r n = Resolved v.
Proof.
  induction 1 as [r t n Hr Ht Hno | r t r' n v Hr Ht Href Hr' _ IH]; cbn;
    rewrite Hr; cbn; unfold lookupToken in Ht; rewrite Ht.
  - unfold hasReference, truthyOpt in Hno.
    destruct (references t) as [r'|]; [now rewrite Hno | reflexivity].
  - now rewrite Href, Hr'.
Qed.

(** C5.  A token whose reference chain runs through [maxDepth] (ten) tokens
    that all hold a reference themselves gets a circular-reference warning
    and is left exactly as it was, value included; the pass still returns,
    and it treats the other tokens as usual: a token without a reference is
    untouched, and a token whose chain ends at a literal within the depth
    bound receives that literal as its value. *)
Theorem circular_reference_nonfatal (tokens : list Tok) i token r
  (Hi : tokens !! i = Some token)
  (Href : references token = Some r)
  (Htruthy : truthy r = true)
  (Hlong : longerThan tokens r maxDepth) :
  let result := resolveReferences tokens in
  result.1 !! i = Some token
  /\ In (CircularReference (name token)) result.2
  /\ length result.1 = length tokens
  /\ (forall j t, tokens !! j = Some t -> hasReference t = false ->
                  result.1 !! j = Some t)
  /\ (forall j t r' v,
         tokens !! j = Some t -> references t = Some r' ->
         truthy r' = true -> reaches tokens r' maxDepth v ->
         result.1 !! j = Some (setValue v t)).
Proof.
  cbn zeta. rewrite resolveReferences_pointwise. cbn [fst snd].
  assert (Hres : resolved tokens token = token).
  { unfold resolved. now rewrite Href, Htruthy, (follow_longer _ _ _ Hlong). }
  assert (Hw : warned tokens token = [CircularReference (name token)]).
  { unfold warned. now rewrite Href, Htruthy, (follow_longer _ _ _ Hlong). }
  repeat split.
  - now rewrite list_lookup_fmap, Hi; cbn; rewrite Hres.
  - apply in_concat. exists (warned tokens token). split.
    + apply in_map. apply list_elem_of_In. eapply list_elem_of_lookup_2, Hi.
    + rewrite Hw. now left.
  - apply length_map.
  - intros j t Hj Hno. rewrite list_lookup_fmap, Hj. cbn. f_equal.
    unfold resolved. unfold hasReference, truthyOpt in Hno.
    destruct (references t) as [r'|]; [now rewrite Hno | reflexivity].
  - intros j t r' v Hj Hr' Ht' Hreach.
    rewrite list_lookup_fmap, Hj. cbn. f_equal.
    unfold resolved. now rewrite Hr', Ht', (follow_reaches _ _ _ _ Hreach).
Qed.

End WithValue.

End ResolverFacts.

Module ClassifierFacts.
Import JsString JsObject JsObjectFacts.

(** *** The legacy classifier *)

Section Legacy.
Import LegacyClassifier.
Context {V : Type}.

Abbreviation LTok := (LegacyToken V).

Lemma classifyStep_get (tokens : obj LTok) acc k t k' :
  k <> k' ->
  get k' (classifyStep tokens acc (k, t)).1 = get k' acc.1
  /\ get k' (classifyStep tokens acc (k, t)).2 = get k' acc.2.
Proof.
  intros Hne. destruct acc as [p s]. cbn.
  destruct (truthyOpt (references t)); [|cbn; now rewrite get_set_ne].
  destruct (String.eqb (type t) "dimension" && referencesDimension tokens t);
    cbn; now rewrite get_set_ne.
Qed.

Lemma classifyStep_here (tokens : obj LTok) acc k t :
  (if legacyPrimitive tokens t
   then get k (classifyStep tokens acc (k, t)).1
   else get k (classifyStep tokens acc (k, t)).2) = Some t
  /\ (if legacyPrimitive tokens t
      then get k (classifyStep tokens acc (k, t)).2 = get k acc.2
      else get k (classifyStep tokens acc (k, t)).1 = get k acc.1).
Proof.
  destruct acc as [p s]. unfold legacyPrimitive. cbn.
  destruct (truthyOpt (references t)); cbn; [|now rewrite get_set_eq].
  destruct (String.eqb (type t) "dimension" && referencesDimension tokens t);
    cbn; now rewrite get_set_eq.
Qed.

Lemma classify_fold (tokens : obj LTok) (l : obj LTok) acc :
  NoDup (keys l) ->
  let result := fold_left (classifyStep tokens) l acc in
  (forall k, ~ In k (keys l) ->
             get k result.1 = get k acc.1 /\ get k result.2 = get k acc.2)
  /\ (forall k t, In (k, t) l ->
        if legacyPrimitive tokens t
        then get k result.1 = Some t /\ get k result.2 = get k acc.2
        else get k result.2 = Some t /\ get k result.1 = get k acc.1).
Proof.
  revert acc. induction l as [|[k0 t0] l IH]; intros acc Hnd; cbn zeta.
  - split; [done|]. intros k t [].
  - cbn [fold_left]. unfold keys in Hnd. cbn in Hnd.
    apply NoDup_cons in Hnd as [Hk0 Hnd]. rewrite list_elem_of_In in Hk0.
    destruct (IH (classifyStep tokens acc (k0, t0)) Hnd) as [Hout Hin].
    split.
    + intros k Hk. cbn in Hk.
      destruct (Hout k) as [H1 H2]; [tauto|].
      destruct (classifyStep_get tokens acc k0 t0 k) as [H3 H4]; [tauto|].
      split; congruence.
    + intros k t [[= <- <-]|Hkt].
      * destruct (Hout k0 Hk0) as [H1 H2].
        destruct (classifyStep_here tokens acc k0 t0) as [H3 H4].
        destruct (legacyPrimitive tokens t0); split; congruence.
      * specialize (Hin k t Hkt).
        assert (k0 <> k).
        { intros ->. apply Hk0. unfold keys.
          change k with (fst (k, t)). now apply in_map. }
        destruct (classifyStep_get tokens acc k0 t0 k) as [H3 H4]; [done|].
        destruct (legacyPrimitive tokens t); destruct Hin; split; congruence.
Qed.

(** The legacy classifier follows the rule of the claim: a token with a
    reference is semantic unless it is a dimension whose target is a
    dimension, in which case it is primitive. *)
Lemma legacy_reference_rule (tokens : obj LTok) k t :
  NoDup (keys tokens) -> In (k, t) tokens ->
  truthyOpt (references t) = true ->
  let '(primitives, semantics) := classifyTokens tokens in
  if String.eqb (type t) "dimension" && referencesDimension tokens t
  then get k primitives = Some t /\ get k semantics = None
  else get k semantics = Some t /\ get k primitives = None.
Proof.
  intros Hnd Hin Href.
  destruct (classify_fold tokens tokens ([], []) Hnd) as [_ H].
  specialize (H k t Hin). unfold legacyPrimitive in H. rewrite Href in H.
  cbn [negb orb] in H. unfold classifyTokens.
  destruct (fold_left (classifyStep tokens) tokens ([], [])) as [p s].
  exact H.
Qed.

End Legacy.

(** *** The universal classifier *)

Section Universal.
Import Token Classifier.
Context {V : Type}.

Abbreviation Tok := (StandardToken V).

Lemma classify_fold_universal (l : list Tok) acc :
  let result := fold_left classifyStep l acc in
  (forall t, In t result.1 -> In t acc.1 \/ (In t l /\ hasReference t = false))
  /\ (forall t, In t acc.2 \/ (In t l /\ hasReference t = true) ->
                In t result.2).
Proof.
  revert acc. induction l as [|t0 l IH]; intros [p s]; cbn zeta.
  - cbn. split; [tauto|]. intros t [H|[[] _]]. exact H.
  - cbn [fold_left]. destruct (IH (classifyStep (p, s) t0)) as [H1 H2].
    assert (Hstep :
      (hasReference t0 = true /\ classifyStep (p, s) t0 = (p, s ++ [t0]))
      \/ (hasReference t0 = false
          /\ (classifyStep (p, s) t0 = (p ++ [t0], s)
              \/ classifyStep (p, s) t0 = (p, s ++ [t0])))).
    { unfold classifyStep. destruct (hasReference t0); [left; done|right].
      split; [done|]. destruct (isPrimitivePattern _); [left; done|].
      destruct (isSemanticPattern _); [right|left]; done. }
    split.
    + intros t Ht. destruct (H1 t Ht) as [H|[H Hr]]; [|right; cbn; tauto].
      destruct Hstep as [[Hr He]|[Hr [He|He]]]; rewrite He in H;
        cbn [fst snd] in H.
      * left; exact H.
      * apply in_app_iff in H as [H|[<-|[]]]; [left; exact H|].
        right. cbn. tauto.
      * left; exact H.
    + intros t Ht. apply H2.
      destruct Ht as [Ht|[[<-|Ht] Hr]].
      * left. destruct Hstep as [[_ He]|[_ [He|He]]]; rewrite He;
          cbn [fst snd] in *; rewrite ?in_app_iff; tauto.
      * left. destruct Hstep as [[_ He]|[Hr0 _]]; [|congruence].
        rewrite He. cbn [fst snd]. rewrite in_app_iff. cbn. tauto.
      * right. tauto.
Qed.

(** Whatever the types, the universal classifier files every token that
    holds a reference under the semantic tokens and none of them under the
    primitive ones. *)
Lemma universal_reference_always_semantic (tokens : list Tok) t :
  In t tokens -> hasReference t = true ->
  In t (classifyTokens tokens).2 /\ ~ In t (classifyTokens tokens).1.
Proof.
  intros Hin Href.
  destruct (classify_fold_universal tokens ([], [])) as [H1 H2].
  split.
  - apply H2. right. done.
  - intros H. destruct (H1 t H) as [[]|[_ Hno]]. congruence.
Qed.

End Universal.

(** C6 (as the code has it).  The legacy classifier labels a token that
    holds a reference semantic, unless the token and its reference target
    are both of type dimension, in which case it labels it primitive.  The
    classifier of the universal parser labels every token that holds a
    reference semantic, whatever the types, and before any of its
    keyword/pattern rules is looked at. *)
Theorem classifiers_reference_rule :
  (forall (tokens : obj (LegacyClassifier.LegacyToken string)) k t,
      NoDup (keys tokens) -> In (k, t) tokens ->
      truthyOpt (LegacyClassifier.references t) = true ->
      if String.eqb (LegacyClassifier.type t) "dimension"
         && LegacyClassifier.referencesDimension tokens t
      then get k (LegacyClassifier.classifyTokens tokens).1 = Some t
           /\ get k (LegacyClassifier.classifyTokens tokens).2 = None
      else get k (LegacyClassifier.classifyTokens tokens).2 = Some t
           /\ get k (LegacyClassifier.classifyTokens tokens).1 = None)
  /\ (forall (tokens : list (Token.StandardToken string)) t,
         In t tokens -> Token.hasReference t = true ->
         In t (Classifier.classifyTokens tokens).2
         /\ ~ In t (Classifier.classifyTokens tokens).1).
Proof.
  split.
  - intros tokens k t Hnd Hin Href.
    pose proof (legacy_reference_rule tokens k t Hnd Hin Href) as H.
    destruct (LegacyClassifier.classifyTokens tokens) as [p s0]. exact H.
  - intros tokens t. apply universal_reference_always_semantic.
Qed.

Lemma classifiers_reference_rule_witness :
  get "Gap.M"
      (LegacyClassifier.classifyTokens Samples.legacyDimensionTokens).1
  = Some Samples.legacyGapM
  /\ In Samples.gapM (Classifier.classifyTokens Samples.dimensionTokens).2.
Proof.
  destruct classifiers_reference_rule as [Hlegacy Huniversal].
  split.
  - apply (Hlegacy Samples.legacyDimensionTokens "Gap.M" Samples.legacyGapM).
    + apply (bool_decide_unpack _). vm_compute. reflexivity.
    + right. now left.
    + reflexivity.
  - apply (Huniversal Samples.dimensionTokens Samples.gapM).
    + right. now left.
    + reflexivity.
Defined.

(** The universal classifier files the gap "gap-m", a dimension that
    references the dimension "scale-200", under the semantic tokens. *)
Lemma dimension_reference_counterexample :
  Token.type Samples.gapM = "dimension"
  /\ Token.references Samples.gapM = Some (Token.name Samples.scale200)
  /\ Token.type Samples.scale200 = "dimension"
  /\ Classifier.classifyTokens Samples.dimensionTokens
     = ([Samples.scale200], [Samples.gapM])
  /\ ~ Classifier.dimensionReferenceIsPrimitive.
Proof.
  repeat split.
  intros H.
  specialize (H Samples.dimensionTokens Samples.gapM Samples.scale200).
  cbn in H. destruct H as [H|[]]; try tauto. discriminate H.
Qed.

End ClassifierFacts.

Module ResolverExamples.
Import JsString Token Resolver ResolverFacts.

Lemma cyclic_chain_longer :
  longerThan Samples.cyclicTokens "b" maxDepth.
Proof.
  unfold maxDepth.
  do 5 (eapply (longer_S _ "b"); [reflexivity | reflexivity | reflexivity
                                  | reflexivity |];
        eapply (longer_S _ "a"); [reflexivity | reflexivity | reflexivity
                                  | reflexivity |]).
  apply longer_O.
Defined.

Lemma circular_reference_nonfatal_witness :
  (resolveReferences Samples.cyclicTokens).1 !! 0 = Some Samples.tokenA
  /\ In (CircularReference "a") (resolveReferences Samples.cyclicTokens).2
  /\ (resolveReferences Samples.cyclicTokens).1 !! 3
     = Some (setValue "#ffffff" Samples.tokenD).
Proof.
  destruct (circular_reference_nonfatal Samples.cyclicTokens 0 Samples.tokenA
              "b" eq_refl eq_refl eq_refl cyclic_chain_longer)
    as (Hsame & Hwarn & _ & _ & Hothers).
  split; [exact Hsame|]. split; [exact Hwarn|].
  apply (Hothers 3 Samples.tokenD "c" "#ffffff"); try reflexivity.
  unfold maxDepth. eapply (reaches_here _ "c" Samples.tokenC); reflexivity.
Defined.

(** Scenario D: a chain A → B → C ending at a literal is resolved in one
    pass. *)
Example chain_resolves_in_one_pass :
  let tokens := [Samples.token "A" "{B}" "color" (Some "B");
                 Samples.token "B" "{C}" "color" (Some "C");
                 Samples.token "C" "#eaeaea" "color" None] in
  map value (resolveReferences tokens).1 = ["#eaeaea"; "#eaeaea"; "#eaeaea"]
  /\ (resolveReferences tokens).2 = [].
Proof. vm_compute. split; reflexivity. Qed.

End ResolverExamples.

Module DetectFacts.
Import JsString Json Detect.

(** First match wins: a document reported as Tokens Studio, Style Dictionary
    or simple did not pass the W3C test of the code. *)
Lemma w3c_test_comes_first data filename d :
  detectTokenFormat data filename = Some d ->
  format d <> "w3c" ->
  hasW3CFormat data = false.
Proof.
  unfold detectTokenFormat. destruct (hasW3CFormat data); [|reflexivity].
  intros [= <-]. cbn. congruence.
Qed.

Lemma w3c_test_decides data filename :
  hasW3CFormat data = true ->
  option_map format (detectTokenFormat data filename) = Some "w3c".
Proof. unfold detectTokenFormat. now intros ->. Qed.

(** C9.  The Tokens Studio document
    [{ colors: { red: { type: 'color', value: '#ff0000' } } }] holds no key
    starting with [$type] or [$value] and no string in the reference syntax,
    yet the W3C test of the code accepts it (the braces of the nested objects
    themselves match the reference pattern), so it is detected as w3c and
    never reaches the Tokens Studio test, which it would pass. *)
Theorem nested_document_detected_as_w3c :
  w3cShape Samples.tokensStudioDocument = false
  /\ hasW3CFormat Samples.tokensStudioDocument = true
  /\ option_map format
       (detectTokenFormat Samples.tokensStudioDocument "tokens.json")
     = Some "w3c"
  /\ hasTokensStudioFormat Samples.tokensStudioDocument = true.
Proof. vm_compute. repeat split. Qed.

End DetectFacts.

Module ColorFacts.
Import JsString JsObject JsObjectFacts Color.

(** *** Palette naming *)

Lemma findAvailable_in used names :
  names <> [] -> In (findAvailable used names) names.
Proof.
  intros Hne. unfold findAvailable.
  destruct (find _ names) as [n|] eqn:Hf.
  - apply find_some in Hf. tauto.
  - destruct names; [done|]. now left.
Qed.

Lemma findAvailable_family used names :
  names <> [] ->
  forallb (fun n => existsb (String.eqb n) familyNames) names = true ->
  In (findAvailable used names) familyNames.
Proof.
  intros Hne Hall. pose proof (findAvailable_in used names Hne) as Hin.
  rewrite forallb_forall in Hall. specialize (Hall _ Hin).
  apply existsb_exists in Hall as (m & Hm & Heq).
  apply String.eqb_eq in Heq. now subst.
Qed.

Lemma Qltb_lt x y : Qltb x y = true <-> (x < y)%Q.
Proof.
  unfold Qltb. rewrite negb_true_iff. split.
  - intros H. apply Qnot_le_lt. intros Hle.
    apply Qle_bool_iff in Hle. congruence.
  - intros H. destruct (Qle_bool y x) eqn:E; [|reflexivity].
    apply Qle_bool_iff in E. exfalso. eapply Qlt_not_le; eauto.
Qed.

Lemma Qltb_ge x y : Qltb x y = false <-> (y <= x)%Q.
Proof.
  unfold Qltb. rewrite negb_false_iff. apply Qle_bool_iff.
Qed.

Lemma Qle_bool_gt x y : Qle_bool x y = false <-> (y < x)%Q.
Proof.
  split.
  - intros H. apply Qnot_le_lt. intros Hle.
    apply Qle_bool_iff in Hle. congruence.
  - intros H. destruct (Qle_bool x y) eqn:E; [|reflexivity].
    apply Qle_bool_iff in E. exfalso. eapply Qlt_not_le; eauto.
Qed.

(** The hue branches cover every hue: whatever the hue, saturation and
    lightness, the name comes from one of the buckets. *)
Lemma nameByHue_family used h s l : In (nameByHue used h s l) familyNames.
Proof.
  unfold nameByHue.
  repeat match goal with
         | |- In (if ?c then _ else _) _ => destruct c eqn:?
         end;
    try (apply findAvailable_family; [discriminate | reflexivity]).
  exfalso.
  repeat match goal with
         | H : _ || _ = false |- _ => apply orb_false_iff in H as [? ?]
         | H : _ && _ = false |- _ => apply andb_false_iff in H
         end.
  repeat match goal with
         | H : Qltb _ _ = false |- _ => apply Qltb_ge in H
         | H : Qle_bool _ _ = false |- _ => apply Qle_bool_gt in H
         | H : _ \/ _ |- _ => destruct H
         end;
    try (eapply Qlt_irrefl, Qlt_le_trans; eassumption);
    try (eapply Qlt_irrefl, Qle_lt_trans; eassumption).
Qed.

Lemma unknown_not_family : ~ In "unknown" familyNames.
Proof.
  intros H. apply list_elem_of_In in H.
  revert H. apply (bool_decide_unpack _). vm_compute. reflexivity.
Qed.

(** C10.  The hue buckets leave no gap: for every hue, saturation and
    lightness the name is one of the family names of the buckets, never the
    fallback; so the palette-naming function returns "unknown" exactly when
    the middle hex string is missing or does not parse as a six-digit
    colour. *)
Theorem getPureColorName_unknown_only_unparsed :
  (forall used h s l,
      In (nameByHue used h s l) familyNames
      /\ nameByHue used h s l <> "unknown")
  /\ (forall hexValues existingPrimitives,
         getPureColorName hexValues existingPrimitives = "unknown"
         <-> (hexValues !! (length hexValues / 2)%nat) ≫= hexToRgb = None)
  /\ (forall hexValues existingPrimitives mainHex rgb,
         hexValues !! (length hexValues / 2)%nat = Some mainHex ->
         hexToRgb mainHex = Some rgb ->
         In (getPureColorName hexValues existingPrimitives) familyNames).
Proof.
  assert (Hfam : forall used h s l, nameByHue used h s l <> "unknown").
  { intros used h s l Heq. apply unknown_not_family. rewrite <- Heq.
    apply nameByHue_family. }
  split; [|split].
  - intros. split; [apply nameByHue_family | apply Hfam].
  - intros hexValues existing. unfold getPureColorName.
    destruct (hexValues !! _) as [mainHex|]; cbn; [|done].
    destruct (hexToRgb mainHex) as [c|]; [|done].
    split; [|discriminate]. intros H. now apply Hfam in H.
  - intros hexValues existing mainHex c Hmain Hrgb. unfold getPureColorName.
    rewrite Hmain, Hrgb. apply nameByHue_family.
Qed.

(** *** Nearest primitive *)

Lemma closestStep_over hexValue seen acc entry :
  closestOver hexValue seen acc ->
  closestOver hexValue (seen ++ [entry]) (closestStep hexValue acc entry).
Proof.
  destruct entry as [name value]. destruct acc as [cn cd].
  unfold closestOver, closestStep. cbn [fst snd].
  destruct (colorDistanceSq hexValue value) as [d|] eqn:Hd;
    destruct cd as [c|]; cbn [closer fst snd].
  - destruct (Z.ltb_spec d c) as [Hlt|Hge]; cbn [fst snd].
    + intros [_ Hmin]. split.
      * exists name, value. rewrite in_app_iff. cbn. tauto.
      * intros n v d' Hin Hd'. apply in_app_iff in Hin as [Hin|[[= <- <-]|[]]].
        -- specialize (Hmin n v d' Hin Hd'). lia.
        -- rewrite Hd in Hd'. injection Hd' as <-. lia.
    + intros [(n0 & v0 & Hn & Hin0 & Hd0) Hmin]. split.
      * exists n0, v0. rewrite in_app_iff. tauto.
      * intros n v d' Hin Hd'. apply in_app_iff in Hin as [Hin|[[= <- <-]|[]]].
        -- exact (Hmin n v d' Hin Hd').
        -- rewrite Hd in Hd'. injection Hd' as <-. lia.
  - intros [_ Hnone]. split.
    + exists name, value. rewrite in_app_iff. cbn. tauto.
    + intros n v d' Hin Hd'. apply in_app_iff in Hin as [Hin|[[= <- <-]|[]]].
      * rewrite (Hnone n v Hin) in Hd'. discriminate.
      * rewrite Hd in Hd'. injection Hd' as <-. lia.
  - intros [(n0 & v0 & Hn & Hin0 & Hd0) Hmin]. split.
    + exists n0, v0. rewrite in_app_iff. tauto.
    + intros n v d' Hin Hd'. apply in_app_iff in Hin as [Hin|[[= <- <-]|[]]].
      * exact (Hmin n v d' Hin Hd').
      * rewrite Hd in Hd'. discriminate.
  - intros [Hn Hnone]. split; [exact Hn|].
    intros n v Hin. apply in_app_iff in Hin as [Hin|[[= <- <-]|[]]].
    + exact (Hnone n v Hin).
    + exact Hd.
Qed.

Lemma closest_fold hexValue rest seen acc :
  closestOver hexValue seen acc ->
  closestOver hexValue (seen ++ rest)
              (fold_left (closestStep hexValue) rest acc).
Proof.
  revert seen acc. induction rest as [|entry rest IH]; intros seen acc Hacc.
  - now rewrite app_nil_r.
  - cbn [fold_left].
    replace (seen ++ entry :: rest) with ((seen ++ [entry]) ++ rest)
      by now rewrite <- app_assoc.
    apply IH, closestStep_over, Hacc.
Qed.

(** What [findClosestPrimitive] returns is a primitive at the least
    distance, and that distance is within the threshold. *)
Lemma findClosestPrimitive_spec hexValue primitiveTokens maxDistance n d :
  findClosestPrimitive hexValue primitiveTokens maxDistance = Some (n, d) ->
  (exists v, In (n, v) primitiveTokens
             /\ colorDistanceSq hexValue v = Some d)
  /\ (0 <= maxDistance /\ d <= maxDistance * maxDistance)%Z
  /\ (forall n' v' d', In (n', v') primitiveTokens ->
                       colorDistanceSq hexValue v' = Some d' -> (d <= d')%Z).
Proof.
  unfold findClosestPrimitive.
  pose proof (closest_fold hexValue primitiveTokens [] (None, None)) as H.
  cbn [app] in H.
  destruct (fold_left _ _ _) as [[cn|] [cd|]]; try discriminate.
  destruct (within cd maxDistance) eqn:Hw; [|discriminate].
  intros [= <- <-].
  destruct H as [(n0 & v0 & Hn & Hin & Hd) Hmin].
  { split; [reflexivity|]. intros ? ? []. }
  cbn in Hn. injection Hn as <-.
  split; [eauto|]. split; [|exact Hmin].
  unfold within in Hw. apply andb_prop in Hw as [H1 H2].
  apply Z.leb_le in H1, H2. lia.
Qed.

(** *** Sorting *)

Lemma insertSorted_perm x sorted : Permutation (insertSorted x sorted) (x :: sorted).
Proof.
  induction sorted as [|y ys IH]; cbn; [reflexivity|].
  destruct (0 <? compareLightness y x)%Z; [reflexivity|].
  rewrite IH. apply perm_swap.
Qed.

Lemma sort_fold_perm colors acc :
  Permutation (fold_left (fun sorted x => insertSorted x sorted) colors acc)
              (acc ++ colors).
Proof.
  revert acc. induction colors as [|c cs IH]; intros acc; cbn.
  - now rewrite app_nil_r.
  - rewrite IH, insertSorted_perm. apply Permutation_middle.
Qed.

(** The sorted array holds the colours of the group, each as often. *)
Lemma sortByLightness_perm colors :
  Permutation (sortByLightness colors) colors.
Proof. apply (sort_fold_perm colors []). Qed.

Lemma sortByLightness_values colors v :
  In v (map value (sortByLightness colors)) <-> In v (map value colors).
Proof.
  pose proof (Permutation_map value (sortByLightness_perm colors)) as H.
  split; apply Permutation_in; [exact H | symmetry; exact H].
Qed.

End ColorFacts.

Module SynthesisFacts.
Import JsString JsObject JsObjectFacts Color ColorFacts.

Lemma synthesized_app a b :
  synthesized (a ++ b) = synthesized a ++ synthesized b.
Proof.
  induction a as [|e a IH]; cbn; [reflexivity|].
  destruct e; cbn; now rewrite IH.
Qed.

Lemma get_set_is_Some {A} k k' (x : A) o :
  is_Some (get k o) -> is_Some (get k (set k' x o)).
Proof.
  intros H. destruct (string_dec k' k) as [->|Hne].
  - rewrite get_set_eq. eauto.
  - now rewrite get_set_ne.
Qed.

Section WithPrimitives.
Variable primitiveTokens : obj string.

Abbreviation closestName := (Color.closestName primitiveTokens).
Abbreviation targeted := (Color.targeted primitiveTokens).
Abbreviation faithful := (Color.faithful primitiveTokens).

(** *** The closeness pass over one group *)

Lemma matchAll_spec colors mp pr b mp' pr' :
  matchAll primitiveTokens colors mp pr = (b, mp', pr') ->
  (forall v, mp' !! v = mp !! v
             \/ exists n, closestName v n /\ mp' !! v = Some n)
  /\ (forall v, ~ In v (map value colors) -> mp' !! v = mp !! v)
  /\ (b = true -> forall c, In c colors ->
        exists n, closestName (value c) n /\ mp' !! value c = Some n)
  /\ ((forall c, In c colors ->
         findClosestPrimitive (value c) primitiveTokens threshold <> None)
      -> b = true)
  /\ (exists ext, pr' = pr ++ ext /\ synthesized ext = []).
Proof.
  revert mp pr. induction colors as [|c cs IH]; intros mp pr; cbn [matchAll].
  - intros [= <- <- <-]. repeat split; try tauto.
    + intros _ c [].
    + exists []. now rewrite app_nil_r.
  - destruct (findClosestPrimitive (value c) primitiveTokens threshold)
      as [[n d]|] eqn:Hc.
    + intros Hrec. cbn [fst] in Hrec.
      destruct (IH _ _ Hrec) as (Hd & Hframe & Hcover & Hall & Hlog).
      assert (Hhere : exists n', closestName (value c) n'
                                 /\ mp' !! value c = Some n').
      { destruct (Hd (value c)) as [Heq|Hn]; [|exact Hn].
        exists n. split; [exists d; exact Hc|].
        rewrite Heq. apply lookup_insert_eq. }
      split; [|split; [|split; [|split]]].
      * intros v. destruct (Hd v) as [Heq|Hn]; [|right; exact Hn].
        destruct (string_dec (value c) v) as [<-|Hne]; [right; exact Hhere|].
        left. now rewrite Heq, lookup_insert_ne.
      * intros v Hv. cbn in Hv. rewrite Hframe by tauto.
        apply lookup_insert_ne. tauto.
      * intros Hb c' [<-|Hin]; [exact Hhere | now apply Hcover].
      * intros Hclose. apply Hall. intros c' Hin. apply Hclose. now right.
      * destruct Hlog as (ext & -> & Hext).
        exists (Mapping (fullPath c) (value c) n :: ext).
        now rewrite <- app_assoc.
    + intros [= <- <- <-]. repeat split; try tauto; try discriminate.
      * intros Hclose. exfalso. apply (Hclose c); [now left | exact Hc].
      * exists []. now rewrite app_nil_r.
Qed.

(** *** Writing a palette *)

Lemma writePalette_printed p i cs st :
  exists ext, printed (writePalette p i cs st) = printed st ++ ext.
Proof.
  revert i st. induction cs as [|c cs IH]; intros i st; cbn [writePalette].
  - exists []. now rewrite app_nil_r.
  - destruct (IH (S i) (mkExtraction
        (set (p +:+ "-" +:+ scaleIndex i) (value c) (hardcodedPrimitives st))
        (<[value c := p +:+ "-" +:+ scaleIndex i]> (mappings st))
        (printed st ++ [PaletteEntry (p +:+ "-" +:+ scaleIndex i) (value c)
                                     (name c)]))) as [ext Hext].
    rewrite Hext. cbn [printed]. rewrite <- app_assoc. eauto.
Qed.

Lemma writePalette_frame p i cs st v :
  ~ In v (map value cs) ->
  mappings (writePalette p i cs st) !! v = mappings st !! v.
Proof.
  revert i st. induction cs as [|c cs IH]; intros i st Hv;
    cbn [writePalette]; [reflexivity|].
  cbn in Hv. rewrite IH by tauto. cbn [mappings].
  apply lookup_insert_ne. tauto.
Qed.

Lemma writePalette_entries p i cs st k x :
  In (k, x) (hardcodedPrimitives (writePalette p i cs st)) ->
  In (k, x) (hardcodedPrimitives st) \/ In x (map value cs).
Proof.
  revert i st. induction cs as [|c cs IH]; intros i st;
    cbn [writePalette]; [tauto|].
  intros H. apply IH in H as [H|H]; [|right; cbn; tauto].
  cbn [hardcodedPrimitives] in H.
  apply in_set in H as [[_ ->]|H]; [right; cbn; tauto | left; exact H].
Qed.

Lemma writePalette_keys p i cs st k :
  is_Some (get k (hardcodedPrimitives st)) ->
  is_Some (get k (hardcodedPrimitives (writePalette p i cs st))).
Proof.
  revert i st. induction cs as [|c cs IH]; intros i st H;
    cbn [writePalette]; [exact H|].
  apply IH. cbn [hardcodedPrimitives]. now apply get_set_is_Some.
Qed.

Lemma writePalette_targets p i cs st v n :
  mappings (writePalette p i cs st) !! v = Some n ->
  mappings st !! v = Some n
  \/ is_Some (get n (hardcodedPrimitives (writePalette p i cs st))).
Proof.
  revert i st. induction cs as [|c cs IH]; intros i st;
    cbn [writePalette]; [tauto|].
  intros H. apply IH in H as [H|H]; [|right; exact H].
  cbn [mappings] in H.
  destruct (string_dec (value c) v) as [<-|Hne].
  - rewrite lookup_insert_eq in H. injection H as <-. right.
    apply writePalette_keys. cbn [hardcodedPrimitives].
    rewrite get_set_eq. eauto.
  - rewrite lookup_insert_ne in H by exact Hne. now left.
Qed.

Lemma writePalette_covers p i cs st v :
  In v (map value cs) \/ is_Some (mappings st !! v) ->
  is_Some (mappings (writePalette p i cs st) !! v).
Proof.
  revert i st. induction cs as [|c cs IH]; intros i st;
    cbn [writePalette].
  - intros [[]|H]. exact H.
  - intros H. apply IH. cbn [mappings].
    destruct (string_dec (value c) v) as [<-|Hne].
    + right. rewrite lookup_insert_eq. eauto.
    + destruct H as [[H|H]|H]; [done | now left |].
      right. now rewrite lookup_insert_ne.
Qed.

Lemma writePalette_faithful p i cs st :
  keysLogged st -> faithful st ->
  NoDup (synthesized (printed (writePalette p i cs st))) ->
  keysLogged (writePalette p i cs st) /\ faithful (writePalette p i cs st).
Proof.
  revert i st. induction cs as [|c cs IH]; intros i st Hlog Hfaith Hnd;
    cbn [writePalette] in *; [tauto|].
  set (k := p +:+ "-" +:+ scaleIndex i) in *.
  set (st1 := mkExtraction (set k (value c) (hardcodedPrimitives st))
                           (<[value c := k]> (mappings st))
                           (printed st ++ [PaletteEntry k (value c) (name c)]))
    in *.
  assert (Hfresh : get k (hardcodedPrimitives st) = None).
  { destruct (get k (hardcodedPrimitives st)) eqn:Hg; [|reflexivity].
    exfalso. assert (Hin : In k (synthesized (printed st))) by
      (apply Hlog; rewrite Hg; eauto).
    destruct (writePalette_printed p (S i) cs st1) as [ext Hext].
    rewrite Hext in Hnd. subst st1. cbn [printed] in Hnd.
    rewrite !synthesized_app in Hnd. cbn in Hnd.
    apply NoDup_app in Hnd as [Hnd _].
    apply NoDup_app in Hnd as (_ & Hdisj & _).
    apply (Hdisj k); [now apply list_elem_of_In | now left]. }
  apply IH; [| |exact Hnd].
  - intros k' Hk'. subst st1. cbn [hardcodedPrimitives printed] in *.
    rewrite synthesized_app, in_app_iff. cbn.
    destruct (string_dec k k') as [->|Hne]; [tauto|].
    rewrite get_set_ne in Hk' by exact Hne. left. now apply Hlog.
  - intros v n Hv. subst st1. cbn [hardcodedPrimitives mappings] in *.
    destruct (string_dec (value c) v) as [<-|Hne].
    + rewrite lookup_insert_eq in Hv. injection Hv as <-.
      right. apply get_set_eq.
    + rewrite lookup_insert_ne in Hv by exact Hne.
      destruct (Hfaith v n Hv) as [H|H]; [now left|]. right.
      rewrite get_set_ne; [exact H|]. intros ->. congruence.
Qed.

(** *** One group *)

Lemma processColors_printed st entry :
  exists ext, printed (processColors primitiveTokens st entry)
              = printed st ++ ext.
Proof.
  destruct entry as [g colors]. unfold processColors.
  destruct (length colors =? 0)%nat; [exists []; now rewrite app_nil_r|].
  destruct (matchAll _ _ _ _) as [[b mp'] pr'] eqn:Hm.
  destruct (matchAll_spec _ _ _ _ _ _ Hm) as (_ & _ & _ & _ & ext & -> & _).
  destruct b; cbn [printed]; [eauto|].
  match goal with
  | |- context [writePalette ?p ?i ?cs ?s] =>
      destruct (writePalette_printed p i cs s) as [ext' ->]
  end.
  cbn [printed]. rewrite <- !app_assoc. eauto.
Qed.

Lemma processColors_targeted st g colors :
  targeted st ->
  let st' := processColors primitiveTokens st (g, colors) in
  targeted st'
  /\ (forall c, In c colors -> is_Some (mappings st' !! value c))
  /\ (forall v, is_Some (mappings st !! v) -> is_Some (mappings st' !! v)).
Proof.
  intros Ht. cbn zeta. unfold processColors.
  destruct colors as [|c0 cs] eqn:Hcolors.
  { cbn. split; [exact Ht|]. split; [intros c []|tauto]. }
  rewrite <- Hcolors. replace (length colors =? 0)%nat with false
    by (subst colors; reflexivity).
  clear c0 cs Hcolors.
  destruct (matchAll _ _ _ _) as [[b mp'] pr'] eqn:Hm.
  destruct (matchAll_spec _ _ _ _ _ _ Hm) as (Hd & _ & Hcover & _ & _).
  assert (Hmono : forall v, is_Some (mappings st !! v) -> is_Some (mp' !! v)).
  { intros v Hv. destruct (Hd v) as [->|(n & _ & ->)]; eauto. }
  assert (Hmid : forall v n, mp' !! v = Some n ->
            closestName v n \/ is_Some (get n (hardcodedPrimitives st))).
  { intros v n Hv. destruct (Hd v) as [Heq|(n' & Hn' & Heq)].
    - apply Ht. now rewrite <- Heq.
    - left. congruence. }
  destruct b.
  - cbn [mappings hardcodedPrimitives]. split; [exact Hmid|].
    split; [|exact Hmono].
    intros c Hc. destruct (Hcover eq_refl c Hc) as (n & _ & ->). eauto.
  - split; [|split].
    + intros v n Hv. apply writePalette_targets in Hv as [Hv|Hv];
        [|right; exact Hv].
      cbn [mappings] in Hv. destruct (Hmid v n Hv) as [H|H]; [now left|].
      right. now apply writePalette_keys.
    + intros c Hc. apply writePalette_covers. left.
      apply sortByLightness_values. now apply in_map.
    + intros v Hv. apply writePalette_covers. right. cbn [mappings].
      now apply Hmono.
Qed.

Lemma processColors_faithful st g colors :
  keysLogged st -> faithful st ->
  NoDup (synthesized (printed (processColors primitiveTokens st (g, colors))))
  -> keysLogged (processColors primitiveTokens st (g, colors))
     /\ faithful (processColors primitiveTokens st (g, colors)).
Proof.
  intros Hlog Hfaith. unfold processColors.
  destruct (length colors =? 0)%nat; [tauto|].
  destruct (matchAll _ _ _ _) as [[b mp'] pr'] eqn:Hm.
  destruct (matchAll_spec _ _ _ _ _ _ Hm)
    as (Hd & _ & _ & _ & ext & -> & Hext).
  assert (Hmid : forall v n, mp' !! v = Some n ->
            closestName v n \/ get n (hardcodedPrimitives st) = Some v).
  { intros v n Hv. destruct (Hd v) as [Heq|(n' & Hn' & Heq)].
    - apply Hfaith. now rewrite <- Heq.
    - left. congruence. }
  destruct b.
  - intros _. split; [|exact Hmid].
    intros k Hk. cbn [hardcodedPrimitives printed] in *.
    rewrite synthesized_app, in_app_iff. left. now apply Hlog.
  - apply writePalette_faithful; [|exact Hmid].
    intros k Hk. cbn [hardcodedPrimitives printed] in *.
    rewrite !synthesized_app, !in_app_iff. left. left. now apply Hlog.
Qed.

(** *** All groups *)

Lemma processGroups_printed groups st :
  exists ext, printed (processGroups primitiveTokens groups st)
              = printed st ++ ext.
Proof.
  revert st. induction groups as [|entry groups IH]; intros st;
    cbn [processGroups fold_left].
  - exists []. now rewrite app_nil_r.
  - destruct (IH (processColors primitiveTokens st entry)) as [ext Hext].
    unfold processGroups in Hext. rewrite Hext.
    destruct (processColors_printed st entry) as [ext' ->].
    rewrite <- app_assoc. eauto.
Qed.

Lemma processGroups_targeted groups st :
  targeted st ->
  let st' := processGroups primitiveTokens groups st in
  targeted st'
  /\ (forall g colors c, In (g, colors) groups -> In c colors ->
                         is_Some (mappings st' !! value c))
  /\ (forall v, is_Some (mappings st !! v) -> is_Some (mappings st' !! v)).
Proof.
  revert st. induction groups as [|[g colors] groups IH]; intros st Ht;
    cbn zeta; cbn [processGroups fold_left].
  - split; [exact Ht|]. split; [intros ? ? ? []|tauto].
  - destruct (processColors_targeted st g colors Ht) as (Ht1 & Hc1 & Hm1).
    destruct (IH _ Ht1) as (Ht2 & Hc2 & Hm2).
    split; [exact Ht2|]. split.
    + intros g' colors' c [[= <- <-]|Hin] Hc.
      * apply Hm2, Hc1, Hc.
      * eapply Hc2; eauto.
    + intros v Hv. apply Hm2, Hm1, Hv.
Qed.

Lemma processGroups_faithful groups st :
  keysLogged st -> faithful st ->
  NoDup (synthesized (printed (processGroups primitiveTokens groups st))) ->
  faithful (processGroups primitiveTokens groups st).
Proof.
  revert st. induction groups as [|[g colors] groups IH];
    intros st Hlog Hfaith Hnd; cbn [processGroups fold_left] in *;
    [exact Hfaith|].
  destruct (processColors_faithful st g colors Hlog Hfaith) as [Hl1 Hf1].
  { destruct (processGroups_printed groups
                (processColors primitiveTokens st (g, colors))) as [ext Hext].
    unfold processGroups in Hext. rewrite Hext, synthesized_app in Hnd.
    now apply NoDup_app in Hnd as [Hnd _]. }
  now apply IH.
Qed.

End WithPrimitives.
End SynthesisFacts.

Module SemanticColorsFacts.
Import JsString JsStringFacts JsObject Color SemanticColors.

(** *** The Figma transformer: semantic entries reference primitives *)

(** A mapping written by the synthesis is what the semantic emission looks
    up for a hardcoded value. *)
Lemma valueToPrimitive_mapping primitiveTokens mappings v n :
  mappings !! v = Some n -> truthy n = true ->
  valueToPrimitive primitiveTokens mappings !! v = Some n.
Proof.
  unfold valueToPrimitive. revert mappings.
  induction primitiveTokens as [|[name value] rest IH]; intros m Hv Hn;
    cbn [fold_left]; [exact Hv|].
  apply IH; [|exact Hn]. cbn [fst snd].
  destruct (truthyOpt (m !! value)) eqn:Ht; [exact Hv|].
  destruct (string_dec value v) as [->|Hne].
  - rewrite Hv in Ht. cbn in Ht. congruence.
  - now rewrite lookup_insert_ne.
Qed.

(** Every entry of the semantic style sheet of the Figma transformer has a
    value of the form [var(<primitive custom property>)]. *)
Lemma semanticLine_is_reference config key primitiveRef :
  semanticLine config (key, primitiveRef)
  = "  " +:+ buildCSSVar (cssPrefixSemantic config) key +:+ ": "
         +:+ ("var(" +:+ buildCSSVar (cssPrefixPrimitive config) primitiveRef
                     +:+ ")")
         +:+ ";" +:+ SemanticColors.newline.
Proof.
  unfold semanticLine. cbn [fst snd].
  now rewrite !append_assoc.
Qed.

(** Induction over a colours document. *)
Lemma tree_induction (P : tree -> Prop) :
  P Scalar ->
  (forall d children, Forall (fun kv => P kv.2) children ->
                      P (Node d children)) ->
  forall t, P t.
Proof.
  intros HS HN. fix IH 1. intros [|d children]; [exact HS|].
  apply HN. induction children as [|[k v] cs IHcs]; constructor;
    [apply IH | exact IHcs].
Qed.

Section WithConfig.
Variable config : Config.
Variable primitiveTokens : obj string.
Variable lookup : gmap string string.

#[local] Abbreviation allNamed :=
  (SemanticColors.allNamed primitiveTokens lookup).

Lemma allNamed_set k ref result :
  namesPrimitive primitiveTokens lookup ref -> allNamed result ->
  allNamed (set k ref result).
Proof.
  intros Href Hres k' ref' Hin.
  apply JsObjectFacts.in_set in Hin as [[_ ->]|Hin]; [exact Href|].
  now apply (Hres k').
Qed.

Lemma allNamed_assign result nested :
  allNamed result -> allNamed nested -> allNamed (assign result nested).
Proof.
  unfold assign. revert result.
  induction nested as [|[k ref] nested IH]; intros result Hres Hnested;
    cbn [fold_left]; [exact Hres|].
  apply IH.
  - apply allNamed_set; [|exact Hres]. apply (Hnested k). now left.
  - intros k' ref' Hin. apply (Hnested k'). now right.
Qed.

Lemma figmaRefToPrimitiveName_defined ref name :
  figmaRefToPrimitiveName ref primitiveTokens = Returns (Some name) ->
  definedIn primitiveTokens name = true.
Proof.
  unfold figmaRefToPrimitiveName.
  destruct (negb (isFigmaReference ref)); [discriminate|].
  destruct (split "." (insideBraces ref)) as [|group [|token rest]];
    try discriminate.
  intros [= H].
  repeat match type of H with
         | (if ?b then _ else _) = _ =>
             let Hb := fresh "Hb" in
             destruct b eqn:Hb; [injection H as <-; exact Hb|]
         end.
  discriminate H.
Qed.

Lemma processEntry_named recur prefix result entry result' :
  (forall p r, recur entry.2 p = Returns r -> allNamed r) ->
  allNamed result ->
  processEntry config primitiveTokens lookup recur prefix result entry
  = Returns result' ->
  allNamed result'.
Proof.
  destruct entry as [key value]. cbn [snd]. intros Hrecur Hres.
  unfold processEntry.
  destruct value as [|[tokenValue|] children].
  - now intros [= <-].
  - destruct (isFigmaReference tokenValue).
    + destruct (figmaRefToPrimitiveName tokenValue primitiveTokens)
        as [[name|]|] eqn:Hname; try discriminate; [|now intros [= <-]].
      destruct (truthy name) eqn:Ht; intros [= <-]; [|exact Hres].
      apply allNamed_set; [|exact Hres]. split; [exact Ht|]. left.
      now apply figmaRefToPrimitiveName_defined in Hname.
    + destruct (lookup !! tokenValue) as [name|] eqn:Hname;
        [|now intros [= <-]].
      destruct (truthy name) eqn:Ht; intros [= <-]; [|exact Hres].
      apply allNamed_set; [|exact Hres]. split; [exact Ht|]. right. eauto.
  - destruct (recur _ _) as [nested|] eqn:Hnested; [|discriminate].
    intros [= <-]. apply allNamed_assign; [exact Hres|].
    now apply (Hrecur _ _ Hnested).
Qed.

Lemma processEntries_named recur prefix entries result result' :
  Forall (fun kv => forall p r, recur kv.2 p = Returns r -> allNamed r)
         entries ->
  allNamed result ->
  processEntries config primitiveTokens lookup recur prefix entries result
  = Returns result' ->
  allNamed result'.
Proof.
  intros Hall. revert result.
  induction Hall as [|entry rest Hentry _ IH]; intros result Hres;
    cbn [processEntries]; [now intros [= <-]|].
  destruct (processEntry _ _ _ _ _ _ _) as [r|] eqn:Hr; [|discriminate].
  apply IH. eapply processEntry_named; eauto.
Qed.

Lemma processSemanticGroup_named groupData :
  forall prefix result,
    processSemanticGroup config primitiveTokens lookup groupData prefix
    = Returns result ->
    allNamed result.
Proof.
  induction groupData as [|d children IH] using tree_induction;
    intros prefix result; cbn [processSemanticGroup].
  - intros [= <-] k ref [].
  - apply processEntries_named; [exact IH|]. intros k ref [].
Qed.

Lemma processSemanticGroups_named colorsData groups acc result :
  (forall g tokens, In (g, tokens) acc -> allNamed tokens) ->
  processSemanticGroups config primitiveTokens lookup colorsData groups acc
  = Returns result ->
  forall g tokens, In (g, tokens) result -> allNamed tokens.
Proof.
  revert acc. induction groups as [|group rest IH]; intros acc Hacc;
    cbn [processSemanticGroups]; [now intros [= <-]|].
  destruct (field colorsData group) as [groupData|]; [|now apply IH].
  destruct (processSemanticGroup _ _ _ _ _) as [tokens|] eqn:Ht;
    [|discriminate].
  apply IH. intros g tokens' Hin.
  apply JsObjectFacts.in_set in Hin as [[_ ->]|Hin].
  - eapply processSemanticGroup_named; eauto.
  - now apply (Hacc g).
Qed.

End WithConfig.

End SemanticColorsFacts.

Module SynthesisClaims.
Import JsString JsObject JsObjectFacts Color ColorFacts SynthesisFacts.
Import SemanticColors SemanticColorsFacts.

Lemma closestName_functional primitiveTokens v n n' :
  closestName primitiveTokens v n -> closestName primitiveTokens v n' ->
  n = n'.
Proof. intros [d H] [d' H']. congruence. Qed.

Lemma processColors_close primitiveTokens st g colors v n :
  closestName primitiveTokens v n ->
  (In v (map value colors) ->
   forall c, In c colors ->
             findClosestPrimitive (value c) primitiveTokens threshold <> None)
  -> (forall k x, In (k, x) (hardcodedPrimitives st) -> x <> v) ->
  let st' := processColors primitiveTokens st (g, colors) in
  (forall k x, In (k, x) (hardcodedPrimitives st') -> x <> v)
  /\ (mappings st !! v = Some n -> mappings st' !! v = Some n)
  /\ (In v (map value colors) -> mappings st' !! v = Some n).
Proof.
  intros Hn Hclose Hhp. cbn zeta. unfold processColors.
  destruct colors as [|c0 cs] eqn:Hcolors.
  { cbn. split; [exact Hhp|]. split; [tauto|intros []]. }
  rewrite <- Hcolors in *.
  replace (length colors =? 0)%nat with false by (subst colors; reflexivity).
  clear c0 cs Hcolors.
  destruct (matchAll _ _ _ _) as [[b mp'] pr'] eqn:Hm.
  destruct (matchAll_spec _ _ _ _ _ _ _ Hm) as (_ & Hframe & Hcover & Hall & _).
  destruct (in_dec string_dec v (map value colors)) as [Hin|Hout].
  - rewrite (Hall (Hclose Hin)) in *. cbn [hardcodedPrimitives mappings].
    assert (Hv : mp' !! v = Some n).
    { apply in_map_iff in Hin as (c & <- & Hc).
      destruct (Hcover eq_refl c Hc) as (n' & Hn' & ->).
      f_equal. eapply closestName_functional; eauto. }
    tauto.
  - specialize (Hframe v Hout). destruct b.
    + cbn [hardcodedPrimitives mappings]. rewrite Hframe. tauto.
    + split; [|split; [|tauto]].
      * intros k x Hx. apply writePalette_entries in Hx as [Hx|Hx].
        -- now apply (Hhp k x).
        -- apply (proj1 (sortByLightness_values _ _)) in Hx.
           intros ->. exact (Hout Hx).
      * rewrite writePalette_frame by now rewrite sortByLightness_values.
        cbn [mappings]. now rewrite Hframe.
Qed.

Lemma processGroups_close primitiveTokens groups st v n :
  closestName primitiveTokens v n ->
  (forall g colors, In (g, colors) groups -> In v (map value colors) ->
     forall c, In c colors ->
               findClosestPrimitive (value c) primitiveTokens threshold
               <> None) ->
  (forall k x, In (k, x) (hardcodedPrimitives st) -> x <> v) ->
  let st' := processGroups primitiveTokens groups st in
  (forall k x, In (k, x) (hardcodedPrimitives st') -> x <> v)
  /\ (mappings st !! v = Some n
      \/ (exists g colors, In (g, colors) groups /\ In v (map value colors))
      -> mappings st' !! v = Some n).
Proof.
  intros Hn. revert st.
  induction groups as [|[g colors] groups IH]; intros st Hclose Hhp;
    cbn zeta; cbn [processGroups fold_left].
  - split; [exact Hhp|]. intros [H|(g & colors & [] & _)]. exact H.
  - destruct (processColors_close primitiveTokens st g colors v n Hn)
      as (Hhp1 & Hkeep & Hset); [|exact Hhp|].
    { apply (Hclose g colors). now left. }
    destruct (IH (processColors primitiveTokens st (g, colors)))
      as (Hhp2 & Hmap); [|exact Hhp1|].
    { intros g' colors' Hin. apply (Hclose g' colors'). now right. }
    split; [exact Hhp2|].
    intros [H|(g' & colors' & [[= <- <-]|Hin] & Hv)]; apply Hmap.
    + left. now apply Hkeep.
    + left. now apply Hset.
    + right. eauto.
Qed.







End SynthesisClaims.

Module EmitterFacts.
Import JsString JsStringFacts JsObject Json Token.

(** *** The universal parser: semantic entries hold resolved values *)

Section Universal.
Import Emitter.

(** Every entry the universal emitter writes, for either tier, holds the
    token's own value. *)
Lemma cssLine_is_literal prefix (token : StandardToken Value) :
  cssLine prefix token
  = "  " +:+ cssVarName prefix (name token) +:+ ": "
         +:+ cssValueOf (value token) +:+ ";" +:+ Emitter.newline.
Proof. reflexivity. Qed.

End Universal.




End EmitterFacts.

(** * Further properties of the colour functions *)

Module ColorExtras.
Import JsString JsObject JsObjectFacts Color ColorFacts ColorInvariants.

Lemma hexValue_range c v : hexValue c = Some v -> (0 <= v <= 15)%Z.
Proof.
  destruct c as [[] [] [] [] [] [] [] []]; vm_compute; intros [= <-];
    split; discriminate.
Qed.

Lemma hexValue_isHexDigit c :
  Detect.isHexDigit c = true <-> is_Some (hexValue c).
Proof.
  destruct c as [[] [] [] [] [] [] [] []]; vm_compute;
    (split; [intros H; first [discriminate H | eexists; reflexivity]
            | intros [v H]; first [discriminate H | reflexivity]]).
Qed.

Lemma hexValue_lowerChar c : hexValue (lowerChar c) = hexValue c.
Proof. destruct c as [[] [] [] [] [] [] [] []]; reflexivity. Qed.

Lemma hash_lowerChar c : Ascii.eqb (lowerChar c) "#" = Ascii.eqb c "#".
Proof. destruct c as [[] [] [] [] [] [] [] []]; reflexivity. Qed.

Lemma parsePair_range c1 c2 v : parsePair c1 c2 = Some v -> (0 <= v <= 255)%Z.
Proof.
  unfold parsePair.
  destruct (hexValue c1) as [hi|] eqn:H1; [|discriminate].
  destruct (hexValue c2) as [lo|] eqn:H2; [|discriminate].
  intros [= <-]. apply hexValue_range in H1, H2. lia.
Qed.

Lemma parsePair_lowerChar c1 c2 :
  parsePair (lowerChar c1) (lowerChar c2) = parsePair c1 c2.
Proof. unfold parsePair. now rewrite !hexValue_lowerChar. Qed.

Lemma parsePair_isHex c1 c2 :
  is_Some (parsePair c1 c2)
  <-> Detect.isHexDigit c1 = true /\ Detect.isHexDigit c2 = true.
Proof.
  rewrite !hexValue_isHexDigit. unfold parsePair.
  destruct (hexValue c1), (hexValue c2); split;
    try (intros [[? H] [? H']]); try (intros [? H]);
    try discriminate; eauto.
Qed.

(** The six characters that are parsed, when there are exactly six. *)
Lemma hexToRgb_digits hex :
  hexToRgb hex
  = match hexDigits hex with
    | String r1 (String r2 (String g1 (String g2 (String b1 (String b2
        EmptyString))))) =>
        match parsePair r1 r2, parsePair g1 g2, parsePair b1 b2 with
        | Some r, Some g, Some b => Some (mkRgb r g b)
        | _, _, _ => None
        end
    | _ => None
    end.
Proof. reflexivity. Qed.

Lemma hexToRgb_range hex c :
  hexToRgb hex = Some c ->
  (0 <= r c <= 255 /\ 0 <= g c <= 255 /\ 0 <= b c <= 255)%Z.
Proof.
  rewrite hexToRgb_digits.
  destruct (hexDigits hex) as [|r1 [|r2 [|g1 [|g2 [|b1 [|b2 [|]]]]]]];
    try discriminate.
  destruct (parsePair r1 r2) as [x|] eqn:Hr; [|discriminate].
  destruct (parsePair g1 g2) as [y|] eqn:Hg; [|discriminate].
  destruct (parsePair b1 b2) as [z|] eqn:Hb; [|discriminate].
  intros [= <-]. cbn.
  apply parsePair_range in Hr, Hg, Hb. lia.
Qed.

(** X1.  [hexToRgb] accepts exactly the strings made of six hexadecimal
    digits, with or without one leading [#]; the letters may be in either
    case and the case does not change the result; every component returned
    lies between 0 and 255. *)
Theorem hexToRgb_accepts_six_hex_digits :
  (forall hex,
      is_Some (hexToRgb hex)
      <-> String.length (hexDigits hex) = 6
          /\ Detect.allHex (hexDigits hex) = true)
  /\ (forall hex, hexToRgb (toLowerCase hex) = hexToRgb hex)
  /\ (forall hex c,
         hexToRgb hex = Some c ->
         (0 <= r c <= 255 /\ 0 <= g c <= 255 /\ 0 <= b c <= 255)%Z).
Proof.
  split; [|split].
  - intros hex. rewrite hexToRgb_digits.
    assert (Hall : forall x y z : option Z,
               is_Some (match x, y, z with
                        | Some r, Some g, Some b => Some (mkRgb r g b)
                        | _, _, _ => None
                        end)
               <-> is_Some x /\ is_Some y /\ is_Some z).
    { intros [x|] [y|] [z|]; split;
        try (intros [? H]; discriminate H);
        try (intros (H1 & H2 & H3);
             first [destruct H1 as [? H1]; discriminate H1
                   | destruct H2 as [? H2]; discriminate H2
                   | destruct H3 as [? H3]; discriminate H3]);
        eauto. }
    destruct (hexDigits hex) as [|r1 [|r2 [|g1 [|g2 [|b1 [|b2 [|]]]]]]];
      cbn [String.length Detect.allHex];
      try (split; [intros [? H]; discriminate H | intros [H _]; discriminate H]).
    rewrite Hall, !parsePair_isHex, !andb_true_iff. intuition.
  - intros hex. rewrite !hexToRgb_digits.
    assert (Hd : hexDigits (toLowerCase hex) = toLowerCase (hexDigits hex)).
    { destruct hex as [|c rest]; [reflexivity|]. cbn [toLowerCase hexDigits].
      rewrite hash_lowerChar. now destruct (Ascii.eqb c "#"). }
    rewrite Hd.
    destruct (hexDigits hex) as [|r1 [|r2 [|g1 [|g2 [|b1 [|b2 [|]]]]]]];
      try reflexivity.
    cbn [toLowerCase]. now rewrite !parsePair_lowerChar.
  - apply hexToRgb_range.
Qed.

(** X2.  The colour distance is symmetric; it is infinite exactly when one
    of the two strings does not parse; a finite distance is at most that
    between black and white (its square is at most [3 * 255^2]); and it is
    zero exactly when both strings parse to the same colour. *)
Theorem colorDistance_symmetric_and_zero hex1 hex2 :
  colorDistanceSq hex1 hex2 = colorDistanceSq hex2 hex1
  /\ (colorDistanceSq hex1 hex2 = None
      <-> hexToRgb hex1 = None \/ hexToRgb hex2 = None)
  /\ (forall d, colorDistanceSq hex1 hex2 = Some d -> (0 <= d <= 195075)%Z)
  /\ (colorDistanceSq hex1 hex2 = Some 0%Z
      <-> exists c, hexToRgb hex1 = Some c /\ hexToRgb hex2 = Some c).
Proof.
  unfold colorDistanceSq.
  destruct (hexToRgb hex1) as [[r1 g1 b1]|] eqn:H1;
    destruct (hexToRgb hex2) as [[r2 g2 b2]|] eqn:H2; cbn [r g b].
  - apply hexToRgb_range in H1, H2. cbn [r g b] in H1, H2.
    split; [f_equal; lia|].
    split; [split; [discriminate | intros [?|?]; discriminate]|].
    split; [intros d [= <-]; nia|].
    split.
    + intros [= H]. eexists. split; [reflexivity|].
      assert (r1 = r2 /\ g1 = g2 /\ b1 = b2) as (-> & -> & ->) by nia.
      reflexivity.
    + intros (c & [= <-] & [= <- <- <-]). f_equal. lia.
  - repeat split; try tauto; try discriminate.
    intros (c & _ & H). discriminate H.
  - repeat split; try tauto; try discriminate.
    intros (c & H & _). discriminate H.
  - repeat split; try tauto; try discriminate.
    intros (c & H & _). discriminate H.
Qed.

Lemma firstNearest_step hexValue seen acc entry :
  firstNearest hexValue seen acc ->
  firstNearest hexValue (seen ++ [entry]) (closestStep hexValue acc entry).
Proof.
  destruct entry as [name value]. destruct acc as [[n|] [d|]]; cbn [firstNearest];
    try tauto; unfold closestStep; cbn [fst snd].
  - intros (pre & v & post & -> & Hd & Hpre & Hpost).
    destruct (colorDistanceSq hexValue value) as [d0|] eqn:Hd0; cbn [closer].
    + destruct (Z.ltb_spec d0 d) as [Hlt|Hge]; cbn [firstNearest].
      * exists (pre ++ (n, v) :: post), value, []. split; [reflexivity|].
        split; [exact Hd0|]. split; [|intros ? ? ? []].
        intros n' v' d' Hin Hd'.
        apply in_app_iff in Hin as [Hin|[[= <- <-]|Hin]].
        -- specialize (Hpre _ _ _ Hin Hd'). lia.
        -- rewrite Hd in Hd'. injection Hd' as <-. lia.
        -- specialize (Hpost _ _ _ Hin Hd'). lia.
      * exists pre, v, (post ++ [(name, value)]).
        split; [now rewrite <- app_assoc|]. split; [exact Hd|].
        split; [exact Hpre|]. intros n' v' d' Hin Hd'.
        apply in_app_iff in Hin as [Hin|[[= <- <-]|[]]].
        -- exact (Hpost _ _ _ Hin Hd').
        -- rewrite Hd0 in Hd'. injection Hd' as <-. lia.
    + cbn [firstNearest]. exists pre, v, (post ++ [(name, value)]).
      split; [now rewrite <- app_assoc|]. split; [exact Hd|].
      split; [exact Hpre|]. intros n' v' d' Hin Hd'.
      apply in_app_iff in Hin as [Hin|[[= <- <-]|[]]].
      * exact (Hpost _ _ _ Hin Hd').
      * rewrite Hd0 in Hd'. discriminate Hd'.
  - intros Hnone.
    destruct (colorDistanceSq hexValue value) as [d0|] eqn:Hd0;
      cbn [closer firstNearest].
    + exists seen, value, []. split; [reflexivity|]. split; [exact Hd0|].
      split; [|intros ? ? ? []]. intros n' v' d' Hin Hd'.
      rewrite (Hnone _ _ Hin) in Hd'. discriminate Hd'.
    + intros n' v' Hin. apply in_app_iff in Hin as [Hin|[[= <- <-]|[]]].
      * exact (Hnone _ _ Hin).
      * exact Hd0.
Qed.

Lemma firstNearest_fold hexValue rest seen acc :
  firstNearest hexValue seen acc ->
  firstNearest hexValue (seen ++ rest)
               (fold_left (closestStep hexValue) rest acc).
Proof.
  revert seen acc. induction rest as [|entry rest IH]; intros seen acc Hacc.
  - now rewrite app_nil_r.
  - cbn [fold_left].
    replace (seen ++ entry :: rest) with ((seen ++ [entry]) ++ rest)
      by now rewrite <- app_assoc.
    apply IH, firstNearest_step, Hacc.
Qed.

(** X3.  [findClosestPrimitive] returns the first entry, in enumeration
    order, among those at the least distance from the colour, provided that
    distance is within [maxDistance]; the entries before it are strictly
    farther.  It returns [null] exactly when no primitive is within
    [maxDistance]: in particular when there is no primitive, when the colour
    does not parse, or when no primitive value parses. *)
Theorem findClosestPrimitive_first_nearest hexValue primitiveTokens maxDistance :
  (forall n d,
      findClosestPrimitive hexValue primitiveTokens maxDistance = Some (n, d) ->
      (0 <= maxDistance /\ d <= maxDistance * maxDistance)%Z
      /\ exists pre v post,
          primitiveTokens = pre ++ (n, v) :: post
          /\ colorDistanceSq hexValue v = Some d
          /\ (forall n' v' d', In (n', v') pre ->
                               colorDistanceSq hexValue v' = Some d' ->
                               (d < d')%Z)
          /\ (forall n' v' d', In (n', v') post ->
                               colorDistanceSq hexValue v' = Some d' ->
                               (d <= d')%Z))
  /\ (findClosestPrimitive hexValue primitiveTokens maxDistance = None
      <-> forall n v d, In (n, v) primitiveTokens ->
                        colorDistanceSq hexValue v = Some d ->
                        ~ (0 <= maxDistance /\ d <= maxDistance * maxDistance)%Z).
Proof.
  unfold findClosestPrimitive.
  pose proof (firstNearest_fold hexValue primitiveTokens [] (None, None)) as H.
  cbn [app] in H.
  destruct (fold_left _ _ _) as [[cn|] [cd|]]; cbn [firstNearest] in H.
  - destruct H as (pre & v & post & Heq & Hd & Hpre & Hpost);
      [intros ? ? []|].
    assert (Hw : within cd maxDistance = true
                 <-> (0 <= maxDistance /\ cd <= maxDistance * maxDistance)%Z).
    { unfold within. rewrite andb_true_iff, !Z.leb_le. tauto. }
    destruct (within cd maxDistance) eqn:Hwithin.
    + split.
      * intros n d [= <- <-]. split; [now apply Hw|]. now exists pre, v, post.
      * split; [discriminate|]. intros Hfar. exfalso.
        apply (Hfar cn v cd); [|exact Hd | now apply Hw].
        rewrite Heq, in_app_iff. right. now left.
    + split; [discriminate|]. split; [|reflexivity].
      intros _ n v' d Hin Hd' Hclose.
      assert (cd <= d)%Z.
      { rewrite Heq in Hin. apply in_app_iff in Hin as [Hin|[[= <- <-]|Hin]].
        - specialize (Hpre _ _ _ Hin Hd'). lia.
        - rewrite Hd in Hd'. injection Hd' as <-. lia.
        - exact (Hpost _ _ _ Hin Hd'). }
      assert (Hfalse : false = true) by (apply Hw; nia).
      discriminate Hfalse.
  - exfalso. apply H. intros ? ? [].
  - exfalso. apply H. intros ? ? [].
  - split; [discriminate|]. split; [|reflexivity].
    intros _ n v d Hin Hd. rewrite (H (fun _ _ F => match F with end) n v Hin) in Hd.
    discriminate Hd.
Qed.

Lemma notDarker_trans a b c :
  parses a -> parses b -> parses c ->
  notDarker a b -> notDarker b c -> notDarker a c.
Proof.
  unfold parses, notDarker, compareLightness.
  intros [x ->] [y ->] [z ->]. lia.
Qed.

Lemma insertSorted_sorted x sorted :
  parses x -> Forall parses sorted ->
  StronglySorted notDarker sorted ->
  StronglySorted notDarker (insertSorted x sorted).
Proof.
  intros Hx Hall Hs. induction Hs as [|y ys Hs IH Hy]; cbn [insertSorted].
  - repeat constructor.
  - apply Forall_cons_iff in Hall as [Hpy Hall].
    destruct (Z.ltb_spec 0 (compareLightness y x)) as [Hlt|Hge].
    + assert (Hxy : notDarker x y).
      { destruct Hx as [cx Hx], Hpy as [cy Hcy].
        unfold notDarker, compareLightness in *. rewrite Hx, Hcy in *. lia. }
      constructor; [now constructor|].
      constructor; [exact Hxy|].
      rewrite Forall_forall in Hy, Hall. apply Forall_forall. intros z Hz.
      apply list_elem_of_In in Hz.
      eapply (notDarker_trans x y z); eauto.
      * apply Hall. now apply list_elem_of_In.
      * apply Hy. now apply list_elem_of_In.
    + constructor; [now apply IH|].
      apply Forall_forall. intros z Hz. apply list_elem_of_In in Hz.
      apply (Permutation_in _ (insertSorted_perm x ys)) in Hz as [<-|Hz].
      * exact Hge.
      * rewrite Forall_forall in Hy. apply Hy. now apply list_elem_of_In.
Qed.

Lemma sort_fold_sorted colors acc :
  Forall parses colors -> Forall parses acc ->
  StronglySorted notDarker acc ->
  StronglySorted notDarker
    (fold_left (fun sorted x => insertSorted x sorted) colors acc).
Proof.
  revert acc. induction colors as [|c cs IH]; intros acc Hcs Hacc Hs;
    cbn [fold_left]; [exact Hs|].
  apply Forall_cons_iff in Hcs as [Hc Hcs].
  apply IH; [exact Hcs | | now apply insertSorted_sorted].
  rewrite Forall_forall in *. intros z Hz. apply list_elem_of_In in Hz.
  apply (Permutation_in _ (insertSorted_perm c acc)) in Hz as [<-|Hz];
    [exact Hc | apply Hacc; now apply list_elem_of_In].
Qed.



End ColorExtras.

(** * Further properties of the universal parser *)

Module ListFacts.

Lemma filter_bool_cons {A} (f : A -> bool) x (l : list A) :
  filter (fun y => f y) (x :: l)
  = if f x then x :: filter (fun y => f y) l else filter (fun y => f y) l.
Proof.
  rewrite filter_cons. destruct (decide (f x)) as [H|H]; destruct (f x);
    cbn in H; try reflexivity; tauto.
Qed.

Lemma filter_bool_In {A} (f : A -> bool) x (l : list A) :
  In x (filter (fun y => f y) l) <-> In x l /\ f x = true.
Proof.
  rewrite <- !list_elem_of_In, list_elem_of_filter.
  destruct (f x); cbn; intuition congruence.
Qed.

(** Filtering by complementary tests splits a list. *)
Lemma filter_bool_split {A} (f : A -> bool) (l : list A) :
  Permutation (filter (fun y => f y) l ++ filter (fun y => negb (f y)) l) l.
Proof.
  induction l as [|x l IH]; [reflexivity|].
  rewrite !filter_bool_cons. destruct (f x); cbn [negb app].
  - now constructor.
  - rewrite <- Permutation_middle. now constructor.
Qed.

(** Filtering by the classes of [f], one class after the other, rearranges
    the list when the classes are all listed, each once. *)
Lemma classes_permutation {A} (f : A -> string) (ks : list string)
      (l : list A) :
  NoDup ks -> (forall x, In x l -> In (f x) ks) ->
  Permutation
    (concat (map (fun g => filter (fun x => String.eqb (f x) g) l) ks)) l.
Proof.
  intros Hnd. induction l as [|x l IH]; intros Hall.
  - clear. induction ks as [|k ks IHk]; [reflexivity|]. exact IHk.
  - specialize (IH (fun y Hy => Hall y (or_intror Hy))).
    transitivity
      (x :: concat (map (fun g => filter (fun y => String.eqb (f y) g) l) ks));
      [|now constructor].
    clear IH.
    specialize (Hall x (or_introl eq_refl)).
    induction ks as [|k ks IHk]; [destruct Hall|].
    apply NoDup_cons in Hnd as [Hk Hnd]. cbn [map concat].
    rewrite filter_bool_cons.
    destruct (String.eqb_spec (f x) k) as [Heq|Hne].
    + subst k. cbn [app]. constructor.
      apply Permutation_app_head.
      assert (Hsame : forall ks, ~ In (f x) ks ->
                map (fun g => filter (fun y => String.eqb (f y) g) (x :: l)) ks
                = map (fun g => filter (fun y => String.eqb (f y) g) l) ks).
      { clear. intros ks Hnot. apply map_ext_in. intros g Hg.
        rewrite filter_bool_cons.
        destruct (String.eqb_spec (f x) g) as [Heq|_]; [|reflexivity].
        rewrite Heq in Hnot. tauto. }
      rewrite Hsame; [reflexivity|]. now rewrite <- list_elem_of_In.
    + destruct Hall as [Heq|Hin]; [congruence|].
      rewrite (IHk Hnd Hin). symmetry. apply Permutation_middle.
Qed.

End ListFacts.

Module ParserExtras.
Import JsString JsStringFacts Token Resolver ResolverFacts Classifier.
Import Json Detect Emitter ParserInvariants ListFacts.

Lemma classify_fold_partition {V} (l : list (StandardToken V)) p s :
  fold_left classifyStep l (p, s)
  = (p ++ filter (fun t => filedPrimitive t) l,
     s ++ filter (fun t => negb (filedPrimitive t)) l).
Proof.
  revert p s. induction l as [|t l IH]; intros p s; cbn [fold_left].
  - now rewrite !app_nil_r.
  - rewrite !filter_bool_cons.
    assert (Hstep : classifyStep (p, s) t
                    = if filedPrimitive t then (p ++ [t], s)
                      else (p, s ++ [t])).
    { unfold classifyStep, filedPrimitive.
      destruct (hasReference t), (isPrimitivePattern (name t)),
        (isSemanticPattern (name t)); reflexivity. }
    rewrite Hstep.
    destruct (filedPrimitive t); cbn [negb]; rewrite IH, <- app_assoc;
      reflexivity.
Qed.

(** X5.  The universal classifier splits the tokens without losing,
    repeating or reordering any: the primitives are the tokens without a
    reference whose name has a primitive pattern or no semantic pattern, the
    semantics are all the others, each side in the order of the input. *)
Theorem classifyTokens_stable_partition {V} (tokens : list (StandardToken V)) :
  classifyTokens tokens
  = (filter (fun t => filedPrimitive t) tokens,
     filter (fun t => negb (filedPrimitive t)) tokens)
  /\ Permutation ((classifyTokens tokens).1 ++ (classifyTokens tokens).2)
                 tokens
  /\ length (classifyTokens tokens).1 + length (classifyTokens tokens).2
     = length tokens.
Proof.
  assert (Heq : classifyTokens tokens
                = (filter (fun t => filedPrimitive t) tokens,
                   filter (fun t => negb (filedPrimitive t)) tokens)).
  { unfold classifyTokens. now rewrite classify_fold_partition. }
  rewrite Heq. cbn [fst snd].
  pose proof (filter_bool_split filedPrimitive tokens) as Hperm.
  split; [reflexivity|]. split; [exact Hperm|].
  rewrite <- length_app. now apply Permutation_length.
Qed.

Lemma groupOf_listed (t : StandardToken Value) : In (groupOf t) groupNames.
Proof.
  unfold groupOf, groupNames.
  repeat match goal with
         | |- In (if ?c then _ else _) _ => destruct c
         end; cbn; tauto.
Qed.

(** X6.  [groupTokensByType] always returns the six groups, in the same
    order, empty ones included; a token is put in the one group named by its
    type and name, and all the groups together hold the tokens given, each as
    often as it was given. *)
Theorem groupTokensByType_partition (tokens : list (StandardToken Value)) :
  map fst (groupTokensByType tokens) = groupNames
  /\ (forall g group t,
         In (g, group) (groupTokensByType tokens) ->
         (In t group <-> In t tokens /\ groupOf t = g))
  /\ Permutation (concat (map snd (groupTokensByType tokens))) tokens.
Proof.
  split; [reflexivity|]. split.
  - intros g group t Hin. unfold groupTokensByType in Hin.
    apply in_map_iff in Hin as (g' & [= <- <-] & _).
    rewrite filter_bool_In. now rewrite String.eqb_eq.
  - unfold groupTokensByType. rewrite map_map. cbn [snd].
    apply (classes_permutation groupOf groupNames tokens).
    + apply (bool_decide_unpack _). vm_compute. reflexivity.
    + intros t _. apply groupOf_listed.
Qed.

Lemma follow_dangles {V} (tokens : list (StandardToken V)) r n missing :
  dangles tokens r n missing ->
  follow (tokenMap tokens) tokens r n = Unresolved missing.
Proof.
  induction 1 as [r n Hr Hnone | r t r' n missing Hr Ht Href Hr' _ IH]; cbn;
    rewrite Hr; cbn; unfold lookupToken in *.
  - now rewrite Hnone.
  - now rewrite Ht, Href, Hr'.
Qed.

(** X7.  A token whose reference chain arrives, within the depth bound, at a
    name that no token has is left exactly as it was, and the pass prints
    one "Unresolved reference" warning that gives the missing name and the
    name of the token. *)
Theorem unresolved_reference_warns {V} (tokens : list (StandardToken V))
        i token r missing
  (Hi : tokens !! i = Some token)
  (Href : references token = Some r)
  (Htruthy : truthy r = true)
  (Hdangles : dangles tokens r maxDepth missing) :
  (resolveReferences tokens).1 !! i = Some token
  /\ In (UnresolvedReference missing (name token))
        (resolveReferences tokens).2.
Proof.
  rewrite resolveReferences_pointwise. cbn [fst snd].
  assert (Hres : resolved tokens token = token).
  { unfold resolved. now rewrite Href, Htruthy, (follow_dangles _ _ _ _ Hdangles). }
  assert (Hw : warned tokens token = [UnresolvedReference missing (name token)]).
  { unfold warned. now rewrite Href, Htruthy, (follow_dangles _ _ _ _ Hdangles). }
  split.
  - now rewrite list_lookup_fmap, Hi; cbn; rewrite Hres.
  - apply in_concat. exists (warned tokens token). split.
    + apply in_map. apply list_elem_of_In. eapply list_elem_of_lookup_2, Hi.
    + rewrite Hw. now left.
Qed.

Lemma unresolved_reference_warns_witness :
  (resolveReferences Samples.danglingTokens).1 !! 2 = Some Samples.tokenE
  /\ In (UnresolvedReference "missing" "e")
        (resolveReferences Samples.danglingTokens).2.
Proof.
  apply (unresolved_reference_warns Samples.danglingTokens 2 Samples.tokenE
                                    "missing" "missing");
    [reflexivity | reflexivity | reflexivity |].
  apply dangles_here; reflexivity.
Defined.

Lemma setValue_same {V} (t : StandardToken V) : setValue (value t) t = t.
Proof. now destruct t. Qed.

Lemma resolved_setValue {V} (tokens : list (StandardToken V)) t :
  exists v, resolved tokens t = setValue v t.
Proof.
  unfold resolved.
  destruct (references t) as [r|]; [|exists (value t); now rewrite setValue_same].
  destruct (truthy r); [|exists (value t); now rewrite setValue_same].
  destruct (follow _ _ _ _) as [v| | |];
    first [now exists v | exists (value t); now rewrite setValue_same].
Qed.

Lemma warned_length {V} (tokens : list (StandardToken V)) t :
  length (warned tokens t) <= 1.
Proof.
  unfold warned. destruct (references t) as [r|]; [|cbn; lia].
  destruct (truthy r); [|cbn; lia].
  destruct (follow _ _ _ _); cbn; lia.
Qed.


Lemma hasChar_split sep s :
  Forall (fun p => hasChar sep p = false) (split sep s).
Proof.
  induction s as [|c s IH]; cbn [split]; [repeat constructor|].
  destruct (Ascii.eqb c sep) eqn:Hc; [constructor; [reflexivity | exact IH]|].
  destruct (split sep s) as [|p ps]; [repeat constructor; cbn; now rewrite Hc|].
  apply Forall_cons_iff in IH as [Hp Hps]. constructor; [|exact Hps].
  cbn. now rewrite Hc.
Qed.

Lemma split_whole sep s : hasChar sep s = false -> split sep s = [s].
Proof.
  induction s as [|c s IH]; cbn; [reflexivity|].
  intros H. apply orb_false_iff in H as [Hc Hs]. rewrite Hc, (IH Hs).
  reflexivity.
Qed.

Lemma split_append sep p rest :
  hasChar sep p = false ->
  split sep (p +:+ String sep rest) = p :: split sep rest.
Proof.
  induction p as [|c p IH]; intros H.
  - change (EmptyString +:+ String sep rest) with (String sep rest).
    cbn [split]. now rewrite Ascii.eqb_refl.
  - cbn in H. apply orb_false_iff in H as [Hc Hp].
    rewrite append_cons. cbn [split]. rewrite Hc, (IH Hp). reflexivity.
Qed.

(** Joining segments that hold no separator and splitting again gives the
    segments back. *)
Lemma split_join sep parts :
  parts <> [] -> Forall (fun p => hasChar sep p = false) parts ->
  split sep (join (String sep EmptyString) parts) = parts.
Proof.
  intros Hne Hall. induction Hall as [|p ps Hp Hps IH]; [done|].
  destruct ps as [|q ps].
  - cbn. now apply split_whole.
  - change (join (String sep EmptyString) (p :: q :: ps))
      with (p +:+ String sep (join (String sep EmptyString) (q :: ps))).
    rewrite (split_append _ _ _ Hp), IH; [reflexivity | discriminate].
Qed.

Lemma reorderLoop_cases keywords parts name :
  Names.reorderLoop keywords parts name = name
  \/ exists i removed,
       parts !! i = Some removed
       /\ Names.reorderLoop keywords parts name
          = join "-" (removed :: delete i parts).
Proof.
  induction keywords as [|k ks IH]; cbn [Names.reorderLoop]; [now left|].
  destruct (indexOf k parts) as [[|i]|]; try exact IH.
  destruct (parts !! S i) as [removed|] eqn:Hr; [|now left].
  right. now exists (S i), removed.
Qed.

(** X9.  Reordering a semantic name only rearranges its hyphen-separated
    segments: the segments of the result are those of the name given, each
    as often, so nothing is added, dropped or rewritten. *)
Theorem reorderSemanticToken_permutes_segments config name :
  Permutation (split "-" (Names.reorderSemanticToken config name))
              (split "-" name).
Proof.
  unfold Names.reorderSemanticToken.
  destruct (negb (Names.reorderEnabled config)); [reflexivity|].
  destruct (reorderLoop_cases (Names.keywordsOf config) (split "-" name) name)
    as [->|(i & removed & Hi & ->)]; [reflexivity|].
  pose proof (hasChar_split "-" name) as Hall.
  rewrite split_join.
  - symmetry. now apply delete_Permutation.
  - discriminate.
  - rewrite Forall_forall in *. intros p Hp. apply Hall.
    apply elem_of_cons in Hp as [->|Hp].
    + eapply list_elem_of_lookup_2, Hi.
    + now apply list_elem_of_delete_inv in Hp.
Qed.

(** X10.  Format detection gives a verdict for every parsed document but
    [null], on which it throws: [null] passes neither text test and
    [Object.values(null)] is a [TypeError]. *)
Theorem detectTokenFormat_throws_only_on_null data filename :
  detectTokenFormat data filename = None <-> data = JNull.
Proof.
  split.
  - unfold detectTokenFormat.
    destruct (hasW3CFormat data); [discriminate|].
    destruct (hasTokensStudioFormat data); [discriminate|].
    unfold hasStyleDictionaryFormat, hasSimpleFormat.
    destruct data; cbn [objectValues]; try reflexivity;
      repeat match goal with
             | |- context [if ?c then _ else _] => destruct c
             | |- context [match ?l with [] => _ | _ :: _ => _ end] =>
                 destruct l
             end; discriminate.
  - intros ->. vm_compute. reflexivity.
Qed.

End ParserExtras.

(** * Further properties of the Figma transformer *)

Module FigmaExtras.
Import JsString JsStringFacts JsObject JsObjectFacts Color ColorFacts.
Import SemanticColors SemanticColorsFacts SynthesisFacts.
Import ParserInvariants ParserExtras FigmaInvariants.

(** *** The reverse look-up *)

Lemma valueToPrimitive_app pre post m :
  valueToPrimitive (pre ++ post) m = valueToPrimitive post (valueToPrimitive pre m).
Proof. unfold valueToPrimitive. apply fold_left_app. Qed.

Lemma valueToPrimitive_other primitiveTokens m v :
  (forall n, In (n, v) primitiveTokens -> truthy n = false) ->
  truthyOpt (m !! v) = false ->
  truthyOpt (valueToPrimitive primitiveTokens m !! v) = false.
Proof.
  unfold valueToPrimitive. revert m.
  induction primitiveTokens as [|[n x] rest IH]; intros m Hall Hm;
    cbn [fold_left fst snd]; [exact Hm|].
  apply IH; [intros n' Hn'; apply Hall; now right|].
  destruct (truthyOpt (m !! x)); [exact Hm|].
  destruct (String.eqb_spec x v) as [->|Hne].
  - rewrite lookup_insert_eq. cbn. apply Hall. now left.
  - now rewrite lookup_insert_ne.
Qed.

Lemma valueToPrimitive_absent primitiveTokens m v :
  (forall n, ~ In (n, v) primitiveTokens) ->
  valueToPrimitive primitiveTokens m !! v = m !! v.
Proof.
  unfold valueToPrimitive. revert m.
  induction primitiveTokens as [|[n x] rest IH]; intros m Hall;
    cbn [fold_left fst snd]; [reflexivity|].
  rewrite IH; [|intros n' Hn'; apply (Hall n'); now right].
  destruct (truthyOpt (m !! x)); [reflexivity|].
  destruct (String.eqb_spec x v) as [->|Hne].
  - exfalso. apply (Hall n). now left.
  - now rewrite lookup_insert_ne.
Qed.

(** X11.  The reverse look-up of [transformSemanticColors] gives a hardcoded
    value the name its mapping has, when that name is not empty; otherwise
    the name of the first primitive, in enumeration order, that holds the
    value and has a name; and a value that has no mapping and that no
    primitive holds is not in the look-up. *)
Theorem valueToPrimitive_mapping_then_first_primitive
        primitiveTokens mappings v :
  (forall n, mappings !! v = Some n -> truthy n = true ->
             valueToPrimitive primitiveTokens mappings !! v = Some n)
  /\ (forall pre n post,
         truthyOpt (mappings !! v) = false ->
         primitiveTokens = pre ++ (n, v) :: post ->
         (forall n', In (n', v) pre -> truthy n' = false) ->
         truthy n = true ->
         valueToPrimitive primitiveTokens mappings !! v = Some n)
  /\ (mappings !! v = None ->
      (forall n, ~ In (n, v) primitiveTokens) ->
      valueToPrimitive primitiveTokens mappings !! v = None).
Proof.
  split; [|split].
  - intros n. apply valueToPrimitive_mapping.
  - intros pre n post Hm -> Hpre Hn.
    rewrite valueToPrimitive_app.
    pose proof (valueToPrimitive_other pre mappings v Hpre Hm) as Hfalse.
    change (valueToPrimitive ((n, v) :: post) (valueToPrimitive pre mappings))
      with (valueToPrimitive post
              (if truthyOpt (valueToPrimitive pre mappings !! v)
               then valueToPrimitive pre mappings
               else <[v := n]> (valueToPrimitive pre mappings))).
    rewrite Hfalse. apply valueToPrimitive_mapping; [|exact Hn].
    apply lookup_insert_eq.
  - intros Hm Hnone. now rewrite valueToPrimitive_absent.
Qed.

(** *** References to primitives *)

Lemma split_two sep s :
  hasChar sep s = true -> exists a b rest, split sep s = a :: b :: rest.
Proof.
  induction s as [|c s IH]; cbn [hasChar split]; [discriminate|].
  destruct (Ascii.eqb c sep); cbn [orb].
  - intros _. pose proof (split_nonempty sep s) as Hne.
    destruct (split sep s) as [|b rest]; [done|]. eauto.
  - intros H. destruct (IH H) as (a & b & rest & ->). eauto.
Qed.

Lemma figmaRefToPrimitiveName_throws ref primitiveTokens :
  isFigmaReference ref = true ->
  hasChar "." (insideBraces ref) = false ->
  figmaRefToPrimitiveName ref primitiveTokens = Throws.
Proof.
  unfold figmaRefToPrimitiveName. intros -> Hdot. cbn [negb].
  now rewrite (split_whole _ _ Hdot).
Qed.

(** X12.  [figmaRefToPrimitiveName] returns [null] for a value that is not a
    reference; it throws for a reference without a dot between the braces
    (the token part is [undefined]); for a reference with a dot it returns
    [null] or a name, and a name it returns is always the key of a primitive
    with a non-empty value. *)
Theorem figmaRefToPrimitiveName_outcomes ref primitiveTokens :
  (isFigmaReference ref = false ->
   figmaRefToPrimitiveName ref primitiveTokens = Returns None)
  /\ (isFigmaReference ref = true ->
      hasChar "." (insideBraces ref) = false ->
      figmaRefToPrimitiveName ref primitiveTokens = Throws)
  /\ (isFigmaReference ref = true ->
      hasChar "." (insideBraces ref) = true ->
      figmaRefToPrimitiveName ref primitiveTokens = Returns None
      \/ exists name,
          figmaRefToPrimitiveName ref primitiveTokens = Returns (Some name)
          /\ definedIn primitiveTokens name = true).
Proof.
  split; [|split]; [| apply figmaRefToPrimitiveName_throws |];
    unfold figmaRefToPrimitiveName.
  - now intros ->.
  - intros Href Hdot.
    pose proof (figmaRefToPrimitiveName_defined primitiveTokens ref) as Hdef.
    unfold figmaRefToPrimitiveName in Hdef. rewrite Href in *. cbn [negb] in *.
    destruct (split_two _ _ Hdot) as (group & token & rest & Hsplit).
    rewrite Hsplit in *.
    destruct (find _ _) as [name|]; [|now left].
    right. exists name. split; [reflexivity|]. now apply Hdef.
Qed.

Lemma processEntries_throws config primitiveTokens lookup recur prefix
      entries entry :
  In entry entries ->
  (forall result,
      processEntry config primitiveTokens lookup recur prefix result entry
      = Throws) ->
  forall result,
    processEntries config primitiveTokens lookup recur prefix entries result
    = Throws.
Proof.
  intros Hin Hthrows.
  induction entries as [|e rest IH]; [destruct Hin|]. intros result.
  cbn [processEntries]. destruct Hin as [->|Hin].
  - now rewrite Hthrows.
  - destruct (processEntry _ _ _ _ _ _ e); [now apply IH | reflexivity].
Qed.

Lemma processSemanticGroup_throws config primitiveTokens lookup ref groupData :
  isFigmaReference ref = true ->
  hasChar "." (insideBraces ref) = false ->
  hasToken ref groupData ->
  forall prefix,
    processSemanticGroup config primitiveTokens lookup groupData prefix
    = Throws.
Proof.
  intros Href Hdot. 
  induction 1 as [d children key below Hin
                 | d children key nested Hin _ IH]; intros prefix;
    cbn [processSemanticGroup];
    eapply processEntries_throws; try exact Hin; intros result;
    cbn [processEntry].
  - now rewrite Href, (figmaRefToPrimitiveName_throws _ _ Href Hdot).
  - now rewrite IH.
Qed.

Lemma processSemanticGroups_throws config primitiveTokens lookup colorsData
      ref group groupData groups :
  isFigmaReference ref = true ->
  hasChar "." (insideBraces ref) = false ->
  In group groups ->
  field colorsData group = Some groupData ->
  hasToken ref groupData ->
  forall acc,
    processSemanticGroups config primitiveTokens lookup colorsData groups acc
    = Throws.
Proof.
  intros Href Hdot Hin Hfield Htoken.
  induction groups as [|g rest IH]; [destruct Hin|]. intros acc.
  cbn [processSemanticGroups]. destruct Hin as [->|Hin].
  - rewrite Hfield.
    now rewrite (processSemanticGroup_throws config primitiveTokens lookup
                   ref groupData Href Hdot Htoken).
  - destruct (field colorsData g) as [gd|]; [|now apply IH].
    destruct (processSemanticGroup _ _ _ gd _); [now apply IH | reflexivity].
Qed.

(** X13.  One reference without a dot between its braces, at any depth of
    one of the four semantic groups, makes [transformSemanticColors] throw:
    no semantic group is returned and no style sheet is produced. *)
Theorem dotless_reference_aborts_semantic_colors
        config colorsData primitiveTokens mappings group groupData ref
  (Hgroup : In group semanticGroupNames)
  (Hfield : field colorsData group = Some groupData)
  (Htoken : hasToken ref groupData)
  (Href : isFigmaReference ref = true)
  (Hdot : hasChar "." (insideBraces ref) = false) :
  transformSemanticColors config colorsData primitiveTokens mappings = Throws.
Proof.
  unfold transformSemanticColors.
  now rewrite (processSemanticGroups_throws config primitiveTokens _ colorsData
                 ref group groupData _ Href Hdot Hgroup Hfield Htoken).
Qed.

Lemma dotless_reference_aborts_semantic_colors_witness :
  transformSemanticColors Samples.configText Samples.dotlessTextGroup
                          Samples.primitiveColors ∅
  = Throws.
Proof.
  apply (dotless_reference_aborts_semantic_colors
           Samples.configText Samples.dotlessTextGroup Samples.primitiveColors
           ∅ "Text"
           (Node None [("primaryText", Node (Some "{black}") [])])
           "{black}").
  - right. now left.
  - reflexivity.
  - apply (hasToken_here _ None _ "primaryText" []). now left.
  - reflexivity.
  - reflexivity.
Defined.

(** *** Collection of the hardcoded colours *)

Lemma hardcodedOnly_push parentGroup c groups :
  isFigmaReference (value c) = false ->
  hardcodedOnly groups -> hardcodedOnly (pushColor parentGroup c groups).
Proof.
  intros Hc Hgroups g colors Hin. unfold pushColor in Hin.
  destruct (get parentGroup groups) as [old|] eqn:Hold;
    apply in_set in Hin as [[-> ->]|Hin]; try exact (Hgroups _ _ Hin).
  - apply get_in, Hgroups in Hold as [_ Hold].
    split; [now destruct old|].
    intros c' Hc'. apply in_app_iff in Hc' as [Hc'|[<-|[]]];
      [now apply Hold | exact Hc].
  - split; [discriminate|]. now intros c' [<-|[]].
Qed.

Lemma processGroup_hardcodedOnly groupData :
  forall groupPath groups,
    hardcodedOnly groups ->
    hardcodedOnly (processGroup groupData groupPath groups).
Proof.
  induction groupData as [|d children IH] using tree_induction;
    intros groupPath groups Hgroups; cbn [processGroup]; [exact Hgroups|].
  revert groups Hgroups.
  induction IH as [|[key value] rest Hvalue _ IHrest]; intros groups Hgroups;
    [exact Hgroups|].
  apply IHrest. cbn [snd] in Hvalue.
  destruct value as [|[tokenValue|] below].
  - exact Hgroups.
  - destruct (isFigmaReference tokenValue) eqn:Href; [exact Hgroups|].
    now apply hardcodedOnly_push.
  - now apply Hvalue.
Qed.

(** X14.  [extractSemanticColorGroups] collects hardcoded values only: no
    colour of any group it returns is a reference, and it returns no empty
    group. *)
Theorem extractSemanticColorGroups_hardcoded_only colorsData :
  forall g colors,
    In (g, colors) (extractSemanticColorGroups colorsData) ->
    colors <> []
    /\ forall c, In c colors -> isFigmaReference (value c) = false.
Proof.
  change (hardcodedOnly (extractSemanticColorGroups colorsData)).
  unfold extractSemanticColorGroups. cbn [fold_left].
  assert (Hstart : hardcodedOnly []) by (intros g colors []).
  destruct (field colorsData "Text") as [text|];
    destruct (field colorsData "System") as [system|];
    repeat apply processGroup_hardcodedOnly; exact Hstart.
Qed.

Lemma extractSemanticColorGroups_hardcoded_only_witness :
  Samples.mixedColors <> []
  /\ forall c, In c Samples.mixedColors -> isFigmaReference (value c) = false.
Proof.
  apply (extractSemanticColorGroups_hardcoded_only Samples.mixedTextGroup
                                                   "Text").
  now left.
Defined.

(** *** Numbering of a new palette *)

Lemma string_of_uint_inj d d' :
  NilEmpty.string_of_uint d = NilEmpty.string_of_uint d' -> d = d'.
Proof.
  intros H. apply (f_equal NilEmpty.uint_of_string) in H.
  rewrite !NilEmpty.usu in H. now injection H.
Qed.

Lemma decimal_inj i j : decimal i = decimal j -> i = j.
Proof.
  intros H. now apply DecimalNat.Unsigned.to_uint_inj, string_of_uint_inj.
Qed.

Lemma to_uint_leading_zero i d :
  Nat.to_uint i = Decimal.D0 d -> d = Decimal.Nil.
Proof.
  intros Hi. pose proof (DecimalNat.Unsigned.to_of (Nat.to_uint i)) as H.
  rewrite DecimalNat.Unsigned.of_to, Hi in H.
  unfold Decimal.unorm in H. cbn [Decimal.nzhead] in H.
  destruct (Decimal.nzhead d) eqn:E; try discriminate H.
  - now injection H.
  - exfalso. exact (DecimalFacts.nzhead_nonzero d _ E).
Qed.

(** The decimal form of a number has a digit, and no leading zero when it
    has two digits or more. *)
Lemma decimal_shape i :
  match decimal i with
  | EmptyString => False
  | String c (String _ _) => c <> "0"%char
  | _ => True
  end.
Proof.
  unfold decimal.
  pose proof (to_uint_leading_zero i) as Hzero.
  pose proof (DecimalNat.Unsigned.to_of (Nat.to_uint i)) as H.
  rewrite DecimalNat.Unsigned.of_to in H.
  destruct (Nat.to_uint i) as [|d|d|d|d|d|d|d|d|d|d];
    try discriminate H; cbn [NilEmpty.string_of_uint];
    try (destruct (NilEmpty.string_of_uint d); [exact I | discriminate]).
  now rewrite (Hzero d eq_refl).
Qed.

Lemma scaleIndex_inj i j : scaleIndex i = scaleIndex j -> i = j.
Proof.
  unfold scaleIndex. intros H. apply decimal_inj.
  pose proof (decimal_shape i) as Hi. pose proof (decimal_shape j) as Hj.
  destruct (decimal i) as [|a [|a' s]]; [destruct Hi| |];
    (destruct (decimal j) as [|b [|b' t]]; [destruct Hj| |]);
    cbv [padStart2 String.length String.append] in H.
  - now injection H as ->.
  - injection H as Hb _. now rewrite <- Hb in Hj.
  - injection H as Ha _. now rewrite Ha in Hi.
  - exact H.
Qed.

Lemma append_inj_r p s t : p +:+ s = p +:+ t -> s = t.
Proof.
  induction p as [|c p IH]; [easy|]. rewrite !append_cons.
  intros [= H]. now apply IH.
Qed.

Lemma paletteName_inj p i j : paletteName p i = paletteName p j -> i = j.
Proof.
  unfold paletteName. intros H.
  apply append_inj_r, append_inj_r in H. now apply scaleIndex_inj.
Qed.

Lemma writePalette_keeps p k colors st name x :
  get name (hardcodedPrimitives st) = Some x ->
  (forall j, name <> paletteName p (k + j)) ->
  get name (hardcodedPrimitives (writePalette p k colors st)) = Some x.
Proof.
  revert k st. induction colors as [|c rest IH]; intros k st Hget Hfresh;
    cbn [writePalette]; [exact Hget|].
  apply IH.
  - cbn [hardcodedPrimitives]. rewrite get_set_ne; [exact Hget|].
    intros Heq. apply (Hfresh 0). rewrite Nat.add_0_r. now symmetry.
  - intros j Heq. apply (Hfresh (S j)).
    now rewrite Nat.add_succ_r.
Qed.

Lemma writePalette_numbered p k colors st i c :
  colors !! i = Some c ->
  get (paletteName p (k + i))
      (hardcodedPrimitives (writePalette p k colors st))
  = Some (value c).
Proof.
  revert k st i. induction colors as [|c0 rest IH]; intros k st i Hi;
    [discriminate|].
  cbn [writePalette]. destruct i as [|i].
  - injection Hi as ->. apply writePalette_keeps.
    + cbn [hardcodedPrimitives]. rewrite Nat.add_0_r. apply get_set_eq.
    + intros j Heq. apply paletteName_inj in Heq. lia.
  - rewrite Nat.add_succ_r. apply (IH (S k)). exact Hi.
Qed.

Lemma matchAll_fails primitiveTokens colors mp pr :
  (exists c, In c colors
             /\ findClosestPrimitive (value c) primitiveTokens threshold
                = None) ->
  (matchAll primitiveTokens colors mp pr).1.1 = false.
Proof.
  intros (c & Hin & Hnone). revert mp pr.
  induction colors as [|c0 rest IH]; [destruct Hin|]. intros mp pr.
  cbn [matchAll]. destruct Hin as [->|Hin].
  - now rewrite Hnone.
  - destruct (findClosestPrimitive (value c0) _ _);
      [now apply IH | reflexivity].
Qed.



End FigmaExtras.

(** * Properties of the W3C flattener *)

Module W3CFlattenFacts.
Import JsString JsStringFacts Json Token Resolver ResolverFacts.
Import ParserInvariants ParserExtras W3CFlatten.

(** *** The name pipeline *)

Lemma noDoubleDash_cons c c' s :
  noDoubleDash (String c (String c' s))
  = negb (Ascii.eqb c "-" && Ascii.eqb c' "-") && noDoubleDash (String c' s).
Proof. reflexivity. Qed.

Lemma noDoubleDash_tail c s :
  noDoubleDash (String c s) = true -> noDoubleDash s = true.
Proof.
  destruct s as [|c' s]; [reflexivity|]. rewrite noDoubleDash_cons.
  intros H. now apply andb_prop in H as [_ H].
Qed.

Lemma allChars_tail p c s :
  allChars p (String c s) = true -> allChars p s = true.
Proof. cbn. intros H. now apply andb_prop in H as [_ H]. Qed.

Lemma removeInvalid_chars s :
  allChars isIdentifierChar (removeInvalid s) = true.
Proof.
  induction s as [|c s IH]; [reflexivity|]. cbn [removeInvalid].
  destruct (isIdentifierChar c) eqn:Hc; [|exact IH]. cbn. now rewrite Hc.
Qed.

Lemma collapseDashes_chars p b s :
  allChars p s = true -> allChars p (collapseDashes b s) = true.
Proof.
  revert b. induction s as [|c s IH]; intros b; [reflexivity|].
  cbn [allChars collapseDashes]. intros H. apply andb_prop in H as [Hc Hs].
  destruct (Ascii.eqb_spec c "-") as [->|_]; [destruct b|]; cbn [allChars];
    rewrite ?Hc, ?IH; auto.
Qed.

(** After the collapse no two hyphens are adjacent; the text does not start
    with a hyphen when the collapse was started after one. *)
Lemma collapseDashes_single b s :
  noDoubleDash (collapseDashes b s) = true
  /\ (b = true -> startsWithDash (collapseDashes b s) = false).
Proof.
  revert b. induction s as [|c s IH]; intros b; [now split|].
  cbn [collapseDashes].
  destruct (Ascii.eqb c "-") eqn:Hc.
  - destruct (IH true) as [Hs Hstart]. specialize (Hstart eq_refl).
    destruct b; [now split|]. split; [|discriminate].
    destruct (collapseDashes true s) as [|c' s']; [reflexivity|].
    rewrite noDoubleDash_cons. cbn [startsWithDash] in Hstart.
    rewrite Hstart, Hs. now rewrite andb_false_r.
  - destruct (IH false) as [Hs _]. split; [|intros _; exact Hc].
    destruct (collapseDashes false s) as [|c' s']; [reflexivity|].
    rewrite noDoubleDash_cons, Hc, Hs. reflexivity.
Qed.

Lemma dropLeadingDash_spec p s :
  allChars p s = true -> noDoubleDash s = true ->
  allChars p (dropLeadingDash s) = true
  /\ noDoubleDash (dropLeadingDash s) = true
  /\ startsWithDash (dropLeadingDash s) = false.
Proof.
  destruct s as [|c s]; [now repeat split|]. intros Hp Hd.
  cbn [dropLeadingDash]. destruct (Ascii.eqb c "-") eqn:Hc.
  - split; [now apply allChars_tail in Hp|].
    split; [now apply noDoubleDash_tail in Hd|].
    destruct s as [|c' s]; [reflexivity|]. rewrite noDoubleDash_cons, Hc in Hd.
    cbn. now destruct (Ascii.eqb c' "-").
  - now repeat split.
Qed.

Lemma dropTrailingDash_cons c c' s :
  dropTrailingDash (String c (String c' s))
  = String c (dropTrailingDash (String c' s)).
Proof. reflexivity. Qed.

Lemma dropTrailingDash_head c s :
  dropTrailingDash (String c s) = EmptyString
  \/ exists t, dropTrailingDash (String c s) = String c t.
Proof.
  destruct s as [|c' s].
  - cbn. destruct (Ascii.eqb c "-"); eauto.
  - rewrite dropTrailingDash_cons. eauto.
Qed.

Lemma dropTrailingDash_empty s :
  dropTrailingDash s = EmptyString -> s = EmptyString \/ s = "-".
Proof.
  destruct s as [|c [|c' s]]; [now left| |discriminate].
  cbn. destruct (Ascii.eqb_spec c "-") as [->|_]; [now right | discriminate].
Qed.

Lemma dropTrailingDash_chars p s :
  allChars p s = true -> allChars p (dropTrailingDash s) = true.
Proof.
  induction s as [|c s IH]; [reflexivity|]. intros H.
  destruct s as [|c' s].
  - cbn [dropTrailingDash]. now destruct (Ascii.eqb c "-").
  - rewrite dropTrailingDash_cons. cbn [allChars] in *.
    apply andb_prop in H as [-> H]. now apply IH.
Qed.

Lemma dropTrailingDash_single s :
  noDoubleDash s = true -> noDoubleDash (dropTrailingDash s) = true.
Proof.
  induction s as [|c s IH]; [reflexivity|]. intros H.
  destruct s as [|c' s].
  - cbn [dropTrailingDash]. now destruct (Ascii.eqb c "-").
  - rewrite dropTrailingDash_cons. rewrite noDoubleDash_cons in H.
    apply andb_prop in H as [Hcc H]. specialize (IH H).
    destruct (dropTrailingDash_head c' s) as [->|[t Ht]]; [reflexivity|].
    rewrite Ht in *. now rewrite noDoubleDash_cons, Hcc, IH.
Qed.

Lemma dropTrailingDash_start s :
  startsWithDash s = false -> startsWithDash (dropTrailingDash s) = false.
Proof.
  destruct s as [|c s]; [reflexivity|]. intros H.
  destruct (dropTrailingDash_head c s) as [->|[t ->]]; [reflexivity | exact H].
Qed.

Lemma dropTrailingDash_end s :
  noDoubleDash s = true -> endsWithDash (dropTrailingDash s) = false.
Proof.
  induction s as [|c s IH]; [reflexivity|]. intros H.
  destruct s as [|c' s].
  - cbn [dropTrailingDash]. destruct (Ascii.eqb c "-") eqn:Hc; [reflexivity|].
    exact Hc.
  - rewrite dropTrailingDash_cons. rewrite noDoubleDash_cons in H.
    apply andb_prop in H as [Hcc H]. specialize (IH H).
    destruct (dropTrailingDash (String c' s)) as [|c2 t] eqn:E.
    + apply dropTrailingDash_empty in E as [E|E]; [discriminate|].
      injection E as -> ->. cbn in *. now destruct (Ascii.eqb c "-").
    + exact IH.
Qed.

Lemma dash_lowerChar c : Ascii.eqb (lowerChar c) "-" = Ascii.eqb c "-".
Proof. destruct c as [[] [] [] [] [] [] [] []]; reflexivity. Qed.

Lemma identifier_lowerChar c :
  isIdentifierChar c = true -> isNameChar (lowerChar c) = true.
Proof. destruct c as [[] [] [] [] [] [] [] []]; vm_compute; congruence. Qed.

Lemma toLowerCase_kebab s :
  allChars isIdentifierChar s = true -> noDoubleDash s = true ->
  startsWithDash s = false -> endsWithDash s = false ->
  kebabName (toLowerCase s) = true.
Proof.
  intros Hp Hd Hs He. unfold kebabName.
  assert (H1 : allChars isNameChar (toLowerCase s) = true).
  { clear Hd Hs He. induction s as [|c s IH]; [reflexivity|].
    cbn in *. apply andb_prop in Hp as [Hc Hp].
    now rewrite (identifier_lowerChar _ Hc), IH. }
  assert (H2 : noDoubleDash (toLowerCase s) = true).
  { clear Hp Hs He H1. induction s as [|c s IH]; [reflexivity|].
    destruct s as [|c' s]; [reflexivity|].
    cbn [toLowerCase] in *. rewrite noDoubleDash_cons in *.
    rewrite !dash_lowerChar. apply andb_prop in Hd as [-> Hd].
    now rewrite IH. }
  assert (H3 : startsWithDash (toLowerCase s) = false).
  { destruct s as [|c s]; [reflexivity|]. cbn in *.
    now rewrite dash_lowerChar. }
  assert (H4 : endsWithDash (toLowerCase s) = false).
  { clear Hp Hd Hs H1 H2 H3. induction s as [|c s IH]; [reflexivity|].
    destruct s as [|c' s].
    - cbn in *. now rewrite dash_lowerChar.
    - cbn [toLowerCase] in *. now apply IH. }
  now rewrite H1, H2, H3, H4.
Qed.

(** The last four steps turn any text into a well-formed name. *)
Lemma finish_kebab s : kebabName (finish s) = true.
Proof.
  unfold finish, trimDashes.
  pose proof (removeInvalid_chars s) as Hp.
  apply (collapseDashes_chars _ false) in Hp.
  destruct (collapseDashes_single false (removeInvalid s)) as [Hd _].
  destruct (dropLeadingDash_spec _ _ Hp Hd) as (Hp' & Hd' & Hs').
  apply toLowerCase_kebab.
  - now apply dropTrailingDash_chars.
  - now apply dropTrailingDash_single.
  - now apply dropTrailingDash_start.
  - now apply dropTrailingDash_end.
Qed.

(** *** The tokens pushed *)

Lemma doc_induction (P : doc -> Prop) :
  P Leaf ->
  (forall ty v d children, Forall (fun kv => P kv.2) children ->
                           P (Group ty v d children)) ->
  forall obj, P obj.
Proof.
  intros HL HG. fix IH 1. intros [|ty v d children]; [exact HL|].
  apply HG. induction children as [|[k x] cs IHcs]; constructor;
    [apply IH | exact IHcs].
Qed.

(** Every token pushed is made from the path of an object that has a
    [$value] or a [$type]. *)
Lemma flattenTokens_made obj :
  forall path t,
    In t (flattenTokens obj path) ->
    exists currentPath ty v d, t = makeToken currentPath ty v d.
Proof.
  induction obj as [|ty v d children IH] using doc_induction;
    intros path t; cbn [flattenTokens]; [intros []|].
  intros Hin. apply in_flat_map in Hin as ([key value] & Hentry & Hin).
  rewrite Forall_forall in IH. apply list_elem_of_In in Hentry.
  specialize (IH _ Hentry). cbn [snd] in IH.
  unfold flattenEntry in Hin. destruct (startsWith key "$"); [destruct Hin|].
  destruct value as [|ty' v' d' children']; [destruct Hin|].
  destruct v' as [j|]; [|destruct ty' as [ty'|]];
    try (destruct Hin as [<-|[]]; eauto 6).
  exact (IH _ _ Hin).
Qed.

(** X16.  Every token the W3C flattener pushes has a well-formed name, made
    of lower-case letters, digits and single hyphens with no hyphen at either
    end, whatever the keys of the document; so has the target name of every
    reference; and the raw value of a token is its value. *)
Theorem flattenTokens_names_are_kebab obj path t :
  In t (flattenTokens obj path) ->
  kebabName (name t) = true
  /\ (forall r, references t = Some r -> kebabName r = true)
  /\ rawValue t = value t.
Proof.
  intros Hin.
  destruct (flattenTokens_made obj path t Hin) as (cp & ty & v & d & ->).
  cbn [name references rawValue value makeToken].
  split; [apply finish_kebab|]. split; [|reflexivity].
  intros r. destruct v as [[| | |s| |]|]; try discriminate.
  destruct (isReference s); [|discriminate].
  intros [= <-]. apply finish_kebab.
Qed.

Lemma flattenTokens_names_are_kebab_witness :
  name Samples.gapToken = "gap-m"
  /\ kebabName (name Samples.gapToken) = true
  /\ (forall r, references Samples.gapToken = Some r -> kebabName r = true)
  /\ rawValue Samples.gapToken = value Samples.gapToken.
Proof.
  split; [reflexivity|].
  apply (flattenTokens_names_are_kebab Samples.w3cDocument [] Samples.gapToken).
  right. now left.
Defined.

(** *** References and names *)

Lemma underscoresToDashes_rev_app s acc :
  underscoresToDashes (String.rev_app s acc)
  = String.rev_app (underscoresToDashes s) (underscoresToDashes acc).
Proof.
  revert acc. induction s as [|c s IH]; intros acc; [reflexivity|].
  cbn [String.rev_app underscoresToDashes]. now rewrite IH.
Qed.

Lemma underscoresToDashes_rev s :
  underscoresToDashes (String.rev s) = String.rev (underscoresToDashes s).
Proof. apply underscoresToDashes_rev_app. Qed.

Lemma paren_underscore c :
  Ascii.eqb (if Ascii.eqb c "_" then "-"%char else c) "(" = Ascii.eqb c "("
  /\ Ascii.eqb (if Ascii.eqb c "_" then "-"%char else c) ")" = Ascii.eqb c ")".
Proof. destruct c as [[] [] [] [] [] [] [] []]; split; reflexivity. Qed.

(** Removing the parentheses and replacing the underscores commute. *)
Lemma removeParensFrom_underscores pending s :
  removeParensFrom (option_map underscoresToDashes pending)
                   (underscoresToDashes s)
  = underscoresToDashes (removeParensFrom pending s).
Proof.
  revert pending. induction s as [|c s IH]; intros pending.
  - destruct pending as [held|]; [|reflexivity]. cbn.
    now rewrite underscoresToDashes_rev.
  - cbn [underscoresToDashes removeParensFrom].
    destruct (paren_underscore c) as [Hopen Hclose].
    destruct pending as [held|]; cbn [option_map].
    + rewrite Hclose. destruct (Ascii.eqb c ")"); [apply (IH None)|].
      apply (IH (Some (String c held))).
    + rewrite Hopen. destruct (Ascii.eqb c "(") eqn:E.
      * apply (IH (Some "(")).
      * cbn [underscoresToDashes]. f_equal. apply (IH None).
Qed.

Lemma dotsToDashes_app a b :
  dotsToDashes (a +:+ b) = dotsToDashes a +:+ dotsToDashes b.
Proof.
  induction a as [|c a IH]; [reflexivity|].
  rewrite append_cons. cbn [dotsToDashes]. now rewrite append_cons, IH.
Qed.

Lemma dotsToDashes_same s : hasChar "." s = false -> dotsToDashes s = s.
Proof.
  induction s as [|c s IH]; [reflexivity|]. cbn. intros H.
  apply orb_false_iff in H as [-> H]. now rewrite IH.
Qed.

Lemma dotsToDashes_join path :
  Forall (fun seg => hasChar "." seg = false) path ->
  dotsToDashes (join "." path) = join "-" path.
Proof.
  induction 1 as [|p ps Hp _ IH]; [reflexivity|].
  destruct ps as [|q ps]; [now apply dotsToDashes_same|].
  change (join "." (p :: q :: ps)) with (p +:+ String "." (join "." (q :: ps))).
  change (join "-" (p :: q :: ps)) with (p +:+ String "-" (join "-" (q :: ps))).
  rewrite dotsToDashes_app, (dotsToDashes_same _ Hp).
  cbn [dotsToDashes]. now rewrite IH.
Qed.

Lemma dropLast_append s c : dropLast (s +:+ String c EmptyString) = s.
Proof.
  induction s as [|c' s IH]; [reflexivity|]. rewrite append_cons.
  destruct s as [|c'' s]; [reflexivity|].
  rewrite append_cons in *. cbn [dropLast] in *. now rewrite IH.
Qed.

Lemma slice1_braces s : slice1 ("{" +:+ s +:+ "}") = s.
Proof.
  change ("{" +:+ s +:+ "}") with (String "{" (s +:+ "}")).
  apply dropLast_append.
Qed.

Lemma reference_names_path path :
  Forall (fun seg => hasChar "." seg = false) path ->
  referenceOf ("{" +:+ join "." path +:+ "}") = tokenNameOf path.
Proof.
  intros Hpath. unfold referenceOf, tokenNameOf, removeParens.
  rewrite slice1_braces, (dotsToDashes_join _ Hpath).
  now rewrite (removeParensFrom_underscores None).
Qed.

(** X17.  A reference that spells the path of a token, with dots between
    the segments, is turned into the very name the flattener gives to the
    token at that path, whatever parentheses, underscores, spaces or other
    characters the segments hold, as long as no segment holds a dot. *)
Theorem reference_to_dotted_path_is_token_name path :
  Forall (fun seg => hasChar "." seg = false) path ->
  referenceOf ("{" +:+ join "." path +:+ "}") = tokenNameOf path.
Proof. apply reference_names_path. Qed.

Lemma reference_to_dotted_path_is_token_name_witness :
  referenceOf ("{" +:+ join "." ["scale"; "200_(16px)"] +:+ "}")
  = tokenNameOf ["scale"; "200_(16px)"].
Proof.
  apply reference_to_dotted_path_is_token_name. repeat constructor.
Defined.

(** X18.  End to end: a token whose [$value] is the dotted path of another
    token between braces receives, in [W3CParser.parse], the value of the
    token that bears the name made from that path, when that token holds no
    reference itself. *)
Theorem dotted_reference_resolves data i t path target
  (Hi : flattenTokens data [] !! i = Some t)
  (Hvalue : value t = Some (JStr ("{" +:+ join "." path +:+ "}")))
  (Href : isReference ("{" +:+ join "." path +:+ "}") = true)
  (Hpath : Forall (fun seg => hasChar "." seg = false) path)
  (Hname : truthy (tokenNameOf path) = true)
  (Htarget : lookupToken (flattenTokens data []) (tokenNameOf path)
             = Some target)
  (Hliteral : hasReference target = false) :
  (parse data).1 !! i = Some (setValue (value target) t).
Proof.
  unfold parse. rewrite resolveReferences_pointwise. cbn [fst].
  rewrite list_lookup_fmap, Hi. cbn. f_equal.
  assert (Hrefs : references t = Some (tokenNameOf path)).
  { assert (Hin : In t (flattenTokens data [])).
    { apply list_elem_of_In. eapply list_elem_of_lookup_2, Hi. }
    destruct (flattenTokens_made data [] t Hin) as (cp & ty & v & d & ->).
    cbn [value makeToken] in Hvalue. subst v.
    cbn [references makeToken]. rewrite Href.
    now rewrite (reference_names_path path Hpath). }
  unfold resolved. rewrite Hrefs, Hname.
  rewrite (follow_reaches _ _ _ (value target)); [reflexivity|].
  now apply reaches_here.
Qed.

Lemma dotted_reference_resolves_witness :
  (parse Samples.w3cDocument).1 !! 1
  = Some (setValue (Some (JStr "16px")) Samples.gapToken).
Proof.
  apply (dotted_reference_resolves Samples.w3cDocument 1 Samples.gapToken
                                   ["scale"; "200_(16px)"]
                                   Samples.scaleStepToken);
    try reflexivity.
  repeat constructor.
Defined.

End W3CFlattenFacts.

(** * Properties of the deduplication *)

Module DedupeFacts.
Import JsString JsObject JsObjectFacts Token Dedupe.

Section WithValue.
Context {V : Type}.

Lemma lastNamed_snoc k (seen : list (StandardToken V)) t :
  lastNamed k (seen ++ [t])
  = if String.eqb (name t) k then Some t else lastNamed k seen.
Proof.
  induction seen as [|t0 seen IH]; cbn [app lastNamed].
  - now destruct (String.eqb (name t) k).
  - rewrite IH. destruct (String.eqb (name t) k); [reflexivity|].
    reflexivity.
Qed.

Lemma lastNamed_name k (seen : list (StandardToken V)) t :
  lastNamed k seen = Some t -> name t = k /\ In t seen.
Proof.
  induction seen as [|t0 seen IH]; cbn [lastNamed]; [discriminate|].
  destruct (lastNamed k seen) as [t'|].
  - intros [= <-]. destruct (IH eq_refl) as [? ?]. split; [assumption|now right].
  - destruct (String.eqb_spec (name t0) k); [|discriminate].
    intros [= <-]. split; [assumption | now left].
Qed.

Lemma keys_update {A} k (v : A) o : keys (update k v o) = keys o.
Proof.
  unfold keys. induction o as [|[k' v'] o IH]; [reflexivity|]. cbn [update].
  destruct (String.eqb_spec k' k) as [->|_]; [reflexivity|].
  cbn [map fst]. now rewrite IH.
Qed.

Lemma has_keys {A} k (o : obj A) : has k o = true <-> In k (keys o).
Proof.
  unfold has. induction o as [|[k' v'] o IH]; cbn [get keys map fst].
  - split; [discriminate | intros []].
  - destruct (String.eqb_spec k' k) as [->|Hne].
    + split; [now left | reflexivity].
    + rewrite IH. cbn [keys]. split; [now right | intros [?|?]; [congruence|assumption]].
Qed.

Lemma get_snoc {A} k k' (v : A) o :
  get k' (o ++ [(k, v)])
  = match get k' o with
    | Some x => Some x
    | None => if String.eqb k k' then Some v else None
    end.
Proof.
  induction o as [|[k0 v0] o IH]; cbn [app get]; [reflexivity|].
  destruct (String.eqb k0 k'); [reflexivity | exact IH].
Qed.

Lemma built_step (seen : list (StandardToken V)) m n t :
  built seen m n ->
  built (seen ++ [t]) (dedupeStep (m, n) t).1 (dedupeStep (m, n) t).2.
Proof.
  intros (Hnd & Hget & Hlen). unfold dedupeStep, mapSet. cbn [fst snd].
  destruct (has (name t) m) eqn:Hhas.
  - split; [now rewrite keys_update|]. split.
    + intros k. rewrite lastNamed_snoc.
      destruct (String.eqb_spec (name t) k) as [Heq|Hne].
      * subst k. now apply get_update_eq.
      * rewrite get_update_ne; [apply Hget | exact Hne].
    + rewrite length_app. cbn [length].
      assert (length (update (name t) t m) = length m) as ->.
      { rewrite <- (length_map fst). change (map fst ?o) with (keys o).
        rewrite keys_update. apply length_map. }
      lia.
  - assert (Hnot : ~ In (name t) (keys m)).
    { rewrite <- has_keys. congruence. }
    split; [|split].
    + unfold keys. rewrite map_app. cbn [map fst].
      apply NoDup_app. split; [exact Hnd|]. split.
      * intros x Hx Hx'. apply list_elem_of_singleton in Hx'. subst x.
        apply Hnot. now apply list_elem_of_In.
      * apply NoDup_singleton.
    + intros k. rewrite get_snoc, lastNamed_snoc, Hget.
      destruct (lastNamed k seen) as [t'|] eqn:Hlast.
      * destruct (String.eqb_spec (name t) k) as [Heq|_]; [|reflexivity].
        exfalso. apply Hnot. rewrite Heq. apply has_keys. unfold has.
        now rewrite Hget, Hlast.
      * reflexivity.
    + rewrite !length_app. cbn [length]. lia.
Qed.

Lemma built_fold (rest seen : list (StandardToken V)) m n :
  built seen m n ->
  built (seen ++ rest) (fold_left dedupeStep rest (m, n)).1
        (fold_left dedupeStep rest (m, n)).2.
Proof.
  revert seen m n. induction rest as [|t rest IH]; intros seen m n Hb.
  - now rewrite app_nil_r.
  - cbn [fold_left].
    replace (seen ++ t :: rest) with ((seen ++ [t]) ++ rest)
      by now rewrite <- app_assoc.
    pose proof (built_step seen m n t Hb) as Hstep.
    destruct (dedupeStep (m, n) t) as [m' n']. now apply IH.
Qed.

Lemma built_entries (seen : list (StandardToken V)) m n :
  built seen m n -> forall k t, In (k, t) m -> get k m = Some t.
Proof.
  intros (Hnd & _ & _). clear seen n.
  induction m as [|[k0 t0] m IH]; intros k t; [intros []|].
  cbn [keys map fst] in Hnd. apply NoDup_cons in Hnd as [Hk0 Hnd].
  intros [[= -> ->]|Hin]; cbn [get].
  - now rewrite String.eqb_refl.
  - destruct (String.eqb_spec k0 k) as [->|_]; [|now apply IH].
    exfalso. apply Hk0. apply list_elem_of_In. apply in_map_iff.
    now exists (k, t).
Qed.

(** X19.  Deduplication keeps one token for each name, the last one of the
    array; the count of duplicates removed is the difference of the two
    lengths. *)
Theorem deduplicate_keeps_last (allTokens : list (StandardToken V)) :
  NoDup (map name (deduplicate allTokens).1)
  /\ (forall t, In t (deduplicate allTokens).1
                <-> lastNamed (name t) allTokens = Some t)
  /\ length (deduplicate allTokens).1 + (deduplicate allTokens).2
     = length allTokens.
Proof.
  unfold deduplicate.
  pose proof (built_fold allTokens [] [] 0) as Hb. cbn [app] in Hb.
  destruct (fold_left dedupeStep allTokens ([], 0)) as [m n].
  cbn [fst snd] in *.
  assert (Hstart : built (V := V) [] [] 0).
  { split; [constructor|]. split; [reflexivity | reflexivity]. }
  specialize (Hb Hstart).
  pose proof (built_entries _ _ _ Hb) as Hentries.
  destruct Hb as (Hnd & Hget & Hlen).
  assert (Hnames : forall k t, In (k, t) m -> name t = k).
  { intros k t Hin. apply Hentries in Hin. rewrite Hget in Hin.
    now apply lastNamed_name in Hin. }
  split; [|split].
  - assert (Heq : map name (values m) = keys m).
    { unfold values, keys. rewrite map_map. apply map_ext_in.
      intros [k t] Hin. now apply Hnames. }
    now rewrite Heq.
  - intros t. unfold values. rewrite in_map_iff. split.
    + intros ([k t'] & <- & Hin). cbn [snd].
      rewrite (Hnames _ _ Hin), <- Hget. now apply Hentries.
    + intros Hlast. rewrite <- Hget in Hlast. apply get_in in Hlast.
      now exists (name t, t).
  - unfold values. now rewrite length_map.
Qed.

End WithValue.
End DedupeFacts.

(** * Properties of the legacy W3C parser *)

Module LegacyParserFacts.
Import JsString JsStringFacts JsObject JsObjectFacts Json LegacyClassifier.
Import DedupeFacts W3CFlattenFacts LegacyParser.

(** *** Objects *)

Lemma keys_insertIndex {A} n k (v : A) o :
  Permutation (keys (insertIndex n k v o)) (k :: keys o).
Proof.
  unfold keys. induction o as [|[k' v'] o IH]; [reflexivity|].
  cbn [insertIndex]. destruct (precedes n k'); [reflexivity|].
  cbn [map fst]. rewrite IH. apply perm_swap.
Qed.

(** Assignment keeps the keys of an object, or adds the new one. *)
Lemma keys_set {A} k (v : A) o :
  if has k o then keys (set k v o) = keys o
  else Permutation (keys (set k v o)) (k :: keys o).
Proof.
  unfold set. destruct (has k o); [apply keys_update|].
  destruct (arrayIndex k); [apply keys_insertIndex|].
  unfold keys. rewrite map_app. cbn [map fst].
  symmetry. apply Permutation_cons_append.
Qed.

Lemma NoDup_keys_set {A} k (v : A) o :
  NoDup (keys o) -> NoDup (keys (set k v o)).
Proof.
  intros Hnd. pose proof (keys_set k v o) as H.
  destruct (has k o) eqn:Hhas; [now rewrite H|].
  rewrite H. apply NoDup_cons. split; [|exact Hnd].
  rewrite list_elem_of_In, <- has_keys. congruence.
Qed.

Lemma length_set_new {A} k (v : A) o :
  has k o = false -> length (set k v o) = S (length o).
Proof.
  intros Hhas. pose proof (keys_set k v o) as H. rewrite Hhas in H.
  apply Permutation_length in H. unfold keys in H.
  cbn [length] in H. rewrite !length_map in H. exact H.
Qed.

(** *** The flattener *)

Lemma flattenTokens_keyed data :
  forall path result,
    Forall (fun segment => startsWith segment "$" = false) path ->
    NoDup (keys result) /\ keyedByPath result ->
    NoDup (keys (flattenTokens data path result))
    /\ keyedByPath (flattenTokens data path result).
Proof.
  induction data as [|ty v d children IH] using doc_induction;
    intros path result Hpath Hresult; cbn [flattenTokens]; [exact Hresult|].
  revert result Hresult.
  induction IH as [|[key value] rest Hvalue _ IHrest]; intros result Hresult;
    [exact Hresult|].
  cbn [fold_left]. apply IHrest. cbn [snd] in Hvalue.
  unfold flattenEntry. destruct (startsWith key "$") eqn:Hkey; [exact Hresult|].
  assert (Hcurrent : Forall (fun segment => startsWith segment "$" = false)
                            (path ++ [key])).
  { apply Forall_app. split; [exact Hpath|]. now repeat constructor. }
  destruct value as [|ty' [v'|] d' children']; [exact Hresult| |].
  - destruct Hresult as [Hnd Hkeyed]. split; [now apply NoDup_keys_set|].
    intros k t Hin. apply in_set in Hin as [[-> ->]|Hin];
      [|exact (Hkeyed _ _ Hin)].
    cbn [LegacyClassifier.path LegacyClassifier.references makeToken].
    split; [reflexivity|]. split; [now destruct path|]. now split.
  - now apply Hvalue.
Qed.

(** X20.  The legacy flattener stores every token under the key that spells
    its path with dots; the path is never empty and holds no metadata key
    (no segment starts with [$]); a token starts without a [references]
    field; and no key is stored twice. *)
Theorem legacy_flattenTokens_keyed_by_path data :
  NoDup (keys (flattenTokens data [] []))
  /\ forall k t,
      In (k, t) (flattenTokens data [] []) ->
      k = join "." (path t)
      /\ path t <> []
      /\ Forall (fun segment => startsWith segment "$" = false) (path t)
      /\ references t = None.
Proof.
  apply flattenTokens_keyed; [constructor|].
  split; [constructor | intros k t []].
Qed.

(** *** The resolver *)

Lemma resolveEntry_other st k k' :
  k <> k' -> get k' (resolveEntry st k).1.1 = get k' st.1.1.
Proof.
  intros Hne. destruct st as [[resolved h] w]. unfold resolveEntry.
  destruct (get k resolved) as [token|]; [|reflexivity].
  destruct (value token) as [| | |s| |]; try reflexivity.
  destruct (Detect.isReference s); [|reflexivity].
  destruct (get (W3CFlatten.slice1 s) resolved); [|reflexivity].
  cbn [fst]. now apply get_update_ne.
Qed.

Lemma resolveEntry_literal st k k' t :
  get k' st.1.1 = Some t -> isLiteral t = true ->
  get k' (resolveEntry st k).1.1 = Some t.
Proof.
  intros Hget Hlit.
  destruct (String.eqb_spec k k') as [->|Hne];
    [|now rewrite resolveEntry_other].
  destruct st as [[resolved h] w]. cbn [fst] in Hget.
  unfold resolveEntry. rewrite Hget. unfold isLiteral in Hlit.
  destruct (value t) as [| | |s| |]; try exact Hget.
  apply negb_true_iff in Hlit. now rewrite Hlit.
Qed.

Lemma resolveEntry_keys st k :
  keys (resolveEntry st k).1.1 = keys st.1.1.
Proof.
  destruct st as [[resolved h] w]. unfold resolveEntry.
  destruct (get k resolved) as [token|]; [|reflexivity].
  destruct (value token) as [| | |s| |]; try reflexivity.
  destruct (Detect.isReference s); [|reflexivity].
  destruct (get (W3CFlatten.slice1 s) resolved); [|reflexivity].
  cbn [fst]. apply keys_update.
Qed.

(** What one step leaves at a key: the token that was there, or that token
    with a new value and reference. *)
Lemma resolveEntry_at st k k' t :
  get k' st.1.1 = Some t ->
  get k' (resolveEntry st k).1.1 = Some t
  \/ exists v r, get k' (resolveEntry st k).1.1 = Some (setResolved v r t)
                 /\ isLiteral t = false.
Proof.
  intros Hget.
  destruct (String.eqb_spec k k') as [->|Hne];
    [|left; now rewrite resolveEntry_other].
  destruct st as [[resolved h] w]. cbn [fst] in Hget.
  unfold resolveEntry. rewrite Hget. unfold isLiteral.
  destruct (value t) as [| | |s| |]; try (now left).
  destruct (Detect.isReference s); [|now left].
  destruct (get (W3CFlatten.slice1 s) resolved) as [target|]; [|now left].
  right. exists (value target), (W3CFlatten.slice1 s). split; [|reflexivity].
  cbn [fst]. apply get_update_eq. unfold has. now rewrite Hget.
Qed.

Lemma passes_S fuel resolved warnings :
  passes (S fuel) resolved warnings
  = let '(resolved', hasUnresolved, warnings') := pass resolved warnings in
    if hasUnresolved then passes fuel resolved' warnings'
    else (resolved', warnings').
Proof. reflexivity. Qed.

Lemma sameShape_refl tokens : sameShape tokens tokens.
Proof. split; [reflexivity|]. intros k t Hget. exists t. now repeat split. Qed.

Lemma resolveEntry_shape st k tokens :
  sameShape st.1.1 tokens -> sameShape (resolveEntry st k).1.1 tokens.
Proof.
  intros [Hkeys Hshape]. split; [now rewrite resolveEntry_keys|].
  intros k' t Hget.
  destruct (Hshape k' t Hget) as (t' & Hget' & Hty & Hpath & Hdesc & Hlit).
  destruct (resolveEntry_at st k k' t' Hget') as [H|(v & r & H & Hnot)].
  - exists t'. now repeat split.
  - exists (setResolved v r t'). split; [exact H|].
    split; [exact Hty|]. split; [exact Hpath|]. split; [exact Hdesc|].
    intros Ht. rewrite (Hlit Ht) in Hnot. congruence.
Qed.

Lemma fold_shape ks st tokens :
  sameShape st.1.1 tokens ->
  sameShape (fold_left resolveEntry ks st).1.1 tokens.
Proof.
  revert st. induction ks as [|k ks IH]; intros st H; [exact H|].
  cbn [fold_left]. now apply IH, resolveEntry_shape.
Qed.

Lemma passes_shape fuel resolved warnings tokens :
  sameShape resolved tokens ->
  sameShape (passes fuel resolved warnings).1 tokens.
Proof.
  revert resolved warnings.
  induction fuel as [|fuel IH]; intros resolved warnings H; [exact H|].
  rewrite passes_S. unfold pass.
  pose proof (fold_shape (keys resolved) (resolved, false, warnings) tokens H)
    as Hfold.
  destruct (fold_left _ _ _) as [[resolved' h] w]. cbn [fst] in Hfold.
  destruct h; [now apply IH | exact Hfold].
Qed.

(** X21.  The legacy resolver changes values and [references] fields only:
    the object returned has the keys of the object given, in the same
    order; every token keeps its type, path and description; and a token
    whose value is not a reference text is returned untouched. *)
Theorem legacy_resolveReferences_keeps_shape tokens :
  keys (resolveReferences tokens).1 = keys tokens
  /\ forall k t,
      get k tokens = Some t ->
      exists t',
        get k (resolveReferences tokens).1 = Some t'
        /\ type t' = type t /\ path t' = path t
        /\ description t' = description t
        /\ (isLiteral t = true -> t' = t).
Proof. apply passes_shape, sameShape_refl. Qed.

Lemma fold_literal ks st k t :
  get k st.1.1 = Some t -> isLiteral t = true ->
  get k (fold_left resolveEntry ks st).1.1 = Some t.
Proof.
  revert st. induction ks as [|k0 ks IH]; intros st Hget Hlit; [exact Hget|].
  cbn [fold_left]. apply IH; [|exact Hlit]. now apply resolveEntry_literal.
Qed.

Lemma passes_literal fuel resolved warnings k t :
  get k resolved = Some t -> isLiteral t = true ->
  get k (passes fuel resolved warnings).1 = Some t.
Proof.
  revert resolved warnings.
  induction fuel as [|fuel IH]; intros resolved warnings Hget Hlit;
    [exact Hget|].
  rewrite passes_S. unfold pass.
  pose proof (fold_literal (keys resolved) (resolved, false, warnings) k t
                Hget Hlit) as Hfold.
  destruct (fold_left _ _ _) as [[resolved' h] w]. cbn [fst] in Hfold.
  destruct h; [now apply IH | exact Hfold].
Qed.

Lemma fold_direct ks st a ta b tb s :
  value ta = JStr s -> Detect.isReference s = true ->
  W3CFlatten.slice1 s = b ->
  isLiteral tb = true ->
  get b st.1.1 = Some tb ->
  get a st.1.1 = Some ta ->
  In a ks ->
  get a (fold_left resolveEntry ks st).1.1
  = Some (setResolved (value tb) b ta).
Proof.
  intros Hvalue Href Hslice Hlit. revert st.
  induction ks as [|k ks IH]; intros st Hb Ha Hin; [destruct Hin|].
  cbn [fold_left].
  destruct (String.eqb_spec k a) as [->|Hne].
  - apply fold_literal.
    + destruct st as [[resolved h] w]. cbn [fst] in *.
      unfold resolveEntry. rewrite Ha, Hvalue, Href, Hslice, Hb. cbn [fst].
      apply get_update_eq. unfold has. now rewrite Ha.
    + unfold isLiteral in *. exact Hlit.
  - destruct Hin as [Heq|Hin]; [congruence|].
    apply IH; [| |exact Hin].
    + now apply resolveEntry_literal.
    + now rewrite resolveEntry_other.
Qed.

(** X22.  A token whose value is a reference to a token that holds a value
    other than a reference receives that value, and its [references] field
    is the name between the braces, wherever the two tokens stand in the
    object. *)
Theorem legacy_direct_reference_resolves tokens a ta b tb s
  (Ha : get a tokens = Some ta)
  (Hvalue : value ta = JStr s)
  (Href : Detect.isReference s = true)
  (Hslice : W3CFlatten.slice1 s = b)
  (Hb : get b tokens = Some tb)
  (Hlit : isLiteral tb = true) :
  get a (resolveReferences tokens).1 = Some (setResolved (value tb) b ta).
Proof.
  unfold resolveReferences. rewrite passes_S. unfold pass.
  assert (Hin : In a (keys tokens)).
  { apply has_keys. unfold has. now rewrite Ha. }
  pose proof (fold_direct (keys tokens) (tokens, false, []) a ta b tb s
                Hvalue Href Hslice Hlit Hb Ha Hin) as Hfold.
  destruct (fold_left _ _ _) as [[resolved' h] w]. cbn [fst] in Hfold.
  destruct h; [|exact Hfold].
  apply passes_literal; [exact Hfold | exact Hlit].
Qed.

Lemma legacy_direct_reference_resolves_witness :
  get "Text.Primary"
      (resolveReferences (flattenTokens Samples.legacyDocument [] [])).1
  = Some (setResolved (JStr "#eaeaea") "Base.Grey.200"
                      Samples.legacyTextPrimary).
Proof.
  apply (legacy_direct_reference_resolves
           (flattenTokens Samples.legacyDocument [] [])
           "Text.Primary" Samples.legacyTextPrimary
           "Base.Grey.200" Samples.legacyBaseGrey200 "{Base.Grey.200}");
    reflexivity.
Defined.

(** *** Statistics *)

(** A loop that assigns every entry to one of several objects counts every
    entry once, when the entries have distinct keys. *)
Lemma routed_fold {S} (step : S -> string * LTok -> S) (size : S -> nat)
      (owns : S -> string -> Prop) :
  (forall st k t,
      ~ owns st k ->
      size (step st (k, t)) = Datatypes.S (size st)
      /\ forall k', owns (step st (k, t)) k' -> k' = k \/ owns st k') ->
  forall rest st,
    NoDup (keys rest) ->
    (forall k, owns st k -> ~ In k (keys rest)) ->
    size (fold_left step rest st) = size st + length rest.
Proof.
  intros Hstep rest.
  induction rest as [|[k t] rest IH]; intros st Hnd Hfresh;
    cbn [fold_left length]; [lia|].
  cbn [keys map fst] in Hnd, Hfresh. apply NoDup_cons in Hnd as [Hk Hnd].
  assert (Hnew : ~ owns st k).
  { intros Hown. apply (Hfresh k Hown). now left. }
  destruct (Hstep st k t Hnew) as [Hsize Howns].
  rewrite IH, Hsize; [lia | exact Hnd |].
  intros k' Hk' Hin. destruct (Howns k' Hk') as [->|Hold].
  - apply Hk. now apply list_elem_of_In.
  - apply (Hfresh k' Hold). now right.
Qed.

Lemma set_counts {A} k (v : A) o :
  ~ In k (keys o) ->
  length (keys (set k v o)) = Datatypes.S (length (keys o))
  /\ forall k', In k' (keys (set k v o)) -> k' = k \/ In k' (keys o).
Proof.
  intros Hnew. assert (Hhas : has k o = false).
  { destruct (has k o) eqn:E; [|reflexivity]. now apply has_keys in E. }
  split.
  - unfold keys. rewrite !length_map. now apply length_set_new.
  - intros k' Hin. pose proof (keys_set k v o) as H. rewrite Hhas in H.
    apply (Permutation_in _ H) in Hin. destruct Hin; [left|right]; auto.
Qed.

Lemma classify_counts (tokens : obj LTok) :
  NoDup (keys tokens) ->
  length (keys (classifyTokens tokens).1)
  + length (keys (classifyTokens tokens).2)
  = length tokens.
Proof.
  intros Hnd. unfold classifyTokens.
  rewrite (routed_fold (classifyStep tokens)
             (fun st => length (keys st.1) + length (keys st.2))
             (fun st k => In k (keys st.1) \/ In k (keys st.2)));
    [reflexivity | | exact Hnd | intros k [[]|[]]].
  intros [p s] k t Hnew. cbn [fst snd] in *. unfold classifyStep.
  assert (Hp : ~ In k (keys p)) by tauto.
  assert (Hs : ~ In k (keys s)) by tauto.
  destruct (set_counts k t p Hp) as [Hp1 Hp2].
  destruct (set_counts k t s Hs) as [Hs1 Hs2].
  destruct (truthyOpt (references t));
    [destruct (String.eqb (type t) "dimension" && referencesDimension tokens t)|];
    cbn [fst snd]; (split; [lia|]); intros k' [Hk'|Hk']; auto;
    first [destruct (Hp2 k' Hk'); auto | destruct (Hs2 k' Hk'); auto].
Qed.

Lemma group_counts (tokens : obj LTok) :
  NoDup (keys tokens) ->
  groupsSize (groupByCategory tokens) = length tokens.
Proof.
  intros Hnd. unfold groupByCategory.
  rewrite (routed_fold groupStep groupsSize groupsOwn);
    [reflexivity | | exact Hnd | intros k H; unfold groupsOwn in H; cbn in H; tauto].
  intros [c d ff fw du o] k t Hnew. unfold groupsOwn, groupsSize in *.
  cbn [colors dimensions fontFamilies fontWeights durations other] in *.
  unfold groupStep.
  repeat match goal with
         | |- context [if ?b then _ else _] => destruct b
         end;
    cbn [colors dimensions fontFamilies fontWeights durations other];
    match goal with
    | |- context [set k t ?x] =>
        let H1 := fresh in let H2 := fresh in
        assert (Hx : ~ In k (keys x)) by tauto;
        destruct (set_counts k t x Hx) as [H1 H2];
        split; [lia|]; intros k' Hk';
        repeat (destruct Hk' as [Hk'|Hk']); auto 10;
        destruct (H2 k' Hk'); auto 10
    end.
Qed.

(** X23.  In the statistics of a token object, the primitives and the
    semantics add up to the total, and so do the six counts by type: every
    token is counted once on each side. *)
Theorem generateStats_totals_add_up (tokens : obj LTok)
  (Hkeys : NoDup (keys tokens)) :
  let stats := generateStats tokens in
  total stats = primitives stats + semantics stats
  /\ total stats
     = colorCount (byType stats) + dimensionCount (byType stats)
       + fontFamilyCount (byType stats) + fontWeightCount (byType stats)
       + durationCount (byType stats) + otherCount (byType stats).
Proof.
  cbn zeta. unfold generateStats.
  pose proof (classify_counts tokens Hkeys) as Hclassify.
  pose proof (group_counts tokens Hkeys) as Hgroups.
  destruct (classifyTokens tokens) as [p s]. cbn [fst snd] in Hclassify.
  cbn [total primitives semantics byType colorCount dimensionCount
       fontFamilyCount fontWeightCount durationCount otherCount].
  unfold groupsSize in Hgroups.
  assert (Htotal : length (keys tokens) = length tokens)
    by apply length_map.
  split; lia.
Qed.

Lemma generateStats_totals_add_up_witness :
  let stats := generateStats (flattenTokens Samples.legacyDocument [] []) in
  total stats = 2
  /\ total stats = primitives stats + semantics stats
  /\ total stats
     = colorCount (byType stats) + dimensionCount (byType stats)
       + fontFamilyCount (byType stats) + fontWeightCount (byType stats)
       + durationCount (byType stats) + otherCount (byType stats).
Proof.
  split; [reflexivity|].
  apply (generateStats_totals_add_up
           (flattenTokens Samples.legacyDocument [] [])).
  apply (bool_decide_unpack _). vm_compute. reflexivity.
Defined.

End LegacyParserFacts.

(** * Properties of the name conversions of the legacy parser *)

Module LegacyNamesFacts.
Import JsString JsStringFacts ParserInvariants W3CFlatten.
Import LegacyParser.

Lemma allChars_app p a b :
  allChars p (a +:+ b) = allChars p a && allChars p b.
Proof.
  induction a as [|c a IH]; [reflexivity|]. rewrite append_cons.
  cbn [allChars]. now rewrite IH, andb_assoc.
Qed.

(** A function that rewrites a text character by character turns a text
    whose characters are all in one class into one whose characters are all
    in the class the rewriting leads to. *)
Lemma allChars_map (p q : ascii -> bool) (f : ascii -> ascii)
      (m : string -> string) s :
  m EmptyString = EmptyString ->
  (forall c s', m (String c s') = String (f c) (m s')) ->
  (forall c, p c = true -> q (f c) = true) ->
  allChars p s = true -> allChars q (m s) = true.
Proof.
  intros Hnil Hcons Hpq. induction s as [|c s IH]; [now rewrite Hnil|].
  rewrite Hcons. cbn. intros H. apply andb_prop in H as [Hc Hs].
  now rewrite (Hpq c Hc), IH.
Qed.

Lemma hyphenateCamel_chars p s :
  p "-"%char = true -> allChars p s = true ->
  allChars p (Names.hyphenateCamel s) = true.
Proof.
  intros Hdash. induction s as [|c|c1 c2 s IH1 IH2] using NamesFacts.string_ind2;
    try (intros H; exact H).
  intros H. rewrite NamesFacts.hyphenateCamel_two.
  cbn [allChars] in H. apply andb_prop in H as [H1 H].
  destruct (isLower c1 && isUpper c2).
  - apply andb_prop in H as [H2 H]. cbn [allChars].
    rewrite H1, Hdash, H2. cbn. now apply IH1.
  - cbn [allChars]. rewrite H1. cbn. now apply IH2.
Qed.

Lemma hasChar_allChars c s :
  hasChar c s = false <-> allChars (fun x => negb (Ascii.eqb x c)) s = true.
Proof.
  induction s as [|x s IH]; [easy|]. cbn.
  rewrite orb_false_iff, andb_true_iff, negb_true_iff, IH. reflexivity.
Qed.

Lemma removeUnderscores_chars s :
  allChars (fun x => negb (Ascii.eqb x ".")) s = true ->
  allChars isTsNameChar (removeUnderscores s) = true.
Proof.
  induction s as [|c s IH]; [reflexivity|]. cbn [allChars removeUnderscores].
  intros H. apply andb_prop in H as [Hc Hs].
  destruct (Ascii.eqb c "_") eqn:E; [now apply IH|].
  cbn [allChars]. rewrite (IH Hs). unfold isTsNameChar. rewrite E.
  apply negb_true_iff in Hc. now rewrite Hc.
Qed.

Lemma first_char_kept (f : ascii -> ascii) part :
  (forall c, Ascii.eqb (f c) "." = Ascii.eqb c ".") ->
  hasChar "." part = false ->
  hasChar "."
    (match part with
     | String c rest => String (f c) rest
     | EmptyString => EmptyString
     end) = false.
Proof.
  intros Hf. destruct part as [|c rest]; [easy|]. cbn. now rewrite Hf.
Qed.

Lemma dot_case c :
  Ascii.eqb (lowerChar c) "." = Ascii.eqb c "."
  /\ Ascii.eqb (Emitter.upperChar c) "." = Ascii.eqb c ".".
Proof. destruct c as [[] [] [] [] [] [] [] []]; split; reflexivity. Qed.

Lemma join_empty_chars p parts :
  Forall (fun part => allChars p part = true) parts ->
  allChars p (join EmptyString parts) = true.
Proof.
  induction 1 as [|part parts Hpart _ IH]; [reflexivity|].
  destruct parts as [|q parts]; [exact Hpart|].
  change (join EmptyString (part :: q :: parts))
    with (part +:+ (EmptyString +:+ join EmptyString (q :: parts))).
  change (EmptyString +:+ join EmptyString (q :: parts))
    with (join EmptyString (q :: parts)).
  now rewrite allChars_app, Hpart, IH.
Qed.

(** X24.  The two name conversions of the legacy parser leave no separator
    of the token path behind: a CSS variable name made without a prefix
    holds no dot, no underscore and no upper-case letter, and a prefix, when
    there is one, is put in front of that same name with a hyphen; a
    TypeScript property name holds no dot and no underscore. *)
Theorem legacy_names_have_no_separators tokenName :
  allChars isCssNameChar (toCSSVariableName tokenName EmptyString) = true
  /\ (forall prefix,
         truthy prefix = true ->
         toCSSVariableName tokenName prefix
         = prefix +:+ "-" +:+ toCSSVariableName tokenName EmptyString)
  /\ allChars isTsNameChar (toTypeScriptName tokenName) = true.
Proof.
  split; [|split].
  - unfold toCSSVariableName. cbn [truthy String.eqb negb].
    apply (allChars_map
             (fun c => negb (Ascii.eqb c ".") && negb (isUpper c))
             isCssNameChar
             (fun c => if Ascii.eqb c "_" then "-"%char else c));
      [reflexivity | reflexivity | |].
    { intros c. destruct c as [[] [] [] [] [] [] [] []]; vm_compute; congruence. }
    apply (allChars_map (fun c => negb (Ascii.eqb c "."))
                        (fun c => negb (Ascii.eqb c ".") && negb (isUpper c))
                        lowerChar);
      [reflexivity | reflexivity | |].
    { intros c. destruct c as [[] [] [] [] [] [] [] []]; vm_compute; congruence. }
    apply hyphenateCamel_chars; [reflexivity|].
    apply (allChars_map (fun _ => true) (fun c => negb (Ascii.eqb c "."))
                        (fun c => if Ascii.eqb c "." then "-"%char else c));
      [reflexivity | reflexivity | |].
    { intros c _. destruct c as [[] [] [] [] [] [] [] []]; reflexivity. }
    clear. induction tokenName as [|c s IH]; [reflexivity | exact IH].
  - intros prefix Hp. unfold toCSSVariableName. rewrite Hp. reflexivity.
  - unfold toTypeScriptName.
    pose proof (ParserExtras.hasChar_split "." tokenName) as Hparts.
    destruct (split "." tokenName) as [|first others]; [reflexivity|].
    apply removeUnderscores_chars, join_empty_chars.
    apply Forall_cons_iff in Hparts as [Hfirst Hothers].
    constructor.
    + apply hasChar_allChars. apply (first_char_kept lowerChar);
        [apply dot_case | exact Hfirst].
    + apply Forall_map. eapply Forall_impl; [exact Hothers|].
      intros part Hpart. cbn beta. apply hasChar_allChars.
      apply (first_char_kept Emitter.upperChar); [apply dot_case | exact Hpart].
Qed.

End LegacyNamesFacts.

(** * Properties of the semantic suggestions *)

Module SuggestionsFacts.
Import JsString Color SemanticColorsFacts Suggestions.

Section WithConfig.
Variable rules : ClassificationRules.
Variable settings : Settings.

Lemma confidence_levels tokenName tokenValue confidence :
  analyzeSemanticCandidate rules tokenName tokenValue = Some confidence ->
  confidence = "high" \/ confidence = "medium" \/ confidence = "low".
Proof.
  unfold analyzeSemanticCandidate.
  destruct (classifyToken rules tokenName); [discriminate|].
  destruct (isFigmaReference tokenValue); [intros [= <-]; tauto|].
  destruct (hasSemanticKeyword rules tokenName); intros [= <-]; tauto.
Qed.

Lemma push_filtered confidence entry report :
  confidence = "high" \/ confidence = "medium" \/ confidence = "low" ->
  geString confidence (confidenceThreshold settings) = true ->
  filtered settings report -> filtered settings (push confidence entry report).
Proof.
  intros Hlevel Hge (Hh & Hm & Hl).
  destruct Hlevel as [-> | [-> | ->]]; cbn; repeat split; auto.
Qed.

Lemma analyzeGroup_filtered groupData :
  forall groupPath report,
    filtered settings report ->
    filtered settings (analyzeGroup rules settings groupData groupPath report).
Proof.
  induction groupData as [|d children IH] using tree_induction;
    intros groupPath report Hreport; cbn [analyzeGroup]; [exact Hreport|].
  revert report Hreport.
  induction IH as [|[key value] rest Hvalue _ IHrest]; intros report Hreport;
    [exact Hreport|].
  cbn [fold_left]. apply IHrest. cbn [snd] in Hvalue.
  unfold analyzeEntry.
  destruct value as [|[tokenValue|] below]; [exact Hreport| |now apply Hvalue].
  destruct (analyzeSemanticCandidate _ _ _) as [confidence|] eqn:Hc;
    [|exact Hreport].
  destruct (geString confidence _) eqn:Hge; [|exact Hreport].
  apply push_filtered; [|exact Hge | exact Hreport].
  eapply confidence_levels, Hc.
Qed.

(** X25.  The suggestions report compares the confidence with the threshold
    as text, and in that order "high" comes before "low", which comes before
    "medium": with the threshold "medium" the report lists no candidate of
    high or low confidence, and with the threshold "low" it lists none of
    high confidence. *)
Theorem suggestions_compare_confidence_as_text colorsData report
  (Hreport : generateSemanticSuggestions rules settings colorsData
             = Some report) :
  (confidenceThreshold settings = "medium" ->
   high report = [] /\ low report = [])
  /\ (confidenceThreshold settings = "low" -> high report = []).
Proof.
  unfold generateSemanticSuggestions in Hreport.
  destruct (negb (enabled settings)); [discriminate|].
  injection Hreport as <-.
  destruct (analyzeGroup_filtered colorsData [] (mkReport [] [] []))
    as (Hh & Hm & Hl).
  { repeat split; intros H; now destruct H. }
  split.
  - intros Ht. rewrite Ht in *. split.
    + destruct (high _); [reflexivity|]. now discriminate Hh.
    + destruct (low _); [reflexivity|]. now discriminate Hl.
  - intros Ht. rewrite Ht in *.
    destruct (high _); [reflexivity|]. now discriminate Hh.
Qed.

End WithConfig.

Lemma suggestions_compare_confidence_as_text_witness :
  let report :=
    analyzeGroup Samples.suggestionRules Samples.suggestionSettings
                 Samples.referencedTextGroup [] (mkReport [] [] []) in
  analyzeSemanticCandidate Samples.suggestionRules "text-primarytext"
                           "{Base.black}" = Some "high"
  /\ high report = [] /\ low report = [].
Proof.
  split; [reflexivity|].
  destruct (suggestions_compare_confidence_as_text
              Samples.suggestionRules Samples.suggestionSettings
              Samples.referencedTextGroup _ eq_refl) as [Hmedium _].
  apply Hmedium. reflexivity.
Defined.

End SuggestionsFacts.

(** * Chains of references in the legacy resolver *)

Module LegacyChainsFacts.
Import JsString JsObject JsObjectFacts Json LegacyClassifier.
Import DedupeFacts LegacyParser LegacyParserFacts LegacyChains.

Lemma chain_value tokens x n v :
  chain tokens x n v -> isLiteralValue v = true.
Proof. induction 1 as [x t _ Hlit|]; [exact Hlit | assumption]. Qed.

Lemma literal_token t v :
  value t = v -> isLiteralValue v = true -> isLiteral t = true.
Proof. intros <-. now unfold isLiteral, isLiteralValue. Qed.

Lemma onTheWay_start tokens : onTheWay tokens tokens.
Proof.
  intros x n v Hchain.
  destruct Hchain as [x t Hget Hlit | x t s n v Hget Hvalue Href Hrest].
  - exists t. split; [exact Hget | now left].
  - exists t. split; [exact Hget|]. right. exists s, n. repeat split; auto.
Qed.

(** What a step does to the token it visits. *)
Lemma resolveEntry_visit st x t :
  get x st.1.1 = Some t ->
  match value t with
  | JStr s =>
      if Detect.isReference s then
        match get (W3CFlatten.slice1 s) st.1.1 with
        | Some target =>
            get x (resolveEntry st x).1.1
            = Some (setResolved (value target) (W3CFlatten.slice1 s) t)
            /\ (resolveEntry st x).1.2 = true
        | None => resolveEntry st x = (st.1.1, st.1.2, (resolveEntry st x).2)
        end
      else resolveEntry st x = st
  | _ => resolveEntry st x = st
  end.
Proof.
  destruct st as [[resolved h] w]. cbn [fst snd]. intros Hget.
  unfold resolveEntry. rewrite Hget.
  destruct (value t) as [| | |s| |]; try reflexivity.
  destruct (Detect.isReference s); [|reflexivity].
  destruct (get (W3CFlatten.slice1 s) resolved) as [target|]; [|reflexivity].
  cbn [fst snd]. split; [|reflexivity].
  apply get_update_eq. unfold has. now rewrite Hget.
Qed.

Lemma resolveEntry_onTheWay tokens st k :
  onTheWay tokens st.1.1 -> onTheWay tokens (resolveEntry st k).1.1.
Proof.
  intros Hway x n v Hchain.
  destruct (Hway x n v Hchain) as (t' & Hget & Hcase).
  destruct (String.eqb_spec k x) as [->|Hne];
    [|exists t'; now rewrite resolveEntry_other].
  pose proof (chain_value _ _ _ _ Hchain) as Hv.
  destruct Hcase as [Hdone|(s & m & Hvalue & Href & Hm & Hrest)].
  - exists t'. split; [|now left].
    apply resolveEntry_literal; [exact Hget|].
    now apply (literal_token t' v).
  - pose proof (resolveEntry_visit st x t' Hget) as Hvisit.
    rewrite Hvalue, Href in Hvisit.
    destruct (Hway _ _ _ Hrest) as (target & Htarget & Hcase).
    rewrite Htarget in Hvisit. destruct Hvisit as [Hnew _].
    exists (setResolved (value target) (W3CFlatten.slice1 s) t').
    split; [exact Hnew|]. cbn [value setResolved].
    destruct Hcase as [Hdone|(s2 & m2 & Hvalue2 & Href2 & Hm2 & Hrest2)];
      [now left|].
    right. exists s2, m2. repeat split; auto. lia.
Qed.

Lemma resolveEntry_settled tokens st k limit x :
  settledAt tokens st.1.1 limit x ->
  settledAt tokens (resolveEntry st k).1.1 limit x.
Proof.
  intros Hsettled n v Hchain Hn.
  destruct (Hsettled n v Hchain Hn) as (t' & Hget & Hvalue).
  exists t'. split; [|exact Hvalue].
  apply resolveEntry_literal; [exact Hget|].
  apply (literal_token t' v Hvalue), (chain_value _ _ _ _ Hchain).
Qed.

Lemma resolveEntry_flag st k :
  st.1.2 = true -> (resolveEntry st k).1.2 = true.
Proof.
  destruct st as [[resolved h] w]. cbn [fst snd]. intros ->.
  unfold resolveEntry. destruct (get k resolved) as [token|]; [|reflexivity].
  destruct (value token) as [| | |s| |]; try reflexivity.
  destruct (Detect.isReference s); [|reflexivity].
  now destruct (get (W3CFlatten.slice1 s) resolved).
Qed.

(** The step that visits [x] settles it when the tokens nearer to the end of
    its chain are settled; and it raises [hasUnresolved] unless [x] was
    settled already. *)
Lemma resolveEntry_settles tokens st k x :
  onTheWay tokens st.1.1 ->
  (forall y, settledAt tokens st.1.1 (Some k) y) ->
  settledAt tokens (resolveEntry st x).1.1 (Some (S k)) x
  /\ ((resolveEntry st x).1.2 = false ->
      settledAt tokens (resolveEntry st x).1.1 None x).
Proof.
  intros Hway Hsettled.
  assert (Hcases : forall n v,
             chain tokens x n v ->
             (exists t', get x (resolveEntry st x).1.1 = Some t'
                         /\ value t' = v
                         /\ get x st.1.1 = Some t')
             \/ ((resolveEntry st x).1.2 = true
                 /\ (n <= S k ->
                     exists t', get x (resolveEntry st x).1.1 = Some t'
                                /\ value t' = v))).
  { intros n v Hchain.
    destruct (Hway x n v Hchain) as (t' & Hget & Hcase).
    pose proof (chain_value _ _ _ _ Hchain) as Hv.
    destruct Hcase as [Hdone|(s & m & Hvalue & Href & Hm & Hrest)].
    - left. exists t'. split; [|now split].
      apply resolveEntry_literal; [exact Hget|].
      now apply (literal_token t' v).
    - right. pose proof (resolveEntry_visit st x t' Hget) as Hvisit.
      rewrite Hvalue, Href in Hvisit.
      destruct (Hway _ _ _ Hrest) as (target & Htarget & _).
      rewrite Htarget in Hvisit. destruct Hvisit as [Hnew Hflag].
      split; [exact Hflag|]. intros Hn.
      destruct (Hsettled _ m v Hrest) as (target' & Htarget' & Hvalue');
        [cbn; lia|].
      rewrite Htarget in Htarget'. injection Htarget' as <-.
      exists (setResolved (value target) (W3CFlatten.slice1 s) t').
      split; [exact Hnew | exact Hvalue']. }
  split.
  - intros n v Hchain Hn. cbn in Hn.
    destruct (Hcases n v Hchain) as [(t' & Hget & Hvalue & _)|[_ Hlate]];
      [now exists t' | now apply Hlate].
  - intros Hflag n v Hchain _.
    destruct (Hcases n v Hchain) as [(t' & Hget & Hvalue & _)|[Htrue _]];
      [now exists t' | congruence].
Qed.

(** The state of a pass after the keys [done]: the tokens are on the way,
    those within [k] references of the end of their chain are settled, the
    tokens visited are settled within [k + 1] references, and all of them
    are as long as [hasUnresolved] is not raised. *)
Lemma pass_progress tokens k ks :
  forall st done,
    onTheWay tokens st.1.1 ->
    (forall y, settledAt tokens st.1.1 (Some k) y) ->
    (forall y, In y done -> settledAt tokens st.1.1 (Some (S k)) y) ->
    (st.1.2 = false ->
     forall y, In y done -> settledAt tokens st.1.1 None y) ->
    let st' := fold_left resolveEntry ks st in
    onTheWay tokens st'.1.1
    /\ (forall y, settledAt tokens st'.1.1 (Some k) y)
    /\ (forall y, In y (done ++ ks) ->
                  settledAt tokens st'.1.1 (Some (S k)) y)
    /\ (st'.1.2 = false ->
        forall y, In y (done ++ ks) -> settledAt tokens st'.1.1 None y).
Proof.
  induction ks as [|x ks IH]; intros st done Hway Hk Hdone Hflag.
  - cbn. rewrite app_nil_r. auto.
  - cbn [fold_left].
    destruct (resolveEntry_settles tokens st k x Hway Hk) as [Hx Hxall].
    specialize (IH (resolveEntry st x) (done ++ [x])).
    replace ((done ++ [x]) ++ ks) with (done ++ x :: ks) in IH
      by now rewrite <- app_assoc.
    apply IH.
    + now apply resolveEntry_onTheWay.
    + intros y. now apply resolveEntry_settled.
    + intros y Hy. apply in_app_iff in Hy as [Hy|[<-|[]]]; [|exact Hx].
      now apply resolveEntry_settled, Hdone.
    + intros Hfalse y Hy. apply in_app_iff in Hy as [Hy|[<-|[]]];
        [|now apply Hxall].
      apply resolveEntry_settled, Hflag; [|exact Hy].
      destruct (st.1.2) eqn:E; [|reflexivity].
      rewrite (resolveEntry_flag st x E) in Hfalse. discriminate.
Qed.

Lemma chain_key tokens (resolved : obj LTok) x n v :
  keys resolved = keys tokens -> chain tokens x n v -> In x (keys resolved).
Proof.
  intros Hkeys Hchain. rewrite Hkeys. apply has_keys. unfold has.
  destruct Hchain as [x t Hget _ | x t s n v Hget _ _ _]; now rewrite Hget.
Qed.

Lemma fold_keys ks st :
  keys (fold_left resolveEntry ks st).1.1 = keys st.1.1.
Proof.
  revert st. induction ks as [|k ks IH]; intros st; [reflexivity|].
  cbn [fold_left]. now rewrite IH, resolveEntry_keys.
Qed.

Lemma passes_progress tokens fuel :
  forall k resolved warnings,
    keys resolved = keys tokens ->
    onTheWay tokens resolved ->
    (forall y, settledAt tokens resolved (Some k) y) ->
    forall y,
      settledAt tokens (passes fuel resolved warnings).1 (Some (k + fuel)) y.
Proof.
  induction fuel as [|fuel IH]; intros k resolved warnings Hkeys Hway Hk y.
  - rewrite Nat.add_0_r. apply Hk.
  - rewrite passes_S. unfold pass.
    pose proof (pass_progress tokens k (keys resolved)
                  (resolved, false, warnings) [] Hway Hk) as Hpass.
    pose proof (fold_keys (keys resolved) (resolved, false, warnings))
      as Hkeys'.
    cbn [fst snd app] in Hpass, Hkeys'.
    destruct Hpass as (Hway' & Hk' & Hnext & Hall);
      [intros ? [] | intros _ ? []|].
    destruct (fold_left resolveEntry (keys resolved) (resolved, false, warnings))
      as [[resolved' h] w]. cbn [fst snd] in *.
    assert (Hsettled : forall z, settledAt tokens resolved' (Some (S k)) z).
    { intros z n v Hchain Hn. refine (Hnext z _ n v Hchain Hn).
      rewrite <- Hkeys'. eapply chain_key; [|exact Hchain]. congruence. }
    destruct h.
    + replace (k + S fuel) with (S k + fuel) by lia.
      apply IH; [congruence | exact Hway' | exact Hsettled].
    + intros n v Hchain _. refine (Hall eq_refl y _ n v Hchain I).
      rewrite <- Hkeys'. eapply chain_key; [|exact Hchain]. congruence.
Qed.

(** X26.  The legacy resolver follows chains: a token from which ten
    references at most lead to a token holding a value that is not a
    reference ends with that value, wherever the tokens of the chain stand
    in the object. *)
Theorem legacy_chain_resolves tokens x n v
  (Hchain : chain tokens x n v)
  (Hdepth : n <= 10) :
  exists t',
    get x (resolveReferences tokens).1 = Some t' /\ value t' = v.
Proof.
  unfold resolveReferences.
  refine (passes_progress tokens 10 0 tokens [] eq_refl
            (onTheWay_start tokens) _ x n v Hchain Hdepth).
  intros y m w Hc Hm. cbn in Hm. assert (m = 0) as -> by lia.
  inversion Hc as [x' t Hget Hlit | ]; subst. now exists t.
Qed.

Lemma legacy_chain_resolves_witness :
  exists t',
    get "A" (resolveReferences
               (flattenTokens Samples.legacyChainDocument [] [])).1
    = Some t'
    /\ value t' = JStr "#ffffff".
Proof.
  apply (legacy_chain_resolves
           (flattenTokens Samples.legacyChainDocument [] [])
           "A" 2 (JStr "#ffffff")); [|lia].
  apply (chain_step _ "A" (makeToken ["A"] (Some "color") (JStr "{B}") None)
                    "{B}"); try reflexivity.
  apply (chain_step _ "B" (makeToken ["B"] (Some "color") (JStr "{C}") None)
                    "{C}"); try reflexivity.
  apply (chain_end _ "C"
                   (makeToken ["C"] (Some "color") (JStr "#ffffff") None));
    reflexivity.
Defined.

End LegacyChainsFacts.

(** * Names of new palettes *)

Module PaletteNameFacts.
Import JsString JsObject Color ColorFacts.

Lemma firstOccurrences_In n names :
  forall seen,
    In n (firstOccurrences seen names) <-> In n names /\ ~ In n seen.
Proof.
  induction names as [|m names IH]; intros seen; cbn [firstOccurrences].
  - cbn. tauto.
  - destruct (existsb (String.eqb m) seen) eqn:E.
    + rewrite IH. cbn [In]. apply existsb_exists in E as (m' & Hin & Heq).
      apply String.eqb_eq in Heq. subst m'.
      split; [tauto|]. intros [[->|Hn] Hnot]; [contradiction | tauto].
    + assert (Hm : ~ In m seen).
      { intros Hin. apply Bool.not_true_iff_false in E. apply E.
        apply existsb_exists. exists m. split; [exact Hin|].
        apply String.eqb_refl. }
      cbn [In]. rewrite IH, in_app_iff. cbn [In].
      destruct (String.eqb_spec m n) as [->|Hne]; [tauto|].
      split; [tauto|]. intros [[Heq|Hn] Hnot]; [contradiction|].
      right. tauto.
Qed.

Lemma usedNames_In existingPrimitives n :
  In n (usedNames existingPrimitives)
  <-> exists key,
      In key (keys existingPrimitives)
      /\ hd EmptyString (split "-" key) = n.
Proof.
  unfold usedNames. rewrite firstOccurrences_In, in_map_iff. cbn [In].
  split.
  - intros [(key & Heq & Hin) _]. now exists key.
  - intros (key & Hin & Heq). split; [now exists key | tauto].
Qed.

Lemma findAvailable_taken used a b c :
  In (findAvailable used [a; b; c]) used ->
  findAvailable used [a; b; c] = a
  /\ In a used /\ In b used /\ In c used.
Proof.
  assert (Hin : forall n, existsb (String.eqb n) used = true <-> In n used).
  { intros n. rewrite existsb_exists. split.
    - intros (m & Hm & Heq). apply String.eqb_eq in Heq. now subst.
    - intros Hn. exists n. split; [exact Hn | apply String.eqb_refl]. }
  unfold findAvailable. cbn [find hd].
  destruct (existsb (String.eqb a) used) eqn:Ea; cbn [negb].
  - destruct (existsb (String.eqb b) used) eqn:Eb; cbn [negb].
    + destruct (existsb (String.eqb c) used) eqn:Ec; cbn [negb].
      * intros _. repeat split; now apply Hin.
      * intros Hc. apply Hin in Hc. congruence.
    + intros Hb. apply Hin in Hb. congruence.
  - intros Ha. apply Hin in Ha. congruence.
Qed.

(** Every branch of the hue buckets offers three different names. *)
Lemma nameByHue_bucket used h s l :
  exists a b c,
    nameByHue used h s l = findAvailable used [a; b; c]
    /\ a <> b /\ a <> c /\ b <> c.
Proof.
  unfold nameByHue.
  repeat match goal with
         | |- context [if ?c then _ else _] =>
             lazymatch c with
             | context [findAvailable] => fail
             | _ => destruct c eqn:?
             end
         end;
    try (eexists _, _, _; split; [reflexivity|]; repeat split; discriminate).
  exfalso.
  repeat match goal with
         | H : _ || _ = false |- _ => apply orb_false_iff in H as [? ?]
         | H : _ && _ = false |- _ => apply andb_false_iff in H
         end.
  repeat match goal with
         | H : Qltb _ _ = false |- _ => apply Qltb_ge in H
         | H : Qle_bool _ _ = false |- _ => apply Qle_bool_gt in H
         | H : _ \/ _ |- _ => destruct H
         end;
    try (eapply Qlt_irrefl, Qlt_le_trans; eassumption);
    try (eapply Qlt_irrefl, Qle_lt_trans; eassumption).
Qed.



End PaletteNameFacts.
